(** * Post-Link Outlining (BOLT pass): shallow embedding and checked properties

    The embedding follows [bolt/lib/Passes/PostLinkOutlining.cpp] function by
    function.  Machine integers are [Z] with their wrap-around written out,
    [size_t] indices that only walk vectors are [nat], instruction vectors are
    lists, [std::map]/[std::set] are [gmap]/[gset].  Everything the pass asks
    of the host (instruction classification, descriptors, opcode names,
    register info, instruction builders) is a field of [BinaryContext]. *)

From Stdlib Require Import ZArith String Ascii Bool Lia.
From stdpp Require Import base list gmap strings pretty.

Local Open Scope string_scope.
Local Open Scope list_scope.
Local Open Scope Z_scope.

(** ** Machine integers *)

(** [uint64_t] arithmetic is modulo 2^64. *)
Definition wrap_u64 (z : Z) : Z := z mod 2 ^ 64.

(** Two's complement [int64_t] and [int]. *)
Definition wrap_i64 (z : Z) : Z := (z + 2 ^ 63) mod 2 ^ 64 - 2 ^ 63.
Definition wrap_i32 (z : Z) : Z := (z + 2 ^ 31) mod 2 ^ 32 - 2 ^ 31.

Definition in_i64 (z : Z) : Prop := - 2 ^ 63 <= z < 2 ^ 63.
Definition in_i32 (z : Z) : Prop := - 2 ^ 31 <= z < 2 ^ 31.

(** [std::abs] on [int64_t]. *)
Definition abs_i64 (z : Z) : Z := wrap_i64 (Z.abs z).

(** ** Opcode-name sniffing ([StringRef::lower], [std::string::find]) *)

Definition lower_ascii (c : ascii) : ascii :=
  let n := nat_of_ascii c in
  if (65 <=? n)%nat && (n <=? 90)%nat then ascii_of_nat (n + 32) else c.

Fixpoint lower (s : string) : string :=
  match s with
  | EmptyString => EmptyString
  | String c s' => String (lower_ascii c) (lower s')
  end.

(** [s.find(pat)]: [None] is [std::string::npos]. *)
Definition find (s pat : string) : option nat := String.index 0 pat s.

Definition find_at_0 (s pat : string) : bool :=
  match find s pat with Some O => true | _ => false end.

Definition contains (s pat : string) : bool :=
  match find s pat with Some _ => true | None => false end.

Definition equals_insensitive (a b : string) : bool :=
  bool_decide (lower a = lower b).

Definition starts_with_insensitive (s pat : string) : bool :=
  find_at_0 (lower s) (lower pat).

Definition contains_insensitive (s pat : string) : bool :=
  contains (lower s) (lower pat).

(** ** Instructions *)

(** An [MCExpr] operand is a pointer to an expression object; [ExprSymbol] is
    the symbol when the object is an [MCSymbolRefExpr]. *)
Record MCExpr := mkExpr { ExprAddr : Z; ExprSymbol : option string }.

Inductive MCOperand :=
| Reg (r : Z)
| Imm (i : Z)
| Expr (e : MCExpr)
| SFPImm (bits : Z).

Record MCInst := mkInst { getOpcode : Z; Operands : list MCOperand }.

Definition isReg (o : MCOperand) : bool := match o with Reg _ => true | _ => false end.
Definition isImm (o : MCOperand) : bool := match o with Imm _ => true | _ => false end.
Definition isExpr (o : MCOperand) : bool := match o with Expr _ => true | _ => false end.
Definition isSFPImm (o : MCOperand) : bool := match o with SFPImm _ => true | _ => false end.

Definition getNumOperands (I : MCInst) : nat := length (Operands I).

(** [Op.isReg() && Op.getReg() == R] *)
Definition isRegEq (R : Z) (o : MCOperand) : bool :=
  match o with Reg r => r =? R | _ => false end.

#[global] Instance MCExpr_eq_dec : EqDecision MCExpr.
Proof. solve_decision. Defined.
#[global] Instance MCOperand_eq_dec : EqDecision MCOperand.
Proof. solve_decision. Defined.
#[global] Instance MCInst_eq_dec : EqDecision MCInst.
Proof. solve_decision. Defined.

(** ** The host: target description consumed by the pass

    [MIA_*] are [BC.MIA->...] ([MCInstrAnalysis]), [MIB_*] are [BC.MIB->...]
    ([MCPlusBuilder]), [mayLoad]/[mayStore]/[getNumDefs] are
    [BC.MII->get(opcode)], [getOpcodeName] is [BC.InstPrinter], [RegNames] and
    [isSubRegisterEq] are [BC.MRI]. *)
Record BinaryContext := mkBC {
  isAArch64 : bool;
  MIA_isReturn : MCInst -> bool;
  MIA_isCall : MCInst -> bool;
  MIA_isBranch : MCInst -> bool;
  MIA_isTerminator : MCInst -> bool;
  MIB_isPseudo : MCInst -> bool;
  MIB_isCFI : MCInst -> bool;
  MIB_isReturn : MCInst -> bool;
  MIB_isCall : MCInst -> bool;
  MIB_isIndirectCall : MCInst -> bool;
  MIB_isTailCall : MCInst -> bool;
  MIB_isUnconditionalBranch : MCInst -> bool;
  MIB_isPush : MCInst -> bool;
  MIB_isPop : MCInst -> bool;
  mayLoad : Z -> bool;
  mayStore : Z -> bool;
  getNumDefs : Z -> nat;
  getOpcodeName : Z -> string;
  RegNames : list string;
  isSubRegisterEq : Z -> Z -> bool;
  getStackPointer : Z;
  getFramePointer : Z;
  createPushRegisters : Z -> Z -> MCInst;
  createPopRegisters : Z -> Z -> MCInst;
  createCall : MCExpr -> MCInst;
  createUncondBranch : MCExpr -> MCInst;
  createReturn : MCInst
}.

(** ** Program model *)

(** Blocks of a function are named by their layout index; a successor is such
    an index.  [getKnownExecutionCount] is 0 when [hasProfile] is false. *)
Record BinaryBasicBlock := mkBB {
  Instructions : list MCInst;
  Successors : list nat;
  hasProfile : bool;
  getKnownExecutionCount : Z
}.

Record BinaryFunction := mkBF {
  getPrintName : string;
  Blocks : list BinaryBasicBlock;
  isInjected : bool;
  fnHasProfile : bool;
  fnKnownExecutionCount : Z;
  hasEHRanges : bool;
  shouldOptimize : bool;
  isIgnored : bool
}.

Definition bbSize (B : BinaryBasicBlock) : nat := length (Instructions B).
Definition bfEmpty (F : BinaryFunction) : bool :=
  match Blocks F with [] => true | _ => false end.

(** ** Helpers of the pass *)

Fixpoint findRegName (names : list string) (i : Z) : option Z :=
  match names with
  | [] => None
  | n :: rest =>
      if equals_insensitive n "x30" || equals_insensitive n "lr" then Some i
      else findRegName rest (i + 1)
  end.

(** [(MCPhysReg)i]: the host's register number type is an unsigned 16-bit
    integer, the cast keeps the low 16 bits of the index. *)
Definition wrap_u16 (z : Z) : Z := z mod 2 ^ 16.

Definition getLinkRegister (BC : BinaryContext) : Z :=
  if negb (isAArch64 BC) then 0
  else match findRegName (RegNames BC) 0 with
       | Some i => wrap_u16 i
       | None => 30
       end.

Definition isLeafFunction (BC : BinaryContext) (BF : BinaryFunction) : bool :=
  if bfEmpty BF then true
  else negb (existsb (fun BB => existsb (MIB_isCall BC) (Instructions BB)) (Blocks BF)).

(** Index of the first element satisfying [p]. *)
Definition firstIndex {A} (p : A -> bool) (l : list A) : option nat :=
  fst <$> list_find (fun x => p x = true) l.

(** [isLRSavedAtPoint(BC, BB, StartIndex)], the block given by its index [b]
    in [BF].  The first loop walks the blocks in layout order looking for a
    return; [None] means the loop ended without returning from the function. *)
Fixpoint retScan (BC : BinaryContext) (blocks : list BinaryBasicBlock)
    (k b StartIndex : nat) (retEncountered : bool) : option bool :=
  match blocks with
  | [] => None
  | FuncBB :: rest =>
      let retEncountered :=
        retEncountered || existsb (MIA_isReturn BC) (Instructions FuncBB) in
      if retEncountered && (k =? b)%nat then
        (* retIndex stays SIZE_MAX when the block holds no return *)
        match firstIndex (MIA_isReturn BC) (Instructions FuncBB) with
        | Some retIndex =>
            if (retIndex <? StartIndex)%nat then Some false
            else None                       (* falls to the break below *)
        | None => None
        end
      else if retEncountered then Some false
      else if (k =? b)%nat then None
      else retScan BC rest (S k) b StartIndex retEncountered
  end.

(** The scan of the entry block for a push or store naming LR. *)
Fixpoint lrScan (BC : BinaryContext) (LR : Z) (IsEntryBlock : bool)
    (insts : list MCInst) (Limit : nat) : bool :=
  match Limit, insts with
  | O, _ => false
  | _, [] => false                          (* i >= size: break *)
  | S Limit', Inst :: rest =>
      if (MIB_isPush BC Inst || mayStore BC (getOpcode Inst))
         && existsb (isRegEq LR) (Operands Inst) then true
      else if (MIA_isTerminator BC Inst || MIA_isCall BC Inst) && IsEntryBlock
      then false
      else lrScan BC LR IsEntryBlock rest Limit'
  end.

Definition isLRSavedAtPoint (BC : BinaryContext) (BF : BinaryFunction)
    (b StartIndex : nat) : bool :=
  match Blocks BF with
  | [] => false
  | EntryBB :: _ =>
      match retScan BC (Blocks BF) 0 b StartIndex false with
      | Some r => r
      | None =>
          let IsEntryBlock := (b =? 0)%nat in
          let Limit := if IsEntryBlock then StartIndex else bbSize EntryBB in
          lrScan BC (getLinkRegister BC) IsEntryBlock (Instructions EntryBB) Limit
      end
  end.

(** [getInstructionScale]: the memory scale sniffed from the opcode name. *)
Definition getInstructionScale (BC : BinaryContext) (Inst : MCInst) : Z :=
  let NameLower := lower (getOpcodeName BC (getOpcode Inst)) in
  let pair_scale :=
    if find_at_0 NameLower "ldp" || find_at_0 NameLower "stp" then
      if contains NameLower "xi" then Some 8
      else if contains NameLower "wi" then Some 4
      else if contains NameLower "qi" then Some 16
      else if contains NameLower "di" then Some 8
      else if contains NameLower "si" then Some 4
      else None
    else None in
  match pair_scale with
  | Some s => s
  | None =>
      let single_scale :=
        if find_at_0 NameLower "ldr" || find_at_0 NameLower "str" then
          if contains NameLower "xui" then Some 8
          else if contains NameLower "wui" then Some 4
          else if contains NameLower "qui" then Some 16
          else if contains NameLower "hui" then Some 2
          else if contains NameLower "bui" then Some 1
          else if find_at_0 NameLower "ldur" || find_at_0 NameLower "stur" then Some 1
          else None
        else None in
      match single_scale with
      | Some s => s
      | None => 1
      end
  end.

(** [areInstructionsEqual]: opcode, operand count, and per operand the kind
    and the value; expressions compare as pointers. *)
Definition operandsEqual (Op1 Op2 : MCOperand) : bool :=
  if negb (Bool.eqb (isReg Op1) (isReg Op2)) || negb (Bool.eqb (isImm Op1) (isImm Op2))
     || negb (Bool.eqb (isExpr Op1) (isExpr Op2))
     || negb (Bool.eqb (isSFPImm Op1) (isSFPImm Op2)) then false
  else match Op1, Op2 with
       | Reg r1, Reg r2 => r1 =? r2
       | Imm i1, Imm i2 => i1 =? i2
       | SFPImm f1, SFPImm f2 => f1 =? f2
       | Expr e1, Expr e2 => ExprAddr e1 =? ExprAddr e2
       | _, _ => true
       end.

Fixpoint allOperandsEqual (ops1 ops2 : list MCOperand) : bool :=
  match ops1, ops2 with
  | Op1 :: r1, Op2 :: r2 => operandsEqual Op1 Op2 && allOperandsEqual r1 r2
  | _, _ => true
  end.

Definition areInstructionsEqual (Inst1 Inst2 : MCInst) : bool :=
  if negb (getOpcode Inst1 =? getOpcode Inst2) then false
  else if negb (getNumOperands Inst1 =? getNumOperands Inst2)%nat then false
  else allOperandsEqual (Operands Inst1) (Operands Inst2).

(** [areImmediatesCompatible(BC, Inst1, Inst2, OpIdx1, OpIdx2)] *)
Definition isShiftName (NameLower : string) : bool :=
  contains NameLower "lsr" || contains NameLower "lsl"
  || contains NameLower "asr" || contains NameLower "ror".

Definition namesSPorFP (BC : BinaryContext) (Op : MCOperand) : bool :=
  match Op with
  | Reg r =>
      let SPReg := getStackPointer BC in
      let FP := getFramePointer BC in
      (r =? SPReg) || (r =? FP) || isSubRegisterEq BC SPReg r
      || isSubRegisterEq BC FP r
  | _ => false
  end.

Definition areImmediatesCompatible (BC : BinaryContext) (Inst1 Inst2 : MCInst)
    (OpIdx1 OpIdx2 : nat) : bool :=
  match Operands Inst1 !! OpIdx1, Operands Inst2 !! OpIdx2 with
  | Some Op1, Some Op2 =>
      match Op1, Op2 with
      | Imm Imm1, Imm Imm2 =>
          if Imm1 =? Imm2 then true
          else
            let mayAccessStack :=
              (mayLoad BC (getOpcode Inst1) || mayStore BC (getOpcode Inst1))
              && (mayLoad BC (getOpcode Inst2) || mayStore BC (getOpcode Inst2)) in
            if mayAccessStack && existsb (namesSPorFP BC) (Operands Inst1)
            then false
            else
              let Name1Lower := lower (getOpcodeName BC (getOpcode Inst1)) in
              let Name2Lower := lower (getOpcodeName BC (getOpcode Inst2)) in
              let isShiftInst := isShiftName Name1Lower && isShiftName Name2Lower in
              if isShiftInst && (OpIdx1 =? OpIdx2)%nat
                 && (abs_i64 (wrap_i64 (Imm1 - Imm2)) <=? 1) then true
              else if (abs_i64 Imm1 <=? 15) && (abs_i64 Imm2 <=? 15)
                      && (abs_i64 (wrap_i64 (Imm1 - Imm2)) <=? 1) then true
              else false
      | _, _ => Bool.eqb (isImm Op1) (isImm Op2)
      end
  | _, _ => false
  end.

Definition areInstructionsSemanticallyEquivalent (Inst1 Inst2 : MCInst) : bool :=
  if negb (getOpcode Inst1 =? getOpcode Inst2) then false
  else if negb (getNumOperands Inst1 =? getNumOperands Inst2)%nat then false
  else true.

(** ** The window reject predicate

    [shouldRejectInstruction] returns 0 to accept and a reason 1..7 to
    reject.  [BB] is the instruction vector of the block handed in; reading
    it past its end (possible for cross-block windows) yields no
    instruction. *)
Definition stackWriteBefore (BC : BinaryContext) (BB : list MCInst)
    (seqStartIdx instIdx : nat) : bool :=
  existsb (fun PrevInst =>
             mayStore BC (getOpcode PrevInst)
             && existsb (isRegEq (getStackPointer BC)) (Operands PrevInst))
          (take (instIdx - seqStartIdx) (drop seqStartIdx BB)).

(** The operand loop: [inl reason] is an early return, [inr (usesSP,
    modifiesSP)] the flags at loop exit. *)
Fixpoint scanStackOperands (BC : BinaryContext) (NumDefs : nat)
    (ops : list MCOperand) (opIdx : nat) (usesSP modifiesSP : bool)
    : Z + bool * bool :=
  match ops with
  | [] => inr (usesSP, modifiesSP)
  | Op :: rest =>
      match Op with
      | Reg r =>
          let FP := getFramePointer BC in
          let LR := getLinkRegister BC in
          let SPReg := getStackPointer BC in
          if (r =? FP) || isSubRegisterEq BC FP r
             || (r =? LR) || isSubRegisterEq BC LR r then inl 4
          else if (r =? SPReg) || isSubRegisterEq BC SPReg r then
            scanStackOperands BC NumDefs rest (S opIdx) true
              (modifiesSP || (opIdx <? NumDefs)%nat)
          else scanStackOperands BC NumDefs rest (S opIdx) usesSP modifiesSP
      | _ => scanStackOperands BC NumDefs rest (S opIdx) usesSP modifiesSP
      end
  end.

Definition isPCRelativeName (Name : string) : bool :=
  equals_insensitive Name "ADR" || equals_insensitive Name "ADRP"
  || (starts_with_insensitive Name "LDR" && contains_insensitive Name "_LIT").

Definition shouldRejectInstruction (BC : BinaryContext) (Inst : MCInst)
    (len : Z) (allowBranch isLastInSeq : bool) (BB : list MCInst)
    (seqStartIdx instIdx : nat) : Z :=
  (* 1. pseudo / CFI / opcode 0 *)
  if (getOpcode Inst =? 0) || MIB_isPseudo BC Inst || MIB_isCFI BC Inst then 1
  (* 2. return *)
  else if MIB_isReturn BC Inst then 2
  (* 3. call *)
  else if MIB_isCall BC Inst then
    if negb isLastInSeq then 2
    else if (seqStartIdx <? instIdx)%nat
            && stackWriteBefore BC BB seqStartIdx instIdx then 2
    else 0
  (* 4. branch *)
  else if MIA_isBranch BC Inst then
    if isLastInSeq then
      if MIB_isUnconditionalBranch BC Inst then 2 else 0
    else 2
  (* 5. PC-relative materialization *)
  else if isAArch64 BC && isPCRelativeName (getOpcodeName BC (getOpcode Inst))
  then 3
  else
    let Desc := getOpcode Inst in
    match scanStackOperands BC (getNumDefs BC Desc) (Operands Inst) 0 false false with
    | inl reason => reason
    | inr (usesSP, modifiesSP) =>
        if modifiesSP then 5
        else if usesSP && negb modifiesSP then
          let isLongSequence := (5 <=? len) in
          if mayStore BC Desc then 6
          else if negb isLongSequence then
            if negb (mayLoad BC Desc) then 6
            else if negb (existsb isImm (Operands Inst)) then 7
            else 0
          else 0
        else 0
    end.

(** ** Pass object and options *)

(** [LargestLength] and [EnablePGO] are the members of the pass;
    [PostLinkOutliningMinLength] is the command-line option of that name. *)
Record PostLinkOutlining := mkPass {
  LargestLength : Z;
  EnablePGO : bool;
  PostLinkOutliningMinLength : Z
}.

Definition InstructionSequence := list MCInst.

(** ** Successor choice for cross-block walks *)

(** The loop [for Succ : successors: if count > maxCount ...], from the
    state [(maxCount, NextBB)]. *)
Definition hottestSuccessor (BF : BinaryFunction) (succs : list nat)
    (init : Z * option nat) : Z * option nat :=
  fold_left (fun (st : Z * option nat) Succ =>
               match Blocks BF !! Succ with
               | Some SuccBB =>
                   if fst st <? getKnownExecutionCount SuccBB
                   then (getKnownExecutionCount SuccBB, Some Succ) else st
               | None => st
               end) succs init.

Definition getNextBasicBlock (BC : BinaryContext) (BF : BinaryFunction)
    (CurrentBB : nat) : option nat :=
  match Blocks BF !! CurrentBB with
  | None => None
  | Some Cur =>
      match last (Instructions Cur) with
      | None => None
      | Some LastInst =>
          if MIA_isBranch BC LastInst && negb (MIB_isUnconditionalBranch BC LastInst)
          then
            match Successors Cur with
            | [] => None
            | first :: rest =>
                match rest with
                | [] => Some first
                | _ => snd (hottestSuccessor BF (Successors Cur) (0, Some first))
                end
            end
          else if negb (MIA_isBranch BC LastInst) then
            match Successors Cur with
            | [] => None
            | [only] => Some only
            | first :: _ =>
                match snd (hottestSuccessor BF (Successors Cur) (0, None)) with
                | Some NextBB => Some NextBB
                | None => Some first
                end
            end
          else None
      end
  end.

(** ** Sequence extractor *)

(** The inner loop over [j]: every instruction of the window starting at [i]
    must pass the filter. *)
Fixpoint windowAccepted (BC : BinaryContext) (len : Z) (BB : list MCInst)
    (i : nat) (window : list MCInst) (j : nat) (len_size : nat) : bool :=
  match window with
  | [] => true
  | Inst :: rest =>
      if shouldRejectInstruction BC Inst len false (S j =? len_size)%nat BB i (i + j)
         =? 0
      then windowAccepted BC len BB i rest (S j) len_size
      else false
  end.

(** Windows of one block, start positions [i .. numInsts - len_size]. *)
Fixpoint blockWindows (BC : BinaryContext) (len : Z) (BB : list MCInst)
    (len_size : nat) (i : nat) (count : nat) : list InstructionSequence :=
  match count with
  | O => []
  | S count' =>
      let seq := take len_size (drop i BB) in
      (if windowAccepted BC len BB i seq 0 len_size then [seq] else [])
      ++ blockWindows BC len BB len_size (S i) count'
  end.

(** [getAllseqs(BC, BF, len)].  In the source the block loop goes on with an
    attempt at cross-block windows under [numInsts < len_size]; the
    [continue] taken under [len_size > numInsts] just before makes that part
    unreachable, so every extracted window lies inside one block. *)
Definition getAllseqs (P : PostLinkOutlining) (BC : BinaryContext)
    (BF : BinaryFunction) (len : Z) : list InstructionSequence :=
  if (len <? PostLinkOutliningMinLength P) || (LargestLength P <? len) then []
  else if hasEHRanges BF then []
  else
    flat_map (fun BB =>
      let numInsts := bbSize BB in
      if (numInsts =? 0)%nat then []
      else if EnablePGO P && hasProfile BB && (1 <? getKnownExecutionCount BB)
      then []
      else
        (* static_cast<size_t>(len): a negative len exceeds every block size *)
        let len_size := Z.to_nat len in
        if (len <? 0) || (numInsts <? len_size)%nat then []
        else blockWindows BC len (Instructions BB) len_size 0
               (S (numInsts - len_size)))
      (Blocks BF).

(** ** Overlap test *)

Definition hasOverlappedInstrs (seq1 seq2 : InstructionSequence) : bool :=
  existsb (fun Inst1 => existsb (fun Inst2 => areInstructionsEqual Inst1 Inst2) seq2)
          seq1.

(** ** Sequence fingerprint *)

(** [normalizeRegister(reg, regMap, nextRegId)]: the value returned and the
    two reference arguments after the call. *)
Definition normalizeRegister (reg : Z) (regMap : gmap Z Z) (nextRegId : Z)
    : Z * gmap Z Z * Z :=
  if (reg =? 31) || (reg =? 29) || (reg =? 30) then (reg, regMap, nextRegId)
  else match regMap !! reg with
       | Some id => (id, regMap, nextRegId)
       | None => (nextRegId, <[reg := nextRegId]> regMap, wrap_u64 (nextRegId + 1))
       end.

Definition FNV_offset_basis : Z := 14695981039346656037.
Definition FNV_prime : Z := 1099511628211.

(** [hash ^= x; hash *= FNV_prime;] on [uint64_t]. *)
Definition fnv_step (hash x : Z) : Z := wrap_u64 (Z.lxor hash x * FNV_prime).

Record HashState := mkHS { hsHash : Z; hsRegMap : gmap Z Z; hsNextRegId : Z }.

Section Fingerprint.
(** [std::hash<float>] applied to the operand's single-precision value,
    as a function of the 32 bits the operand stores. *)
Variable std_hash_float : Z -> Z.

(** Register ids and opcodes are unsigned in the source, so their
    conversion to [uint64_t] keeps the value; an immediate is an [int64_t]
    and converts modulo 2^64. *)
Definition hashOperand (st : HashState) (Operand : MCOperand) : HashState :=
  match Operand with
  | Reg r =>
      let '(normalizedReg, regMap, nextRegId) :=
        normalizeRegister r (hsRegMap st) (hsNextRegId st) in
      mkHS (fnv_step (hsHash st) normalizedReg) regMap nextRegId
  | Imm imm =>
      mkHS (fnv_step (hsHash st) (wrap_u64 imm)) (hsRegMap st) (hsNextRegId st)
  | Expr _ =>
      mkHS (fnv_step (hsHash st) 3735928559) (hsRegMap st) (hsNextRegId st)
  | SFPImm bits =>
      mkHS (fnv_step (hsHash st) (wrap_u64 (std_hash_float bits)))
           (hsRegMap st) (hsNextRegId st)
  end.

Definition hashInst (st : HashState) (Inst : MCInst) : HashState :=
  fold_left hashOperand (Operands Inst)
    (mkHS (fnv_step (hsHash st) (wrap_u64 (getOpcode Inst)))
          (hsRegMap st) (hsNextRegId st)).

Definition getHash (seq : InstructionSequence) : Z :=
  hsHash (fold_left hashInst seq (mkHS FNV_offset_basis ∅ 1000)).

(** ** Duplicate grouper: the loop over [j] of one anchor [i] *)

Definition isSpecialReg (r : Z) : bool := (r =? 31) || (r =? 29) || (r =? 30).

(** The operand loop of the structural re-check ([operandsMatch]). *)
Fixpoint operandsMatchFrom (BC : BinaryContext) (Inst1 Inst2 : MCInst)
    (ops1 ops2 : list MCOperand) (opIdx : nat) : bool :=
  match ops1, ops2 with
  | Op1 :: r1, Op2 :: r2 =>
      let ok :=
        match Op1, Op2 with
        | Reg Reg1, Reg Reg2 =>
            if isSpecialReg Reg1 || isSpecialReg Reg2 then Reg1 =? Reg2 else true
        | Imm _, Imm _ => areImmediatesCompatible BC Inst1 Inst2 opIdx opIdx
        | _, _ =>
            negb (negb (Bool.eqb (isReg Op1) (isReg Op2))
                  || negb (Bool.eqb (isImm Op1) (isImm Op2))
                  || negb (Bool.eqb (isExpr Op1) (isExpr Op2)))
        end in
      ok && operandsMatchFrom BC Inst1 Inst2 r1 r2 (S opIdx)
  | _, _ => true
  end.

Definition instsMatch (BC : BinaryContext) (Inst1 Inst2 : MCInst) : bool :=
  (getOpcode Inst1 =? getOpcode Inst2)
  && (getNumOperands Inst1 =? getNumOperands Inst2)%nat
  && operandsMatchFrom BC Inst1 Inst2 (Operands Inst1) (Operands Inst2) 0.

Fixpoint forallb2 {A} (p : A -> A -> bool) (l1 l2 : list A) : bool :=
  match l1, l2 with
  | x :: r1, y :: r2 => p x y && forallb2 p r1 r2
  | _, _ => true
  end.

(** [sequencesMatch] as computed for the pair [(seqs[i], seqs[j])]. *)
Definition sequencesMatch (BC : BinaryContext)
    (seq_i seq_j : InstructionSequence) : bool :=
  if getHash seq_i =? getHash seq_j then true
  else if (length seq_i =? length seq_j)%nat then
    if forallb2 areInstructionsSemanticallyEquivalent seq_i seq_j
    then forallb2 (instsMatch BC) seq_i seq_j
    else false
  else false.

(** State of the grouping loop: the claimed windows ([LabeledSequences],
    as indices into [seqs]), [CurrentMatches] and [Frequency]. *)
Record GroupState := mkGS {
  LabeledSequences : gset nat;
  CurrentMatches : list nat;
  Frequency : Z
}.

Definition seqAt (seqs : list InstructionSequence) (k : nat) : InstructionSequence :=
  default [] (seqs !! k).

Definition groupStep (BC : BinaryContext) (seqs : list InstructionSequence)
    (i : nat) (st : GroupState) (j : nat) : GroupState :=
  if hasOverlappedInstrs (seqAt seqs i) (seqAt seqs j) then st
  else if sequencesMatch BC (seqAt seqs i) (seqAt seqs j)
          && negb (bool_decide (j ∈ LabeledSequences st)) then
    if existsb (fun Accepted => hasOverlappedInstrs (seqAt seqs Accepted) (seqAt seqs j))
               (CurrentMatches st)
    then st
    else mkGS ({[ j ]} ∪ LabeledSequences st) (CurrentMatches st ++ [j])
              (wrap_i32 (Frequency st + 1))
  else st.

(** Anchor [i]: [setLabel(&seqs[i])], [CurrentMatches = {&seqs[i]}],
    [Frequency = 1], then [j = i+1 .. n-1]. *)
Definition groupAnchor (BC : BinaryContext) (seqs : list InstructionSequence)
    (Labeled : gset nat) (i : nat) : GroupState :=
  fold_left (groupStep BC seqs i) (seq (S i) (length seqs - S i))
    (mkGS ({[ i ]} ∪ Labeled) [i] 1).

End Fingerprint.

(** ** Function synthesizer *)

(** Allocation state of the [MCContext]: the address of the next expression
    object and the counter behind [createNamedTempSymbol]. *)
Record MCContext := mkCtx { NextExprAddr : Z; NextTempSymbol : nat }.

Definition createNamedTempSymbol (Ctx : MCContext) (Name : string)
    : string * MCContext :=
  (Name +:+ pretty (NextTempSymbol Ctx),
   mkCtx (NextExprAddr Ctx) (S (NextTempSymbol Ctx))).

(** [MCSymbolRefExpr::create(Sym, Ctx)] *)
Definition createSymbolRefExpr (Ctx : MCContext) (Sym : string)
    : MCExpr * MCContext :=
  (mkExpr (NextExprAddr Ctx) (Some Sym),
   mkCtx (NextExprAddr Ctx + 1) (NextTempSymbol Ctx)).

Definition isConditionalBranch (BC : BinaryContext) (Inst : MCInst) : bool :=
  MIA_isBranch BC Inst && negb (MIB_isUnconditionalBranch BC Inst).

(** Operands of a copied conditional branch: every expression operand is
    replaced by a fresh reference to [ReturnLabel]. *)
Fixpoint redirectOperands (Ctx : MCContext) (ReturnLabel : string)
    (ops : list MCOperand) : list MCOperand * MCContext :=
  match ops with
  | [] => ([], Ctx)
  | Op :: rest =>
      match Op with
      | Expr _ =>
          let '(e, Ctx1) := createSymbolRefExpr Ctx ReturnLabel in
          let '(rest', Ctx2) := redirectOperands Ctx1 ReturnLabel rest in
          (Expr e :: rest', Ctx2)
      | _ =>
          let '(rest', Ctx1) := redirectOperands Ctx ReturnLabel rest in
          (Op :: rest', Ctx1)
      end
  end.

(** The copy loop of [createFunction]; [ReturnLabel] is minted on the first
    conditional branch when the pre-scan did not mint it. *)
Fixpoint copyBody (BC : BinaryContext) (Ctx : MCContext)
    (ReturnLabel : option string) (seq : InstructionSequence)
    : list MCInst * option string * MCContext :=
  match seq with
  | [] => ([], ReturnLabel, Ctx)
  | OriginalInst :: rest =>
      if MIB_isCFI BC OriginalInst || MIB_isPseudo BC OriginalInst
      then copyBody BC Ctx ReturnLabel rest
      else if isConditionalBranch BC OriginalInst then
        let '(Label, Ctx1) :=
          match ReturnLabel with
          | Some L => (L, Ctx)
          | None => createNamedTempSymbol Ctx "outlined_return"
          end in
        let '(ops, Ctx2) := redirectOperands Ctx1 Label (Operands OriginalInst) in
        let '(body, RL, Ctx3) := copyBody BC Ctx2 (Some Label) rest in
        (mkInst (getOpcode OriginalInst) ops :: body, RL, Ctx3)
      else
        let '(body, RL, Ctx1) := copyBody BC Ctx ReturnLabel rest in
        (mkInst (getOpcode OriginalInst) (Operands OriginalInst) :: body, RL, Ctx1)
  end.

(** Modelled from the spec: the host's [createInjectedBinaryFunction] and
    [addBasicBlock] are not part of the pass; per the spec an injected
    function is created by the synthesizer, tagged injected, and registered
    with the host.  Both calls are taken to succeed.  The new function
    carries no profile and no exception ranges. *)
Definition createInjectedBinaryFunction (FuncName : string)
    (blocks : list BinaryBasicBlock) : BinaryFunction :=
  mkBF FuncName blocks true false 0 false false false.

Definition newBlock (insts : list MCInst) : BinaryBasicBlock :=
  mkBB insts [] false 0.

(** [createFunction(BC, seq)]: [None] is the [nullptr] result;
    [OutlinedFunctionCount] is the function-local static counter. *)
Definition createFunction (BC : BinaryContext) (Ctx : MCContext)
    (OutlinedFunctionCount : nat) (seq : InstructionSequence)
    : option BinaryFunction * MCContext * nat :=
  match seq with
  | [] => (None, Ctx, OutlinedFunctionCount)
  | _ =>
      let OutlinedFunctionCount := S OutlinedFunctionCount in
      let FuncName := "PLO_outlined_" +:+ pretty OutlinedFunctionCount in
      let '(_, Ctx) := createNamedTempSymbol Ctx "outlined_bb" in
      let hasConditionalBranch := existsb (isConditionalBranch BC) seq in
      let '(ReturnLabel, Ctx) :=
        if hasConditionalBranch then
          let '(L, Ctx1) := createNamedTempSymbol Ctx "outlined_return" in
          (Some L, Ctx1)
        else (None, Ctx) in
      let '(body, ReturnLabel, Ctx) := copyBody BC Ctx ReturnLabel seq in
      let blocks :=
        match ReturnLabel with
        | Some _ => [newBlock body; newBlock [createReturn BC]]
        | None => [newBlock (body ++ [createReturn BC])]
        end in
      (Some (createInjectedBinaryFunction FuncName blocks), Ctx,
       OutlinedFunctionCount)
  end.

(** *** Stack-displacement fixup *)

(** [name.find("add") == 0 || name.find("sub") == 0) && name.find("sp") != npos]
    and no definition of SP among the first [NumDefs] operands. *)
Definition isAddSubAgainstSP (BC : BinaryContext) (Inst : MCInst) : bool :=
  let InstNameLower := lower (getOpcodeName BC (getOpcode Inst)) in
  if (find_at_0 InstNameLower "add" || find_at_0 InstNameLower "sub")
     && contains InstNameLower "sp"
  then
    let modifiesSP :=
      existsb (isRegEq (getStackPointer BC))
              (take (getNumDefs BC (getOpcode Inst)) (Operands Inst)) in
    negb modifiesSP
  else false.

Definition isLoadStore (BC : BinaryContext) (Inst : MCInst) : bool :=
  mayLoad BC (getOpcode Inst) || mayStore BC (getOpcode Inst).

(** [ImmOp.setImm(ImmOp.getImm() + ImmAdjustment)] on the first immediate of
    [ops]; [None] when there is none. *)
Fixpoint bumpFirstImm (ImmAdjustment : Z) (ops : list MCOperand)
    : option (list MCOperand) :=
  match ops with
  | [] => None
  | Imm v :: rest => Some (Imm (wrap_i64 (v + ImmAdjustment)) :: rest)
  | Op :: rest => cons Op <$> bumpFirstImm ImmAdjustment rest
  end.

(** The operand loop [for i ... && !fixed]; [None] when nothing was fixed. *)
Fixpoint fixOperands (SP : Z) (loadStore : bool) (ImmAdjustment : Z)
    (ops : list MCOperand) : option (list MCOperand) :=
  match ops with
  | [] => None
  | Op :: rest =>
      if isRegEq SP Op then
        if loadStore then
          match rest with
          | Imm v :: rest' =>
              Some (Op :: Imm (wrap_i64 (v + ImmAdjustment)) :: rest')
          | _ => cons Op <$> fixOperands SP loadStore ImmAdjustment rest
          end
        else
          match bumpFirstImm ImmAdjustment rest with
          | Some rest' => Some (Op :: rest')
          | None => cons Op <$> fixOperands SP loadStore ImmAdjustment rest
          end
      else cons Op <$> fixOperands SP loadStore ImmAdjustment rest
  end.

Definition ByteFixOffset (IsCalledViaSandwich : bool) : Z :=
  if IsCalledViaSandwich then 32 else 16.

(** One iteration of the fixup loop: the instruction afterwards and whether
    [FixedCount] was incremented. *)
Definition fixInstruction (BC : BinaryContext) (IsCalledViaSandwich : bool)
    (Inst : MCInst) : MCInst * bool :=
  let loadStore := isLoadStore BC Inst in
  let isAddSub := isAddSubAgainstSP BC Inst in
  if negb loadStore && negb isAddSub then (Inst, false)
  else
    let Scale := if loadStore then getInstructionScale BC Inst else 1 in
    let ImmAdjustment := Z.quot (ByteFixOffset IsCalledViaSandwich) Scale in
    match fixOperands (getStackPointer BC) loadStore ImmAdjustment (Operands Inst) with
    | Some ops => (mkInst (getOpcode Inst) ops, true)
    | None => (Inst, false)
    end.

Definition mapInstructions (f : MCInst -> MCInst) (BB : BinaryBasicBlock)
    : BinaryBasicBlock :=
  mkBB (f <$> Instructions BB) (Successors BB) (hasProfile BB)
       (getKnownExecutionCount BB).

Definition setInstructions (BB : BinaryBasicBlock) (insts : list MCInst)
    : BinaryBasicBlock :=
  mkBB insts (Successors BB) (hasProfile BB) (getKnownExecutionCount BB).

Definition setBlocks (BF : BinaryFunction) (blocks : list BinaryBasicBlock)
    : BinaryFunction :=
  mkBF (getPrintName BF) blocks (isInjected BF) (fnHasProfile BF)
       (fnKnownExecutionCount BF) (hasEHRanges BF) (shouldOptimize BF)
       (isIgnored BF).

Definition allInstructions (blocks : list BinaryBasicBlock) : list MCInst :=
  flat_map Instructions blocks.

Definition fixStackOffsets (BC : BinaryContext) (IsCalledViaSandwich : bool)
    (blocks : list BinaryBasicBlock) : list BinaryBasicBlock :=
  mapInstructions (fun Inst => fst (fixInstruction BC IsCalledViaSandwich Inst))
    <$> blocks.

Definition FixedCount (BC : BinaryContext) (IsCalledViaSandwich : bool)
    (blocks : list BinaryBasicBlock) : nat :=
  length (filter (fun Inst => snd (fixInstruction BC IsCalledViaSandwich Inst) = true)
                 (allInstructions blocks)).

(** *** Purity scan *)

Record PurityFlags := mkPF { needsLR : bool; usesFP : bool; hasConditionalBranch : bool }.

(** [usesFP] loop of one instruction: FP among the use operands. *)
Definition readsFP (BC : BinaryContext) (Inst : MCInst) : bool :=
  existsb (isRegEq (getFramePointer BC))
          (drop (getNumDefs BC (getOpcode Inst)) (Operands Inst)).

(** The instruction loop of one block; the second component tells whether
    the outer loop must stop too. *)
Fixpoint purityScanBlock (BC : BinaryContext) (insts : list MCInst)
    (fl : PurityFlags) : PurityFlags * bool :=
  match insts with
  | [] => (fl, hasConditionalBranch fl || (needsLR fl && usesFP fl))
  | Inst :: rest =>
      if isConditionalBranch BC Inst
      then (mkPF (needsLR fl) (usesFP fl) true, true)
      else
        let fl := mkPF (needsLR fl || MIB_isCall BC Inst)
                       (usesFP fl || readsFP BC Inst)
                       (hasConditionalBranch fl) in
        if hasConditionalBranch fl || (needsLR fl && usesFP fl) then (fl, true)
        else purityScanBlock BC rest fl
  end.

Fixpoint purityScan (BC : BinaryContext) (blocks : list BinaryBasicBlock)
    (fl : PurityFlags) : PurityFlags :=
  match blocks with
  | [] => fl
  | CurrBB :: rest =>
      let '(fl, stop) := purityScanBlock BC (Instructions CurrBB) fl in
      if stop then fl else purityScan BC rest fl
  end.

(** *** Prologue, tail call, epilogue *)

(** The target of a direct call: the symbol of the first expression operand
    that is a symbol reference. *)
Fixpoint callTargetSymbol (ops : list MCOperand) : option string :=
  match ops with
  | [] => None
  | Expr e :: rest =>
      match ExprSymbol e with
      | Some Sym => Some Sym
      | None => callTargetSymbol rest
      end
  | _ :: rest => callTargetSymbol rest
  end.

(** The tail-call step on the entry block (prologue already inserted):
    the block afterwards and [tailCallOptimized]. *)
Definition tailCallOptimize (BC : BinaryContext) (Ctx : MCContext)
    (BB : list MCInst) : list MCInst * bool * MCContext :=
  let n := length BB in
  if (n <? 2)%nat then (BB, false, Ctx)
  else
    match BB !! (n - 2)%nat, BB !! (n - 1)%nat with
    | Some CallInst, Some RetInst =>
        if MIB_isCall BC CallInst && MIB_isReturn BC RetInst then
          if negb (MIB_isIndirectCall BC CallInst) then
            match callTargetSymbol (Operands CallInst) with
            | Some TargetSymbol =>
                let '(e, Ctx1) := createSymbolRefExpr Ctx TargetSymbol in
                (take (n - 2) BB ++ [createUncondBranch BC e], true, Ctx1)
            | None => (take (n - 1) BB, true, Ctx)
            end
          else (BB, false, Ctx)
        else (BB, false, Ctx)
    | _, _ => (BB, false, Ctx)
    end.

(** [BB->insertInstruction(InsertPoint, Epilogue)] with [InsertPoint] the
    first return of the block, or its end. *)
Definition insertEpilogue (BC : BinaryContext) (BB : list MCInst) : list MCInst :=
  let Epilogue := createPopRegisters BC (getFramePointer BC) (getLinkRegister BC) in
  match firstIndex (MIB_isReturn BC) BB with
  | Some k => take k BB ++ Epilogue :: drop k BB
  | None => BB ++ [Epilogue]
  end.

Definition isPureFunction (BC : BinaryContext) (IsCalledViaSandwich : bool)
    (blocks : list BinaryBasicBlock) : bool :=
  let hasStackAccess := (0 <? FixedCount BC IsCalledViaSandwich blocks)%nat in
  let fl := purityScan BC (fixStackOffsets BC IsCalledViaSandwich blocks)
              (mkPF false false false) in
  negb hasStackAccess && negb (needsLR fl) && negb (usesFP fl)
  && negb (hasConditionalBranch fl).

(** [stackFrameManage(outlinedFunc, IsCalledViaSandwich)] *)
Definition stackFrameManage (BC : BinaryContext) (Ctx : MCContext)
    (outlinedFunc : BinaryFunction) (IsCalledViaSandwich : bool)
    : BinaryFunction * MCContext :=
  let hasInstructions :=
    existsb (fun BB => negb (bbSize BB =? 0)%nat) (Blocks outlinedFunc) in
  if negb hasInstructions then (outlinedFunc, Ctx)
  else if negb (isAArch64 BC) then (outlinedFunc, Ctx)
  else
    match Blocks outlinedFunc with
    | [] => (outlinedFunc, Ctx)
    | First :: _ =>
        if (bbSize First =? 0)%nat then (outlinedFunc, Ctx)
        else
          let fixed := fixStackOffsets BC IsCalledViaSandwich (Blocks outlinedFunc) in
          if isPureFunction BC IsCalledViaSandwich (Blocks outlinedFunc)
          then (setBlocks outlinedFunc fixed, Ctx)
          else
            match fixed with
            | [] => (setBlocks outlinedFunc fixed, Ctx)
            | BB :: others =>
                let Prologue :=
                  createPushRegisters BC (getFramePointer BC) (getLinkRegister BC) in
                let withPrologue := Prologue :: Instructions BB in
                let '(afterTail, tailCallOptimized, Ctx1) :=
                  tailCallOptimize BC Ctx withPrologue in
                if tailCallOptimized
                then (setBlocks outlinedFunc (setInstructions BB afterTail :: others), Ctx1)
                else (setBlocks outlinedFunc
                        (setInstructions BB (insertEpilogue BC afterTail) :: others),
                      Ctx1)
            end
    end.

(** ** Locating occurrences *)

(** A [SequenceLocation]: the block (by index) and the start index.  The
    [Seq] member of the source always points at the anchor window. *)
Record SequenceLocation := mkLoc { LocBB : nat; StartIndex : nat }.

(** [Seq] found in one block at offset [i]: all [SeqLen] instructions equal. *)
Definition matchesAt (BB : list MCInst) (Seq : InstructionSequence) (i : nat) : bool :=
  let window := take (length Seq) (drop i BB) in
  (length window =? length Seq)%nat && forallb2 areInstructionsEqual window Seq.

(** The inner matching loop of [checkCrossBlockMatch] over one block:
    [inl r] is a [return r], [inr matched] the count at loop exit. *)
Fixpoint crossMatchBlock (BC : BinaryContext) (Seq : InstructionSequence)
    (insts : list MCInst) (matched : nat) : bool + nat :=
  match insts with
  | [] => inr matched
  | Inst :: rest =>
      if (matched <? length Seq)%nat then
        match Seq !! matched with
        | Some SeqInst =>
            if negb (areInstructionsEqual Inst SeqInst) then inl false
            else
              let matched := S matched in
              if (matched =? length Seq)%nat && isConditionalBranch BC SeqInst
              then inl true
              else crossMatchBlock BC Seq rest matched
        | None => inr matched
        end
      else inr matched
  end.

(** [checkCrossBlockMatch]; [fuel] counts the blocks still allowed
    ([MAX_CROSS_BLOCKS] = 3).  The successor choice written out in the
    source at this point selects the same block as [getNextBasicBlock]. *)
Fixpoint checkCrossBlockMatch (BC : BinaryContext) (BF : BinaryFunction)
    (Seq : InstructionSequence) (fuel : nat) (CurrentBB currentIdx matched : nat)
    : bool :=
  match fuel with
  | O => (matched =? length Seq)%nat
  | S fuel' =>
      if negb (matched <? length Seq)%nat then (matched =? length Seq)%nat
      else
        match Blocks BF !! CurrentBB with
        | None => false
        | Some Cur =>
            if (bbSize Cur <=? currentIdx)%nat then false
            else
              match crossMatchBlock BC Seq (drop currentIdx (Instructions Cur)) matched with
              | inl r => r
              | inr matched' =>
                  (* the block was walked to its end or the window is complete *)
                  if (matched' <? length Seq)%nat then
                    match getNextBasicBlock BC BF CurrentBB with
                    | None => false
                    | Some NextBB =>
                        checkCrossBlockMatch BC BF Seq fuel' NextBB 0 matched'
                    end
                  else (matched' =? length Seq)%nat
              end
        end
  end.

Definition blockLocations (BC : BinaryContext) (BF : BinaryFunction)
    (Seq : InstructionSequence) (b : nat) (BB : BinaryBasicBlock)
    : list SequenceLocation :=
  let SeqLen := length Seq in
  (if (SeqLen <=? bbSize BB)%nat then
     (fun i => mkLoc b i)
       <$> filter (fun i => matchesAt (Instructions BB) Seq i = true)
                  (seq 0 (S (bbSize BB - SeqLen)))
   else [])
  ++
  (if (0 <? bbSize BB)%nat && (bbSize BB <? SeqLen)%nat then
     (fun i => mkLoc b i)
       <$> filter (fun i => checkCrossBlockMatch BC BF Seq 3 b i 0 = true)
                  (seq 0 (bbSize BB))
   else []).

Definition findSequenceLocations (BC : BinaryContext) (BF : BinaryFunction)
    (Seq : InstructionSequence) : list SequenceLocation :=
  match Seq with
  | [] => []
  | _ => concat (imap (blockLocations BC BF Seq) (Blocks BF))
  end.

(** ** Call-site rewriter *)

(** [size_t] subtraction, modulo 2^64. *)
Definition size_sub (a b : N) : N := ((a + 2 ^ 64 - b mod 2 ^ 64) mod 2 ^ 64)%N.

Definition size_min (a b : N) : nat := N.to_nat (N.min a b).

(** [BB->insertInstruction(BB->begin() + pos, x)] *)
Definition insertInstruction {A} (pos : nat) (x : A) (l : list A) : list A :=
  take pos l ++ x :: drop pos l.

(** [for (k = 0; k < count; ++k) if (pos < BB->size()) BB->eraseInstruction(begin + pos)] *)
Fixpoint eraseLoop {A} (count pos : nat) (l : list A) : list A :=
  match count with
  | O => l
  | S count' =>
      if (pos <? length l)%nat then eraseLoop count' pos (delete pos l) else l
  end.

Definition updateBlock (BF : BinaryFunction) (b : nat)
    (f : list MCInst -> list MCInst) : BinaryFunction :=
  match Blocks BF !! b with
  | Some BB => setBlocks BF (<[b := setInstructions BB (f (Instructions BB))]> (Blocks BF))
  | None => BF
  end.

Definition blockSizeAt (BF : BinaryFunction) (b : nat) : nat :=
  match Blocks BF !! b with Some BB => bbSize BB | None => O end.

(** The trampoline decision, the same expression in the cost model, in the
    choice of [NeedsSandwich] and in [replaceSequenceWithCall]:
    [IsRealLeaf || !SafeToCall]. *)
Definition IsRealLeaf (BC : BinaryContext) (CallerFunc : BinaryFunction) : bool :=
  isLeafFunction BC CallerFunc && negb (isInjected CallerFunc).

Definition SafeToCall (BC : BinaryContext) (CallerFunc : BinaryFunction)
    (Loc : SequenceLocation) : bool :=
  isLRSavedAtPoint BC CallerFunc (LocBB Loc) (StartIndex Loc).

Definition IsCallerLeaf (BC : BinaryContext) (CallerFunc : BinaryFunction)
    (Loc : SequenceLocation) : bool :=
  IsRealLeaf BC CallerFunc || negb (SafeToCall BC CallerFunc Loc).

(** The walk that collects [blockRanges]; [None] is an early [return] of
    [replaceSequenceWithCall]. *)
Fixpoint collectBlockRanges (BC : BinaryContext) (BF : BinaryFunction)
    (fuel : nat) (CurrentBB currentIdx : nat) (remaining : nat)
    : option (list (nat * nat)) :=
  match fuel with
  | O => if (0 <? remaining)%nat then None else Some []
  | S fuel' =>
      if (remaining =? 0)%nat then Some []
      else
        let availableInBB :=
          size_sub (N.of_nat (blockSizeAt BF CurrentBB)) (N.of_nat currentIdx) in
        let toRemove := size_min (N.of_nat remaining) availableInBB in
        let remaining := (remaining - toRemove)%nat in
        if (0 <? remaining)%nat
           && (blockSizeAt BF CurrentBB <=? currentIdx + toRemove)%nat then
          match getNextBasicBlock BC BF CurrentBB with
          | None => None
          | Some NextBB =>
              cons (CurrentBB, currentIdx)
                <$> collectBlockRanges BC BF fuel' NextBB 0 remaining
          end
        else if (0 <? remaining)%nat then None
        else Some [(CurrentBB, currentIdx)]
  end.

(** Erasure of the window's residue in the blocks after the first. *)
Definition cleanFollowingBlocks (BF : BinaryFunction) (SeqLen : nat)
    (ranges : list (nat * nat)) : BinaryFunction :=
  fold_left (fun BF '(BBToClean, cleanStartIdx) =>
               let toRemove :=
                 size_min (size_sub (N.of_nat (blockSizeAt BF BBToClean))
                                    (N.of_nat cleanStartIdx))
                          (N.of_nat SeqLen) in
               updateBlock BF BBToClean (eraseLoop toRemove cleanStartIdx))
            ranges BF.

(** Push + call + pop written over the instruction at [startIdx]. *)
Definition writeSandwich (BC : BinaryContext) (CallInst : MCInst) (startIdx : nat)
    (BB : list MCInst) : list MCInst :=
  let FP := getFramePointer BC in
  let LR := getLinkRegister BC in
  let PushInst := createPushRegisters BC FP LR in
  let PopInst := createPopRegisters BC FP LR in
  insertInstruction (startIdx + 2) PopInst
    (insertInstruction (startIdx + 1) CallInst (<[startIdx := PushInst]> BB)).

(** [replaceSequenceWithCall(BC, BF, Loc, OutlinedFunc)]; [SeqLen] is
    [Loc.Seq->size()] and [OutlinedFuncLabel] the symbol of the outlined
    function (its name). *)
Definition replaceSequenceWithCall (BC : BinaryContext) (Ctx : MCContext)
    (BF : BinaryFunction) (Loc : SequenceLocation) (SeqLen : nat)
    (OutlinedFuncLabel : string) : BinaryFunction * MCContext :=
  if (SeqLen =? 0)%nat then (BF, Ctx)
  else
    let b := LocBB Loc in
    let StartIdx := StartIndex Loc in
    let size := blockSizeAt BF b in
    let isCrossBlock := (size <? StartIdx + SeqLen)%nat in
    if negb isCrossBlock && ((size <=? StartIdx)%nat || (size <? StartIdx + SeqLen)%nat)
    then (BF, Ctx)
    else if isCrossBlock && (size <=? StartIdx)%nat then (BF, Ctx)
    else if negb (isAArch64 BC) then (BF, Ctx)
    else
      let '(e, Ctx) := createSymbolRefExpr Ctx OutlinedFuncLabel in
      let CallInst := createCall BC e in
      let sandwich := IsCallerLeaf BC BF Loc in
      if isCrossBlock then
        match collectBlockRanges BC BF 3 b StartIdx SeqLen with
        | None => (BF, Ctx)
        | Some [] => (BF, Ctx)
        | Some ((StartBB, startIdx) :: following) =>
            if sandwich then
              let BF1 := updateBlock BF StartBB (writeSandwich BC CallInst startIdx) in
              let startBBRemaining :=
                size_sub (size_sub (N.of_nat (blockSizeAt BF1 StartBB))
                                   (N.of_nat startIdx)) 3 in
              let startBBToRemove :=
                size_min startBBRemaining (size_sub (N.of_nat SeqLen) 3) in
              let BF2 := updateBlock BF1 StartBB (eraseLoop startBBToRemove (startIdx + 3)) in
              (cleanFollowingBlocks BF2 SeqLen following, Ctx)
            else
              let BF1 := updateBlock BF StartBB (<[startIdx := CallInst]>) in
              let startBBRemaining :=
                size_sub (size_sub (N.of_nat (blockSizeAt BF1 StartBB))
                                   (N.of_nat startIdx)) 1 in
              let startBBToRemove :=
                size_min startBBRemaining (size_sub (N.of_nat SeqLen) 1) in
              let BF2 := updateBlock BF1 StartBB (eraseLoop startBBToRemove (startIdx + 1)) in
              (cleanFollowingBlocks BF2 SeqLen following, Ctx)
        end
      else if sandwich then
        (updateBlock BF b (fun BB =>
           eraseLoop (SeqLen - 1) (StartIdx + 3) (writeSandwich BC CallInst StartIdx BB)),
         Ctx)
      else
        (updateBlock BF b (fun BB =>
           eraseLoop (SeqLen - 1) (StartIdx + 1) (<[StartIdx := CallInst]> BB)),
         Ctx).

(** ** Post-passes over the outlined functions *)

(** [funcShrinking]: when every call of the function is a tail call, drop a
    leading instruction with opcode 1696 and an instruction with opcode 1697
    right before the first return, in every block. *)
Definition shrinkBlock (BC : BinaryContext) (BB : list MCInst) : list MCInst :=
  let BB1 :=
    match BB with
    | First :: rest => if getOpcode First =? 1696 then rest else BB
    | [] => BB
    end in
  match firstIndex (MIB_isReturn BC) BB1 with
  | Some (S p) =>
      match BB1 !! p with
      | Some PrevInst => if getOpcode PrevInst =? 1697 then delete p BB1 else BB1
      | None => BB1
      end
  | _ => BB1
  end.

Definition funcShrinking (BC : BinaryContext) (outlinedFunc : BinaryFunction)
    : BinaryFunction :=
  if bfEmpty outlinedFunc then outlinedFunc
  else if negb (isAArch64 BC) then outlinedFunc
  else
    (* !HasCalls || HasOnlyTailCalls *)
    if forallb (fun Inst => negb (MIB_isCall BC Inst) || MIB_isTailCall BC Inst)
               (allInstructions (Blocks outlinedFunc))
    then setBlocks outlinedFunc
           ((fun BB => setInstructions BB (shrinkBlock BC (Instructions BB)))
              <$> Blocks outlinedFunc)
    else outlinedFunc.

(** [isPureCallSequence]: the scan stops at the first instruction that is
    neither push/pop/return, nor a call, nor an add/sub that defines SP. *)
Definition isStackAdjust (BC : BinaryContext) (Inst : MCInst) : bool :=
  let InstNameLower := lower (getOpcodeName BC (getOpcode Inst)) in
  (find_at_0 InstNameLower "add" || find_at_0 InstNameLower "sub")
  && contains InstNameLower "sp"
  && existsb (isRegEq (getStackPointer BC))
             (take (getNumDefs BC (getOpcode Inst)) (Operands Inst)).

Fixpoint pureCallScan (BC : BinaryContext) (insts : list MCInst) (hasCall : bool)
    : bool * bool :=
  match insts with
  | [] => (hasCall, false)
  | Inst :: rest =>
      if MIB_isPush BC Inst || MIB_isPop BC Inst || MIB_isReturn BC Inst
      then pureCallScan BC rest hasCall
      else if MIB_isCall BC Inst then pureCallScan BC rest true
      else if isStackAdjust BC Inst then pureCallScan BC rest hasCall
      else (hasCall, true)
  end.

Definition isPureCallSequence (BC : BinaryContext) (BF : BinaryFunction) : bool :=
  if bfEmpty BF then false
  else
    let '(hasCall, hasNonCallNonStackInst) :=
      pureCallScan BC (allInstructions (Blocks BF)) false in
    hasCall && negb hasNonCallNonStackInst.

Definition isDirectCall (BC : BinaryContext) (Inst : MCInst) : bool :=
  MIB_isCall BC Inst && negb (MIB_isIndirectCall BC Inst).

(** The targets collected in [calledFunctions]. *)
Definition calledFunctions (BC : BinaryContext) (BF : BinaryFunction) : list string :=
  omap (fun Inst => if isDirectCall BC Inst then callTargetSymbol (Operands Inst)
                    else None)
       (allInstructions (Blocks BF)).

(** [SRE && &SRE->getSymbol() == OutlinedFuncSymbol] for some expression
    operand, scanning as the source does: the first symbol reference
    that matches ends the scan. *)
Definition callsSymbol (BC : BinaryContext) (Sym : string) (Inst : MCInst) : bool :=
  isDirectCall BC Inst
  && existsb (fun Op => match Op with
                        | Expr e => bool_decide (ExprSymbol e = Some Sym)
                        | _ => false
                        end) (Operands Inst).

(** ** Cost model *)

(** [bbExecFreq] of one location. *)
Definition bbExecFreq (P : PostLinkOutlining) (BF : BinaryFunction)
    (Loc : SequenceLocation) : Z :=
  match Blocks BF !! LocBB Loc with
  | Some BB =>
      if EnablePGO P && hasProfile BB then
        if getKnownExecutionCount BB =? 0 then 1 else getKnownExecutionCount BB
      else 1
  | None => 1
  end.

(** Purity of the body-to-be, as the loop over [seqs[i]] decides it. *)
Definition isOutlinedFuncPure (BC : BinaryContext) (seq : InstructionSequence) : bool :=
  forallb (fun Inst =>
             negb (isConditionalBranch BC Inst)
             && negb (isLoadStore BC Inst
                      && existsb (isRegEq (getStackPointer BC)) (Operands Inst))
             && negb (MIB_isCall BC Inst)
             && negb (readsFP BC Inst))
          seq.

Definition InstSizeBytes : Z := 4.
Definition CallInstSize : Z := 4.
Definition SandwichCallSize : Z := 12.
Definition PrologueSize : Z := 4.
Definition EpilogueSize : Z := 4.
Definition RetSize : Z := 4.

(** The quantities of the benefit analysis.  [sandwichCallCount],
    [normalCallCount] and the byte counts are [int]; the frequencies are
    [uint64_t]. *)
Record CostModel := mkCost {
  sandwichCallCount : Z;
  normalCallCount : Z;
  weightedFrequency : Z;
  outlinedFuncSize : Z;
  totalCallCost : Z;
  savedBytes : Z;
  costBytes : Z;
  netBenefit : Z;
  MinBenefitThreshold : Z
}.

Definition costModel (P : PostLinkOutlining) (BC : BinaryContext)
    (BF : BinaryFunction) (len : Z) (seq : InstructionSequence)
    (locations : list SequenceLocation) : CostModel :=
  let sandwichCallCount :=
    fold_left (fun n Loc => if IsCallerLeaf BC BF Loc then wrap_i32 (n + 1) else n)
              locations 0 in
  let normalCallCount :=
    fold_left (fun n Loc => if IsCallerLeaf BC BF Loc then n else wrap_i32 (n + 1))
              locations 0 in
  let totalExecutionFrequency :=
    fold_left (fun t Loc => wrap_u64 (t + bbExecFreq P BF Loc)) locations 0 in
  let size := Z.of_nat (length locations) in
  let weightedFrequency := if EnablePGO P then totalExecutionFrequency else size in
  let pure := isOutlinedFuncPure BC seq in
  let outlinedFuncSize :=
    if pure then wrap_i32 (len * InstSizeBytes + RetSize)
    else wrap_i32 (PrologueSize + len * InstSizeBytes + EpilogueSize + RetSize) in
  let totalCallCost :=
    wrap_i32 (sandwichCallCount * SandwichCallSize + normalCallCount * CallInstSize) in
  let savedBytes := wrap_i32 (len * InstSizeBytes * wrap_i32 weightedFrequency) in
  let costBytes := wrap_i32 (outlinedFuncSize + totalCallCost) in
  let netBenefit := wrap_i32 (savedBytes - costBytes) in
  let freqForThreshold := if EnablePGO P then weightedFrequency else size in
  let avgFreq := freqForThreshold / (if 0 <? size then size else 1) in
  let MinBenefitThreshold :=
    if pure then
      if (3 <=? avgFreq) || (3 <=? size) then -4
      else if (2 <=? avgFreq) || (2 <=? size) then 0
      else 4
    else
      if (3 <=? avgFreq) || (3 <=? size) then 0
      else if (2 <=? avgFreq) || (2 <=? size) then 0
      else 0 in
  mkCost sandwichCallCount normalCallCount weightedFrequency outlinedFuncSize
         totalCallCost savedBytes costBytes netBenefit MinBenefitThreshold.

(** [if (netBenefit > MinBenefitThreshold)] *)
Definition admitted (c : CostModel) : bool := MinBenefitThreshold c <? netBenefit c.

(** ** Pass driver *)

(** Modelled from the spec: the host's Program.  [BinaryFunctions] is the
    function table the pass iterates ([BC.getBinaryFunctions()], in the
    host's deterministic order); functions created by the pass are
    registered with the host in [InjectedBinaryFunctions].  [ProgCtx] is the
    [MCContext], [OutlinedFunctionCount] the static counter of
    [createFunction]. *)
Record Program := mkProgram {
  BinaryFunctions : list BinaryFunction;
  InjectedBinaryFunctions : list BinaryFunction;
  ProgCtx : MCContext;
  OutlinedFunctionCount : nat
}.

(** The comparator handed to [std::sort]: by block, then by descending start
    index.  Blocks are compared by address in the source; the model takes
    the address order to be the layout order. *)
Definition locBefore (a b : SequenceLocation) : bool :=
  if negb (LocBB a =? LocBB b)%nat then (LocBB a <? LocBB b)%nat
  else (StartIndex b <? StartIndex a)%nat.

Fixpoint insertSorted (x : SequenceLocation) (l : list SequenceLocation)
    : list SequenceLocation :=
  match l with
  | [] => [x]
  | y :: rest => if locBefore x y then x :: l else y :: insertSorted x rest
  end.

Definition sortLocations (l : list SequenceLocation) : list SequenceLocation :=
  foldr insertSorted [] l.

(** State of the loop over the anchors of one function at one length. *)
Record SweepState := mkSweep {
  swProgram : Program;
  swLabeled : gset nat;
  swOutlined : list nat      (* outlinedFunctions, as indices of injected functions *)
}.

Definition setFunction (Prog : Program) (f : nat) (BF : BinaryFunction) : Program :=
  mkProgram (<[f := BF]> (BinaryFunctions Prog)) (InjectedBinaryFunctions Prog)
            (ProgCtx Prog) (OutlinedFunctionCount Prog).

Section Driver.
Variable std_hash_float : Z -> Z.
Variable P : PostLinkOutlining.
Variable BC : BinaryContext.

(** The rewrite of every located occurrence, in sorted order. *)
Definition replaceAll (Ctx : MCContext) (BF : BinaryFunction)
    (locations : list SequenceLocation) (SeqLen : nat) (Label : string)
    : BinaryFunction * MCContext :=
  fold_left (fun '(BF, Ctx) Loc => replaceSequenceWithCall BC Ctx BF Loc SeqLen Label)
            locations (BF, Ctx).

(** The body of [for (size_t i = 0; i < n; i++)] for function [f]. *)
Definition processAnchor (f : nat) (len : Z) (seqs : list InstructionSequence)
    (st : SweepState) (i : nat) : SweepState :=
  let Prog := swProgram st in
  match BinaryFunctions Prog !! f with
  | None => st
  | Some BF =>
      let gs := groupAnchor std_hash_float BC seqs (swLabeled st) i in
      let st := mkSweep Prog (LabeledSequences gs) (swOutlined st) in
      let seq_i := seqAt seqs i in
      let locations := findSequenceLocations BC BF seq_i in
      if (length locations =? 0)%nat then st
      else if Z.of_nat (length locations) <? Z.quot (Frequency gs) 2 then st
      else
        let c := costModel P BC BF len seq_i locations in
        if admitted c then
          match createFunction BC (ProgCtx Prog) (OutlinedFunctionCount Prog) seq_i with
          | (None, Ctx, Count) =>
              mkSweep (mkProgram (BinaryFunctions Prog) (InjectedBinaryFunctions Prog)
                                 Ctx Count)
                      (swLabeled st) (swOutlined st)
          | (Some outlinedFunc, Ctx, Count) =>
              let NeedsSandwich := existsb (IsCallerLeaf BC BF) locations in
              let '(outlinedFunc, Ctx) :=
                stackFrameManage BC Ctx outlinedFunc NeedsSandwich in
              let '(BF', Ctx) :=
                replaceAll Ctx BF (sortLocations locations) (length seq_i)
                           (getPrintName outlinedFunc) in
              let Prog' :=
                mkProgram (<[f := BF']> (BinaryFunctions Prog))
                          (InjectedBinaryFunctions Prog ++ [outlinedFunc])
                          Ctx Count in
              mkSweep Prog' (swLabeled st)
                      (swOutlined st ++ [length (InjectedBinaryFunctions Prog)])
          end
        else st
  end.

(** One function at one length: the body of the inner loop of
    [runOnFunctions]. *)
Definition processFunction (len : Z) (st : SweepState) (f : nat) : SweepState :=
  match BinaryFunctions (swProgram st) !! f with
  | None => st
  | Some BF =>
      if bfEmpty BF || negb (shouldOptimize BF) then st
      else
        let st := mkSweep (swProgram st) ∅ (swOutlined st) in
        let seqs := getAllseqs P BC BF len in
        fold_left (processAnchor f len seqs) (seq 0 (length seqs)) st
  end.

Definition sweepLength (st : SweepState) (len : Z) : SweepState :=
  fold_left (processFunction len)
            (seq 0 (length (BinaryFunctions (swProgram st)))) st.

(** [InHotFuncs], as precomputed at the start of [runOnFunctions]. *)
Definition isHotFunction (BF : BinaryFunction) : bool :=
  negb (bfEmpty BF || negb (shouldOptimize BF))
  && fnHasProfile BF && (1 <? fnKnownExecutionCount BF).

Definition isHotAt (Prog : Program) (f : nat) : bool :=
  match BinaryFunctions Prog !! f with
  | Some BF => isHotFunction BF
  | None => false
  end.

Definition InHotFuncs (Prog : Program) : gset nat :=
  if EnablePGO P then
    list_to_set (filter (fun f => isHotAt Prog f = true)
                        (seq 0 (length (BinaryFunctions Prog))))
  else ∅.

(** Lengths [LargestLength, LargestLength - 1, ..., minLength]. *)
Definition sweepLengths : list Z :=
  reverse (seqZ (PostLinkOutliningMinLength P)
                (LargestLength P - PostLinkOutliningMinLength P + 1)).
End Driver.

(** ** Intermediate simplifier *)

(** Rewrite of every call to [OutlinedFuncSymbol] in one instruction vector
    into a fresh call to [TargetFunc]. *)
Fixpoint redirectCalls (BC : BinaryContext) (Ctx : MCContext)
    (OutlinedFuncSymbol TargetFunc : string) (insts : list MCInst)
    : list MCInst * MCContext :=
  match insts with
  | [] => ([], Ctx)
  | Inst :: rest =>
      if callsSymbol BC OutlinedFuncSymbol Inst then
        let '(e, Ctx1) := createSymbolRefExpr Ctx TargetFunc in
        let '(rest', Ctx2) := redirectCalls BC Ctx1 OutlinedFuncSymbol TargetFunc rest in
        (createCall BC e :: rest', Ctx2)
      else
        let '(rest', Ctx1) := redirectCalls BC Ctx OutlinedFuncSymbol TargetFunc rest in
        (Inst :: rest', Ctx1)
  end.

Fixpoint redirectCallsBlocks (BC : BinaryContext) (Ctx : MCContext)
    (OutlinedFuncSymbol TargetFunc : string) (blocks : list BinaryBasicBlock)
    : list BinaryBasicBlock * MCContext :=
  match blocks with
  | [] => ([], Ctx)
  | BB :: rest =>
      let '(insts, Ctx1) :=
        redirectCalls BC Ctx OutlinedFuncSymbol TargetFunc (Instructions BB) in
      let '(rest', Ctx2) :=
        redirectCallsBlocks BC Ctx1 OutlinedFuncSymbol TargetFunc rest in
      (setInstructions BB insts :: rest', Ctx2)
  end.

Fixpoint redirectCallsFunctions (BC : BinaryContext) (Ctx : MCContext)
    (OutlinedFuncSymbol TargetFunc : string) (funcs : list BinaryFunction)
    : list BinaryFunction * MCContext :=
  match funcs with
  | [] => ([], Ctx)
  | BF :: rest =>
      let '(blocks, Ctx1) :=
        redirectCallsBlocks BC Ctx OutlinedFuncSymbol TargetFunc (Blocks BF) in
      let '(rest', Ctx2) :=
        redirectCallsFunctions BC Ctx1 OutlinedFuncSymbol TargetFunc rest in
      (setBlocks BF blocks :: rest', Ctx2)
  end.

Definition hasCallSite (BC : BinaryContext) (Sym : string)
    (funcs : list BinaryFunction) : bool :=
  existsb (fun BF => existsb (callsSymbol BC Sym) (allInstructions (Blocks BF))) funcs.

Definition setIgnored (BF : BinaryFunction) : BinaryFunction :=
  mkBF (getPrintName BF) (Blocks BF) (isInjected BF) (fnHasProfile BF)
       (fnKnownExecutionCount BF) (hasEHRanges BF) (shouldOptimize BF) true.

(** One outlined function of the first loop of
    [removeRedundantIntermediateFunctions]; the second component collects
    [functionsToRemove]. *)
Definition simplifyOne (BC : BinaryContext) (st : Program * list nat) (o : nat)
    : Program * list nat :=
  let '(Prog, functionsToRemove) := st in
  match InjectedBinaryFunctions Prog !! o with
  | None => st
  | Some outlinedFunc =>
      if bfEmpty outlinedFunc then st
      else if negb (find_at_0 (getPrintName outlinedFunc) "PLO_outlined_")
              && negb (isInjected outlinedFunc) then st
      else if negb (isPureCallSequence BC outlinedFunc) then st
      else
        match calledFunctions BC outlinedFunc with
        | [] => st
        | called =>
            let OutlinedFuncSymbol := getPrintName outlinedFunc in
            if negb (hasCallSite BC OutlinedFuncSymbol (BinaryFunctions Prog)) then st
            else
              match called with
              | [TargetFunc] =>
                  let '(funcs, Ctx) :=
                    redirectCallsFunctions BC (ProgCtx Prog) OutlinedFuncSymbol
                                           TargetFunc (BinaryFunctions Prog) in
                  (mkProgram funcs (InjectedBinaryFunctions Prog) Ctx
                             (OutlinedFunctionCount Prog),
                   functionsToRemove ++ [o])
              | _ => st
              end
        end
  end.

Definition removeRedundantIntermediateFunctions (BC : BinaryContext)
    (Prog : Program) (outlinedFunctions : list nat) : Program * list nat :=
  let '(Prog, functionsToRemove) :=
    fold_left (simplifyOne BC) outlinedFunctions (Prog, []) in
  let injected :=
    imap (fun o BF => if bool_decide (o ∈ functionsToRemove) then setIgnored BF else BF)
         (InjectedBinaryFunctions Prog) in
  (mkProgram (BinaryFunctions Prog) injected (ProgCtx Prog) (OutlinedFunctionCount Prog),
   filter (fun o => o ∉ functionsToRemove) outlinedFunctions).

(** ** [runOnFunctions] *)

(** The result of the pass: [Error::success()] is the only value the source
    returns. *)
Inductive Error := ErrorSuccess | ErrorFailure.

Definition shrinkOutlined (BC : BinaryContext) (Prog : Program)
    (outlinedFunctions : list nat) : Program :=
  mkProgram (BinaryFunctions Prog)
            (imap (fun o BF => if bool_decide (o ∈ outlinedFunctions)
                               then funcShrinking BC BF else BF)
                  (InjectedBinaryFunctions Prog))
            (ProgCtx Prog) (OutlinedFunctionCount Prog).

Definition runOnFunctions (std_hash_float : Z -> Z) (P : PostLinkOutlining)
    (BC : BinaryContext) (Prog : Program) : Error * Program :=
  (* precomputed, and not read again by any statement of the source *)
  let InHotFuncs := InHotFuncs P Prog in
  let st :=
    fold_left (sweepLength std_hash_float P BC) (sweepLengths P)
              (mkSweep Prog ∅ []) in
  let Prog1 := shrinkOutlined BC (swProgram st) (swOutlined st) in
  let '(Prog2, _) := removeRedundantIntermediateFunctions BC Prog1 (swOutlined st) in
  (ErrorSuccess, Prog2).

(** ** A small AArch64-like host for closed examples

    Registers x0..x28 are 0..28, FP is 29, LR is 30, SP is 31.  Opcode
    numbers are arbitrary except 1696/1697, the two [funcShrinking] names. *)
Module Demo.

Definition MOVZXi : Z := 1.
Definition ADDXrr : Z := 2.
Definition LDRXui : Z := 3.
Definition STRXui : Z := 4.
Definition BL : Z := 5.
Definition RET : Z := 6.
Definition Bcc : Z := 7.
Definition B : Z := 8.
Definition BLR : Z := 9.
Definition LSLXri : Z := 10.
Definition ADDXspi : Z := 11.
Definition LDPXi : Z := 12.
Definition LDRWui : Z := 13.
Definition EORXrr : Z := 14.
Definition SUBXrr : Z := 15.
Definition PRFMui : Z := 16.
Definition STPXpre : Z := 1696.
Definition LDPXpost : Z := 1697.

Definition opcodeName (op : Z) : string :=
  if op =? MOVZXi then "MOVZXi" else if op =? ADDXrr then "ADDXrr"
  else if op =? LDRXui then "LDRXui" else if op =? STRXui then "STRXui"
  else if op =? BL then "BL" else if op =? RET then "RET"
  else if op =? Bcc then "Bcc" else if op =? B then "B"
  else if op =? BLR then "BLR" else if op =? LSLXri then "LSLXri"
  else if op =? ADDXspi then "ADDXspi" else if op =? LDPXi then "LDPXi"
  else if op =? LDRWui then "LDRWui" else if op =? EORXrr then "EORXrr"
  else if op =? SUBXrr then "SUBXrr" else if op =? PRFMui then "PRFMui"
  else if op =? STPXpre then "STPXpre"
  else if op =? LDPXpost then "LDPXpost" else "UNKNOWN".

Definition opIs (op : Z) (I : MCInst) : bool := getOpcode I =? op.

Definition regNames : list string :=
  ((fun n => "x" +:+ pretty n) <$> seq 0 31) ++ ["sp"].

Definition loads (op : Z) : bool :=
  (op =? LDRXui) || (op =? LDPXi) || (op =? LDRWui) || (op =? LDPXpost)
  || (op =? PRFMui).
Definition stores (op : Z) : bool := (op =? STRXui) || (op =? STPXpre).

Definition numDefs (op : Z) : nat :=
  if (op =? STRXui) || (op =? BL) || (op =? RET) || (op =? Bcc) || (op =? B)
     || (op =? BLR) || (op =? PRFMui) then 0%nat
  else if op =? LDPXi then 2%nat
  else if (op =? STPXpre) then 1%nat
  else if (op =? LDPXpost) then 3%nat
  else 1%nat.

(** [stp r1, r2, [sp, #-16]!] and [ldp r1, r2, [sp], #16]. *)
Definition pushRegisters (r1 r2 : Z) : MCInst :=
  mkInst STPXpre [Reg 31; Reg r1; Reg r2; Reg 31; Imm (-2)].
Definition popRegisters (r1 r2 : Z) : MCInst :=
  mkInst LDPXpost [Reg 31; Reg r1; Reg r2; Reg 31; Imm 2].

Definition host (aarch64 : bool) : BinaryContext :=
  {| isAArch64 := aarch64;
     MIA_isReturn := opIs RET;
     MIA_isCall := fun I => opIs BL I || opIs BLR I;
     MIA_isBranch := fun I => opIs Bcc I || opIs B I;
     MIA_isTerminator := fun I => opIs RET I || opIs Bcc I || opIs B I;
     MIB_isPseudo := fun _ => false;
     MIB_isCFI := fun _ => false;
     MIB_isReturn := opIs RET;
     MIB_isCall := fun I => opIs BL I || opIs BLR I;
     MIB_isIndirectCall := opIs BLR;
     MIB_isTailCall := fun _ => false;
     MIB_isUnconditionalBranch := opIs B;
     MIB_isPush := opIs STPXpre;
     MIB_isPop := opIs LDPXpost;
     mayLoad := loads;
     mayStore := stores;
     getNumDefs := numDefs;
     getOpcodeName := opcodeName;
     RegNames := regNames;
     isSubRegisterEq := Z.eqb;
     getStackPointer := 31;
     getFramePointer := 29;
     createPushRegisters := pushRegisters;
     createPopRegisters := popRegisters;
     createCall := fun e => mkInst BL [Expr e];
     createUncondBranch := fun e => mkInst B [Expr e];
     createReturn := mkInst RET [] |}.

Definition AArch64 : BinaryContext := host true.
Definition OtherArch : BinaryContext := host false.

Definition std_hash_float (bits : Z) : Z := bits.

Definition ctx0 : MCContext := mkCtx 1000 0.

Definition mov (rd imm : Z) : MCInst := mkInst MOVZXi [Reg rd; Imm imm].
Definition add (rd rn rm : Z) : MCInst := mkInst ADDXrr [Reg rd; Reg rn; Reg rm].
Definition sub (rd rn rm : Z) : MCInst := mkInst SUBXrr [Reg rd; Reg rn; Reg rm].
Definition eor (rd rn rm : Z) : MCInst := mkInst EORXrr [Reg rd; Reg rn; Reg rm].
Definition ldr (rt rn imm : Z) : MCInst := mkInst LDRXui [Reg rt; Reg rn; Imm imm].
Definition str (rt rn imm : Z) : MCInst := mkInst STRXui [Reg rt; Reg rn; Imm imm].
Definition lsl (rd rn sh : Z) : MCInst := mkInst LSLXri [Reg rd; Reg rn; Imm sh].
Definition ret : MCInst := mkInst RET [].
Definition bl (addr : Z) (sym : string) : MCInst :=
  mkInst BL [Expr (mkExpr addr (Some sym))].
Definition blr (rn : Z) : MCInst := mkInst BLR [Reg rn].
Definition bcc (cond addr : Z) (sym : string) : MCInst :=
  mkInst Bcc [Imm cond; Expr (mkExpr addr (Some sym))].

Definition b (addr : Z) (sym : string) : MCInst :=
  mkInst B [Expr (mkExpr addr (Some sym))].

(** A five-instruction window and a block holding three copies of it,
    separated by instructions that occur once. *)
Definition window5 : InstructionSequence :=
  [mov 1 1; mov 2 2; add 3 1 2; eor 4 3 1; sub 5 4 2].

Definition threeCopies : list MCInst :=
  window5 ++ [mov 9 100] ++ window5 ++ [mov 9 200] ++ window5.

(** Default options: lengths 32 down to 2, no profile filtering. *)
Definition defaultPass : PostLinkOutlining := mkPass 32 false 2.
Definition pgoPass : PostLinkOutlining := mkPass 32 true 2.

(** A leaf function without profile: one block, three copies, a return. *)
Definition leafFunction : BinaryFunction :=
  mkBF "leaf" [mkBB (threeCopies ++ [ret]) [] false 0]
       false false 0 false true false.

Definition leafProgram : Program := mkProgram [leafFunction] [] ctx0 0.

(** A function with profile and execution count 100.  Its entry and exit
    blocks ran 100 times; the block in between never ran and holds the
    three copies. *)
Definition hotFunction : BinaryFunction :=
  mkBF "hot"
       [mkBB [pushRegisters 29 30; bl 7 "foo"; bcc 0 8 "exit"] [2%nat; 1%nat] true 100;
        mkBB (threeCopies ++ [b 9 "exit"]) [2%nat] true 0;
        mkBB [popRegisters 29 30; ret] [] true 100]
       false true 100 false true false.

Definition hotProgram : Program := mkProgram [hotFunction] [] ctx0 0.

End Demo.

(** ** Specification-side definitions used by the properties *)

(** Renaming of the registers of a window by [rho]. *)
Definition renameOperand (rho : Z -> Z) (Op : MCOperand) : MCOperand :=
  match Op with Reg r => Reg (rho r) | _ => Op end.

Definition renameInst (rho : Z -> Z) (Inst : MCInst) : MCInst :=
  mkInst (getOpcode Inst) (renameOperand rho <$> Operands Inst).

Definition renameSeq (rho : Z -> Z) (W : InstructionSequence) : InstructionSequence :=
  renameInst rho <$> W.

(** The fingerprint in the spec's words: FNV-1a over the stream (opcode,
    operand codes ...); a register in {SP, FP, LR} is coded by its raw id,
    any other register by 1000 + k where k is its rank among the registers
    seen so far in this window, in order of first sight (a 64-bit id). *)
Fixpoint firstSight (r : Z) (seen : list Z) : option nat :=
  match seen with
  | [] => None
  | x :: rest => if x =? r then Some O else S <$> firstSight r rest
  end.

Definition spec_registerCode (seen : list Z) (r : Z) : Z * list Z :=
  if isSpecialReg r then (r, seen)
  else match firstSight r seen with
       | Some k => (wrap_u64 (1000 + Z.of_nat k), seen)
       | None => (wrap_u64 (1000 + Z.of_nat (length seen)), seen ++ [r])
       end.

Definition spec_operandCode (std_hash_float : Z -> Z) (seen : list Z)
    (Op : MCOperand) : Z * list Z :=
  match Op with
  | Reg r => spec_registerCode seen r
  | Imm i => (wrap_u64 i, seen)
  | Expr _ => (3735928559, seen)
  | SFPImm bits => (wrap_u64 (std_hash_float bits), seen)
  end.

Fixpoint spec_operandCodes (std_hash_float : Z -> Z) (seen : list Z)
    (ops : list MCOperand) : list Z * list Z :=
  match ops with
  | [] => ([], seen)
  | Op :: rest =>
      let '(c, seen1) := spec_operandCode std_hash_float seen Op in
      let '(cs, seen2) := spec_operandCodes std_hash_float seen1 rest in
      (c :: cs, seen2)
  end.

Fixpoint spec_stream (std_hash_float : Z -> Z) (seen : list Z)
    (W : InstructionSequence) : list Z :=
  match W with
  | [] => []
  | Inst :: rest =>
      let '(cs, seen1) := spec_operandCodes std_hash_float seen (Operands Inst) in
      wrap_u64 (getOpcode Inst) :: cs ++ spec_stream std_hash_float seen1 rest
  end.

Definition spec_hash (std_hash_float : Z -> Z) (W : InstructionSequence) : Z :=
  fold_left fnv_step (spec_stream std_hash_float [] W) FNV_offset_basis.

(** The cost model in the spec's words. *)
Definition spec_bodySize (pure : bool) (L : Z) : Z :=
  if pure then 4 * L + 4 else 4 * L + 4 + 4 + 4.

Definition spec_threshold (pure : bool) (avgFreq occurrences : Z) : Z :=
  if pure then
    if bool_decide (3 <= avgFreq \/ 3 <= occurrences) then -4
    else if bool_decide (2 <= avgFreq \/ 2 <= occurrences) then 0
    else 4
  else 0.

Fixpoint sumZ (l : list Z) : Z :=
  match l with [] => 0 | x :: rest => x + sumZ rest end.

(** F: the sum of the occurrences' block counts (each at least 1) under
    profile filtering, the number of occurrences otherwise. *)
Definition spec_weightedFrequency (P : PostLinkOutlining) (BF : BinaryFunction)
    (locations : list SequenceLocation) : Z :=
  if EnablePGO P then sumZ (bbExecFreq P BF <$> locations)
  else Z.of_nat (length locations).

Definition sandwichOccurrences (BC : BinaryContext) (BF : BinaryFunction)
    (locations : list SequenceLocation) : Z :=
  Z.of_nat (length (filter (fun Loc => IsCallerLeaf BC BF Loc = true) locations)).

Definition bareOccurrences (BC : BinaryContext) (BF : BinaryFunction)
    (locations : list SequenceLocation) : Z :=
  Z.of_nat (length (filter (fun Loc => IsCallerLeaf BC BF Loc = false) locations)).

(** The instructions of the entry block of a function. *)
Definition entryInstructions (BF : BinaryFunction) : list MCInst :=
  match Blocks BF with BB :: _ => Instructions BB | [] => [] end.

(** ** Auxiliary predicates and the cross-block extraction of [getAllseqs] *)

(** The test of the name loop of [getLinkRegister]. *)
Definition isLinkRegisterName (Name : string) : bool :=
  equals_insensitive Name "x30" || equals_insensitive Name "lr".

(** The test of the entry-block scan of [isLRSavedAtPoint]: a push or a
    store that names [LR] among its operands. *)
Definition savesLR (BC : BinaryContext) (LR : Z) (Inst : MCInst) : bool :=
  (MIB_isPush BC Inst || mayStore BC (getOpcode Inst))
  && existsb (isRegEq LR) (Operands Inst).



(** [Reg == R || BC.MRI->isSubRegisterEq(R, Reg)] *)
Definition namesRegister (BC : BinaryContext) (R r : Z) : bool :=
  (r =? R) || isSubRegisterEq BC R r.



(** ** The cross-block extraction written in [getAllseqs]

    The lambda [extractCrossBlockSequence] and the loop that calls it, as
    the source has them.  [crossCollect] is the inner loop over the rest of
    one block: [None] is a [return InstructionSequence()] of the lambda,
    otherwise the sequence, [currentIdx] and [collected] at loop exit. *)
Fixpoint crossCollect (BC : BinaryContext) (len : Z) (CurrentBB : list MCInst)
    (startIdx : nat) (insts : list MCInst) (currentIdx : nat)
    (collected remainingLen : Z) (seq : InstructionSequence)
    : option (InstructionSequence * nat * Z) :=
  match insts with
  | [] => Some (seq, currentIdx, collected)
  | Inst :: rest =>
      if collected <? remainingLen then
        let isLastInSeq := (collected =? remainingLen - 1) in
        if negb (shouldRejectInstruction BC Inst len true isLastInSeq CurrentBB
                   startIdx currentIdx =? 0)
        then None
        else
          let seq := seq ++ [Inst] in
          let collected := collected + 1 in
          let currentIdx := S currentIdx in
          if (MIB_isCall BC Inst || isConditionalBranch BC Inst) && isLastInSeq
          then Some (seq, currentIdx, collected)
          else crossCollect BC len CurrentBB startIdx rest currentIdx collected
                 remainingLen seq
      else Some (seq, currentIdx, collected)
  end.

(** The outer loop; [fuel] counts the blocks still allowed
    ([MAX_CROSS_BLOCKS] = 3). *)
Fixpoint crossBlocks (P : PostLinkOutlining) (BC : BinaryContext)
    (BF : BinaryFunction) (len : Z) (startIdx : nat) (fuel : nat)
    (CurrentBB currentIdx : nat) (collected remainingLen : Z)
    (seq : InstructionSequence) : option (InstructionSequence * Z) :=
  match fuel with
  | O => Some (seq, collected)
  | S fuel' =>
      if negb (collected <? remainingLen) then Some (seq, collected)
      else
        match Blocks BF !! CurrentBB with
        | None => Some (seq, collected)
        | Some Cur =>
            if (bbSize Cur =? 0)%nat || (bbSize Cur <=? currentIdx)%nat
            then Some (seq, collected)
            else if EnablePGO P && hasProfile Cur && (1 <? getKnownExecutionCount Cur)
            then Some (seq, collected)
            else
              match crossCollect BC len (Instructions Cur) startIdx
                      (drop currentIdx (Instructions Cur)) currentIdx collected
                      remainingLen seq with
              | None => None
              | Some (seq, currentIdx, collected) =>
                  if (collected <? remainingLen) && (bbSize Cur <=? currentIdx)%nat
                  then
                    match getNextBasicBlock BC BF CurrentBB with
                    | None => Some (seq, collected)
                    | Some NextBB =>
                        crossBlocks P BC BF len startIdx fuel' NextBB 0 collected
                          remainingLen seq
                    end
                  else Some (seq, collected)
              end
        end
  end.

Definition extractCrossBlockSequence (P : PostLinkOutlining) (BC : BinaryContext)
    (BF : BinaryFunction) (len : Z) (StartBB startIdx : nat) (remainingLen : Z)
    : InstructionSequence :=
  let startIsHot :=
    match Blocks BF !! StartBB with
    | Some Cur => EnablePGO P && hasProfile Cur && (1 <? getKnownExecutionCount Cur)
    | None => false
    end in
  if startIsHot then []
  else
    match crossBlocks P BC BF len startIdx 3 StartBB startIdx 0 remainingLen [] with
    | None => []
    | Some (seq, collected) => if collected <? remainingLen then [] else seq
    end.

(** The re-validation loop over [crossSeq]. *)
Fixpoint crossAccepted (BC : BinaryContext) (len : Z) (BB : list MCInst)
    (i : nat) (crossSeq : list MCInst) (instIdx size : nat) : bool :=
  match crossSeq with
  | [] => true
  | Inst :: rest =>
      if shouldRejectInstruction BC Inst len true (S instIdx =? size)%nat BB i
           (i + instIdx) =? 0
      then crossAccepted BC len BB i rest (S instIdx) size
      else false
  end.

(** The loop under [if (numInsts > 0 && numInsts < len_size)] for block [b]. *)
Definition crossWindows (P : PostLinkOutlining) (BC : BinaryContext)
    (BF : BinaryFunction) (len : Z) (b : nat) (BB : BinaryBasicBlock)
    : list InstructionSequence :=
  let len_size := Z.to_nat len in
  flat_map (fun i =>
              let crossSeq := extractCrossBlockSequence P BC BF len b i len in
              if negb (length crossSeq =? 0)%nat && (length crossSeq =? len_size)%nat
                 && crossAccepted BC len (Instructions BB) i crossSeq 0 (length crossSeq)
              then [crossSeq] else [])
           (seq 0 (bbSize BB)).

(** [getAllseqs] with every statement of the block loop, the cross-block
    part included. *)
Definition getAllseqs_full (P : PostLinkOutlining) (BC : BinaryContext)
    (BF : BinaryFunction) (len : Z) : list InstructionSequence :=
  if (len <? PostLinkOutliningMinLength P) || (LargestLength P <? len) then []
  else if hasEHRanges BF then []
  else
    concat (imap (fun b BB =>
      let numInsts := bbSize BB in
      if (numInsts =? 0)%nat then []
      else if EnablePGO P && hasProfile BB && (1 <? getKnownExecutionCount BB)
      then []
      else
        let len_size := Z.to_nat len in
        if (len <? 0) || (numInsts <? len_size)%nat then []
        else
          blockWindows BC len (Instructions BB) len_size 0 (S (numInsts - len_size))
          ++ (if (0 <? numInsts)%nat && (numInsts <? len_size)%nat
              then crossWindows P BC BF len b BB else []))
      (Blocks BF)).

(** [setLabel] and [isLabeled] on the set [LabeledSequences]; a window is
    named by its index in [seqs], [None] is the null pointer. *)
Definition setLabel (seq : option nat) (Labeled : gset nat) : gset nat :=
  match seq with
  | Some s => {[ s ]} ∪ Labeled
  | None => Labeled
  end.

Definition isLabeled (seq : option nat) (Labeled : gset nat) : bool :=
  match seq with
  | Some s => bool_decide (s ∈ Labeled)
  | None => false
  end.

(** A window with its expression operands replaced. *)
Definition replaceExpr (f : MCExpr -> MCExpr) (Op : MCOperand) : MCOperand :=
  match Op with Expr e => Expr (f e) | _ => Op end.

Definition replaceExprs (f : MCExpr -> MCExpr) (W : InstructionSequence)
    : InstructionSequence :=
  (fun Inst => mkInst (getOpcode Inst) (replaceExpr f <$> Operands Inst)) <$> W.

(** The invariant of the loop over [j] for anchor [i]. *)
Definition groupInv h BC (seqs : list InstructionSequence) (Labeled : gset nat)
    (i : nat) (st : GroupState) (tail : list nat) : Prop :=
  CurrentMatches st = i :: tail
  /\ Forall (fun j => (i < j < length seqs)%nat
               /\ isLabeled (Some j) Labeled = false
               /\ sequencesMatch h BC (seqAt seqs i) (seqAt seqs j) = true) tail
  /\ (forall a b, In a (i :: tail) -> In b (i :: tail) -> a <> b ->
        hasOverlappedInstrs (seqAt seqs a) (seqAt seqs b) = false)
  /\ LabeledSequences st = list_to_set (i :: tail) ∪ Labeled
  /\ Frequency st = wrap_i32 (Z.of_nat (length (i :: tail))).

(** The instructions the copy loop of [createFunction] keeps. *)
Definition copied (BC : BinaryContext) (seq : InstructionSequence) : list MCInst :=
  List.filter (fun Inst => negb (MIB_isCFI BC Inst || MIB_isPseudo BC Inst)) seq.

(** An operand and its copy in a redirected conditional branch. *)
Definition redirected (ReturnLabel : string) (Op Op' : MCOperand) : Prop :=
  match Op with
  | Expr _ => exists addr, Op' = Expr (mkExpr addr (Some ReturnLabel))
  | _ => Op' = Op
  end.

(** An instruction of the window and its copy in the outlined body. *)
Definition copyOf (BC : BinaryContext) (ReturnLabel : string)
    (Inst Inst' : MCInst) : Prop :=
  getOpcode Inst' = getOpcode Inst
  /\ if isConditionalBranch BC Inst
     then Forall2 (redirected ReturnLabel) (Operands Inst) (Operands Inst')
     else Inst' = Inst.

(** The name given to the [k]-th outlined function. *)
Definition outlinedName (k : nat) : string := "PLO_outlined_" +:+ pretty k.

(** What the purity test of [stackFrameManage] asks of one instruction: the
    displacement fixup leaves it alone, and it is no conditional branch, no
    call and reads no FP. *)
Definition pureInstruction (BC : BinaryContext) (IsCalledViaSandwich : bool)
    (Inst : MCInst) : bool :=
  negb (snd (fixInstruction BC IsCalledViaSandwich Inst))
  && negb (isConditionalBranch BC Inst)
  && negb (MIB_isCall BC Inst)
  && negb (readsFP BC Inst).

(** The flags of the purity scan are all down. *)
Definition cleanFlags (fl : PurityFlags) : bool :=
  negb (needsLR fl) && negb (usesFP fl) && negb (hasConditionalBranch fl).

(** An instruction that sets none of the flags of the purity scan. *)
Definition scanOk (BC : BinaryContext) (Inst : MCInst) : bool :=
  negb (isConditionalBranch BC Inst) && negb (MIB_isCall BC Inst)
  && negb (readsFP BC Inst).

(** The instructions the scan of [isPureCallSequence] steps over: push, pop,
    return, call, and an add/sub that defines SP. *)
Definition allowedInCallSequence (BC : BinaryContext) (Inst : MCInst) : bool :=
  MIB_isPush BC Inst || MIB_isPop BC Inst || MIB_isReturn BC Inst
  || MIB_isCall BC Inst || isStackAdjust BC Inst.

(** The instructions that set [hasCall]: a call that is not also classified
    push, pop or return. *)
Definition countsAsCall (BC : BinaryContext) (Inst : MCInst) : bool :=
  negb (MIB_isPush BC Inst || MIB_isPop BC Inst || MIB_isReturn BC Inst)
  && MIB_isCall BC Inst.



(** Two blocks, two functions that differ at most in their instructions. *)
Definition sameBlockShape (B B' : BinaryBasicBlock) : Prop :=
  Successors B = Successors B' /\ hasProfile B = hasProfile B'
  /\ getKnownExecutionCount B = getKnownExecutionCount B'.

Definition sameShape (F F' : BinaryFunction) : Prop :=
  getPrintName F = getPrintName F' /\ isInjected F = isInjected F'
  /\ fnHasProfile F = fnHasProfile F'
  /\ fnKnownExecutionCount F = fnKnownExecutionCount F'
  /\ hasEHRanges F = hasEHRanges F' /\ shouldOptimize F = shouldOptimize F'
  /\ isIgnored F = isIgnored F'
  /\ Forall2 sameBlockShape (Blocks F) (Blocks F').

(** An instruction and what the simplifier leaves in its place when calls to
    [OutlinedFuncSymbol] are redirected to [TargetFunc]. *)
Definition redirectedInst (BC : BinaryContext) (OutlinedFuncSymbol TargetFunc : string)
    (Inst Inst' : MCInst) : Prop :=
  if callsSymbol BC OutlinedFuncSymbol Inst
  then exists addr, Inst' = createCall BC (mkExpr addr (Some TargetFunc))
  else Inst' = Inst.

Definition redirectedBlock (BC : BinaryContext) (OutlinedFuncSymbol TargetFunc : string)
    (B B' : BinaryBasicBlock) : Prop :=
  sameBlockShape B B'
  /\ Forall2 (redirectedInst BC OutlinedFuncSymbol TargetFunc)
             (Instructions B) (Instructions B').

Definition redirectedFunction (BC : BinaryContext)
    (OutlinedFuncSymbol TargetFunc : string) (F F' : BinaryFunction) : Prop :=
  sameShape F F'
  /\ Forall2 (redirectedBlock BC OutlinedFuncSymbol TargetFunc) (Blocks F) (Blocks F').

(** A program as the pass may leave it: the function table in the same
    shape, the injected functions extended by the functions created, the
    counter advanced by their number. *)
Definition programGrows (Prog0 Prog : Program) : Prop :=
  Forall2 sameShape (BinaryFunctions Prog0) (BinaryFunctions Prog)
  /\ exists new,
       InjectedBinaryFunctions Prog = InjectedBinaryFunctions Prog0 ++ new
       /\ OutlinedFunctionCount Prog
          = (OutlinedFunctionCount Prog0 + length new)%nat.

(** The sweep state refers, in [swOutlined], to functions created since
    [Prog0] only. *)
Definition sweepInv (Prog0 : Program) (st : SweepState) : Prop :=
  programGrows Prog0 (swProgram st)
  /\ Forall (fun o => (length (InjectedBinaryFunctions Prog0) <= o
                       < length (InjectedBinaryFunctions (swProgram st)))%nat)
            (swOutlined st).

(** A function from which no window is ever extracted. *)
Definition neverScanned (BF : BinaryFunction) : bool :=
  bfEmpty BF || negb (shouldOptimize BF) || hasEHRanges BF.



(** A block written as a run [s0], then an occurrence and the run after it,
    and so on; [starts] lists the start indices of the occurrences. *)
Fixpoint interleave (s0 : list MCInst) (rest : list (list MCInst * list MCInst))
    : list MCInst :=
  match rest with
  | [] => s0
  | (W, s) :: rest' => s0 ++ W ++ interleave s rest'
  end.

Fixpoint starts (s0 : list MCInst) (rest : list (list MCInst * list MCInst))
    (offset : nat) : list nat :=
  match rest with
  | [] => []
  | (W, s) :: rest' =>
      (offset + length s0)%nat
        :: starts s rest' (offset + length s0 + length W)
  end.

(** What the rewriter writes in place of an occurrence: the call to the
    outlined function, bare or between push and pop of FP and LR. *)
Definition isTrampoline (BC : BinaryContext) (OutlinedFuncLabel : string)
    (T : list MCInst) : Prop :=
  exists addr,
    let CallInst := createCall BC (mkExpr addr (Some OutlinedFuncLabel)) in
    T = [CallInst]
    \/ T = [createPushRegisters BC (getFramePointer BC) (getLinkRegister BC);
            CallInst;
            createPopRegisters BC (getFramePointer BC) (getLinkRegister BC)].

(** ** Textual identity of instructions

    The reading of "byte-identical instruction (same opcode and operand
    values)": registers, immediates and floating-point immediates by value,
    an expression by the symbol it refers to, whichever object holds it. *)
Definition operandsSameText (Op1 Op2 : MCOperand) : bool :=
  match Op1, Op2 with
  | Reg r1, Reg r2 => r1 =? r2
  | Imm i1, Imm i2 => i1 =? i2
  | SFPImm f1, SFPImm f2 => f1 =? f2
  | Expr e1, Expr e2 => bool_decide (ExprSymbol e1 = ExprSymbol e2)
  | _, _ => false
  end.

Definition sameText (Inst1 Inst2 : MCInst) : bool :=
  (getOpcode Inst1 =? getOpcode Inst2)
  && (getNumOperands Inst1 =? getNumOperands Inst2)%nat
  && forallb2 operandsSameText (Operands Inst1) (Operands Inst2).

(** Expression operands at the same position are one and the same object. *)
Definition operandsSameObject (Op1 Op2 : MCOperand) : bool :=
  match Op1, Op2 with
  | Expr e1, Expr e2 => ExprAddr e1 =? ExprAddr e2
  | _, _ => true
  end.

Definition sameExprObjects (Inst1 Inst2 : MCInst) : bool :=
  forallb2 operandsSameObject (Operands Inst1) (Operands Inst2).

Module Cases.

(** A leaf function of two blocks, the first one without a return: one copy
    of the five-instruction window in the entry block, two copies in the
    block it falls through to. *)
Definition twoBlockLeaf : BinaryFunction :=
  mkBF "leaf2"
       [mkBB (Demo.window5 ++ [Demo.mov 9 300]) [1%nat] false 0;
        mkBB (Demo.window5 ++ [Demo.mov 9 100] ++ Demo.window5 ++ [Demo.ret])
             [] false 0]
       false false 0 false true false.

Definition twoBlockProgram : Program := mkProgram [twoBlockLeaf] [] Demo.ctx0 0.

(** [ldr rt, [rn, :lo12:sym]]: a load whose displacement is an expression. *)
Definition symLoad (rt rn addr : Z) (sym : string) : MCInst :=
  mkInst Demo.LDRXui [Reg rt; Reg rn; Expr (mkExpr addr (Some sym))].

(** The same two instructions written twice; each instruction holds an
    expression object of its own. *)
Definition copyA : InstructionSequence :=
  [symLoad 0 1 100 "table"; symLoad 2 0 101 "table"].
Definition copyB : InstructionSequence :=
  [symLoad 0 1 200 "table"; symLoad 2 0 201 "table"].

Definition copiesFunction : BinaryFunction :=
  mkBF "copies"
       [mkBB (copyA ++ [Demo.mov 9 100] ++ copyB ++ [Demo.ret]) [] false 0]
       false false 0 false true false.

End Cases.

(** * Properties *)

(** ** Overlap test and grouping *)

Lemma operandsEqual_refl (Op : MCOperand) : operandsEqual Op Op = true.
Proof. destruct Op; simpl; apply Z.eqb_refl. Qed.

Lemma allOperandsEqual_refl (ops : list MCOperand) : allOperandsEqual ops ops = true.
Proof.
  induction ops as [|Op ops IH]; simpl; [reflexivity|].
  rewrite operandsEqual_refl, IH. reflexivity.
Qed.

Lemma areInstructionsEqual_refl (Inst : MCInst) : areInstructionsEqual Inst Inst = true.
Proof.
  unfold areInstructionsEqual.
  rewrite Z.eqb_refl, Nat.eqb_refl. simpl. apply allOperandsEqual_refl.
Qed.

Lemma hasOverlappedInstrs_shared (seq1 seq2 : InstructionSequence) (Inst : MCInst) :
  In Inst seq1 -> In Inst seq2 -> hasOverlappedInstrs seq1 seq2 = true.
Proof.
  intros H1 H2. unfold hasOverlappedInstrs.
  apply existsb_exists. exists Inst. split; [exact H1|].
  apply existsb_exists. exists Inst. split; [exact H2|].
  apply areInstructionsEqual_refl.
Qed.

Lemma lookup_In {A} (l : list A) (k : nat) (x : A) : l !! k = Some x -> In x l.
Proof. intros H. apply list_elem_of_In. eapply list_elem_of_lookup_2, H. Qed.

(** Every window in [CurrentMatches] other than the anchor is free of
    overlap with the anchor. *)
Lemma groupStep_matches h BC seqs i st j :
  (forall k, In k (CurrentMatches st) ->
             k = i \/ hasOverlappedInstrs (seqAt seqs i) (seqAt seqs k) = false) ->
  forall k, In k (CurrentMatches (groupStep h BC seqs i st j)) ->
            k = i \/ hasOverlappedInstrs (seqAt seqs i) (seqAt seqs k) = false.
Proof.
  intros Hst k. unfold groupStep.
  destruct (hasOverlappedInstrs (seqAt seqs i) (seqAt seqs j)) eqn:Hov; [apply Hst|].
  destruct (sequencesMatch h BC (seqAt seqs i) (seqAt seqs j)
            && negb (bool_decide (j ∈ LabeledSequences st))); [|apply Hst].
  destruct (existsb _ (CurrentMatches st)); [apply Hst|].
  simpl. intros Hin. apply in_app_or in Hin as [Hin|[<-|[]]].
  - apply Hst, Hin.
  - right. exact Hov.
Qed.

Lemma groupFold_matches h BC seqs i js st :
  (forall k, In k (CurrentMatches st) ->
             k = i \/ hasOverlappedInstrs (seqAt seqs i) (seqAt seqs k) = false) ->
  forall k, In k (CurrentMatches (fold_left (groupStep h BC seqs i) js st)) ->
            k = i \/ hasOverlappedInstrs (seqAt seqs i) (seqAt seqs k) = false.
Proof.
  revert st. induction js as [|j js IH]; intros st Hst; simpl; [exact Hst|].
  apply IH. apply groupStep_matches, Hst.
Qed.

Lemma hasOverlappedInstrs_equal (seq1 seq2 : InstructionSequence)
    (Inst1 Inst2 : MCInst) :
  In Inst1 seq1 -> In Inst2 seq2 -> areInstructionsEqual Inst1 Inst2 = true ->
  hasOverlappedInstrs seq1 seq2 = true.
Proof.
  intros H1 H2 Heq. unfold hasOverlappedInstrs.
  apply existsb_exists. exists Inst1. split; [exact H1|].
  apply existsb_exists. exists Inst2. split; [exact H2|exact Heq].
Qed.

Lemma hasOverlappedInstrs_false (seq1 seq2 : InstructionSequence)
    (Inst1 Inst2 : MCInst) :
  hasOverlappedInstrs seq1 seq2 = false -> In Inst1 seq1 -> In Inst2 seq2 ->
  areInstructionsEqual Inst1 Inst2 = false.
Proof.
  intros Hov H1 H2. apply not_true_is_false. intros Heq.
  rewrite (hasOverlappedInstrs_equal seq1 seq2 Inst1 Inst2 H1 H2 Heq) in Hov.
  discriminate.
Qed.

(** On operands that read the same, the equality test of the pass comes
    down to the identity of the expression objects. *)
Lemma operandsEqual_sameText (Op1 Op2 : MCOperand) :
  operandsSameText Op1 Op2 = true ->
  operandsEqual Op1 Op2 = operandsSameObject Op1 Op2.
Proof.
  destruct Op1, Op2; unfold operandsEqual; simpl; intros H;
    try discriminate; try exact H; reflexivity.
Qed.

Lemma allOperandsEqual_sameText (ops1 ops2 : list MCOperand) :
  forallb2 operandsSameText ops1 ops2 = true ->
  allOperandsEqual ops1 ops2 = forallb2 operandsSameObject ops1 ops2.
Proof.
  revert ops2. induction ops1 as [|Op1 r1 IH]; intros [|Op2 r2]; simpl;
    try reflexivity.
  intros H. apply andb_true_iff in H as [H1 H2].
  rewrite (operandsEqual_sameText _ _ H1), (IH _ H2). reflexivity.
Qed.

Lemma areInstructionsEqual_sameText (Inst1 Inst2 : MCInst) :
  sameText Inst1 Inst2 = true ->
  areInstructionsEqual Inst1 Inst2 = sameExprObjects Inst1 Inst2.
Proof.
  unfold sameText, areInstructionsEqual, sameExprObjects. intros H.
  apply andb_true_iff in H as [H Hops]. apply andb_true_iff in H as [Hop Hn].
  rewrite Hop, Hn. simpl. apply allOperandsEqual_sameText, Hops.
Qed.

Lemma differing_object (ops1 ops2 : list MCOperand) :
  forallb2 operandsSameObject ops1 ops2 = false ->
  exists k e1 e2,
    ops1 !! k = Some (Expr e1) /\ ops2 !! k = Some (Expr e2)
    /\ ExprAddr e1 <> ExprAddr e2.
Proof.
  revert ops2. induction ops1 as [|Op1 r1 IH]; intros [|Op2 r2]; simpl;
    try discriminate.
  intros H. apply andb_false_iff in H as [H|H].
  - destruct Op1 as [| |e1|], Op2 as [| |e2|]; simpl in H; try discriminate.
    exists 0%nat, e1, e2. split; [reflexivity|]. split; [reflexivity|].
    apply Z.eqb_neq, H.
  - destruct (IH _ H) as (k & e1 & e2 & H1 & H2 & Hne).
    exists (S k), e1, e2. auto.
Qed.

Lemma sameExprObjects_no_expr (Inst1 Inst2 : MCInst) :
  existsb isExpr (Operands Inst1) = false -> sameExprObjects Inst1 Inst2 = true.
Proof.
  unfold sameExprObjects. generalize (Operands Inst2).
  induction (Operands Inst1) as [|Op1 r1 IH]; intros [|Op2 r2]; simpl;
    try reflexivity.
  intros H. apply orb_false_iff in H as [H1 H2].
  rewrite (IH r2 H2), andb_true_r. destruct Op1; try reflexivity. discriminate.
Qed.

(** C10 (amended).  Two windows that hold, at some pair of positions,
    instructions that read the same (same opcode, same operand values) and
    whose expression operands are the same objects (instructions without
    expression operands in particular) overlap; a non-empty window
    overlaps itself; and a later window [j] sharing such an instruction
    with the anchor [i] leaves the grouping state untouched: it is never
    added to [CurrentMatches] and [Frequency] is not incremented for it.
    A later window that is grouped differs from the anchor, in every pair
    of instructions that read the same, in an expression object. *)
Theorem overlap_blocks_grouping h BC (seqs : list InstructionSequence)
    (Labeled : gset nat) (i j p q : nat) (Inst1 Inst2 : MCInst) :
  (i < j)%nat ->
  seqAt seqs i !! p = Some Inst1 ->
  seqAt seqs j !! q = Some Inst2 ->
  sameText Inst1 Inst2 = true ->
  hasOverlappedInstrs (seqAt seqs i) (seqAt seqs i) = true
  /\ (sameExprObjects Inst1 Inst2 = true
      \/ existsb isExpr (Operands Inst1) = false ->
      hasOverlappedInstrs (seqAt seqs i) (seqAt seqs j) = true
      /\ (forall st, groupStep h BC seqs i st j = st)
      /\ ~ In j (CurrentMatches (groupAnchor h BC seqs Labeled i)))
  /\ (In j (CurrentMatches (groupAnchor h BC seqs Labeled i)) ->
      exists k e1 e2,
        Operands Inst1 !! k = Some (Expr e1)
        /\ Operands Inst2 !! k = Some (Expr e2)
        /\ ExprAddr e1 <> ExprAddr e2).
Proof.
  intros Hij Hp Hq Htext.
  assert (Hgrouped : In j (CurrentMatches (groupAnchor h BC seqs Labeled i)) ->
                     hasOverlappedInstrs (seqAt seqs i) (seqAt seqs j) = false).
  { intros Hin. unfold groupAnchor in Hin.
    apply groupFold_matches in Hin as [->|Hno].
    - lia.
    - exact Hno.
    - simpl. intros k [<-|[]]. left. reflexivity. }
  split.
  { eapply hasOverlappedInstrs_shared; eapply lookup_In; eassumption. }
  split.
  - intros Hobj'.
    assert (Hobj : sameExprObjects Inst1 Inst2 = true).
    { destruct Hobj' as [Hobj|Hnone]; [exact Hobj|].
      apply sameExprObjects_no_expr, Hnone. }
    assert (Hov : hasOverlappedInstrs (seqAt seqs i) (seqAt seqs j) = true).
    { apply (hasOverlappedInstrs_equal _ _ Inst1 Inst2).
      - eapply lookup_In, Hp.
      - eapply lookup_In, Hq.
      - rewrite (areInstructionsEqual_sameText _ _ Htext). exact Hobj. }
    split; [exact Hov|]. split.
    + intros st. unfold groupStep. rewrite Hov. reflexivity.
    + intros Hin. rewrite (Hgrouped Hin) in Hov. discriminate.
  - intros Hin. apply differing_object.
    fold (sameExprObjects Inst1 Inst2).
    rewrite <- (areInstructionsEqual_sameText _ _ Htext).
    apply (hasOverlappedInstrs_false (seqAt seqs i) (seqAt seqs j)).
    + apply Hgrouped, Hin.
    + eapply lookup_In, Hp.
    + eapply lookup_In, Hq.
Qed.

Lemma overlap_blocks_grouping_witness :
  let w := [Demo.mov 1 1; Demo.add 2 1 1] in
  let seqs := [w; [Demo.mov 3 7; Demo.add 4 3 3]; w] in
  hasOverlappedInstrs (seqAt seqs 0) (seqAt seqs 2) = true
  /\ (forall st, groupStep Demo.std_hash_float Demo.AArch64 seqs 0 st 2 = st)
  /\ ~ In 2%nat (CurrentMatches
                   (groupAnchor Demo.std_hash_float Demo.AArch64 seqs ∅ 0)).
Proof.
  intros w seqs.
  destruct (overlap_blocks_grouping Demo.std_hash_float Demo.AArch64 seqs ∅
              0 2 0 0 (Demo.mov 1 1) (Demo.mov 1 1)) as (_ & Hshared & _).
  - lia.
  - reflexivity.
  - reflexivity.
  - reflexivity.
  - apply Hshared. right. reflexivity.
Defined.

(** The claim as stated fails: a later window that is an exact textual copy
    of the anchor is not always treated as overlapping.  In the function
    below the windows 0 and 3 of length 2 read the same, instruction by
    instruction, but every instruction holds an expression object of its
    own; the overlap test is false on them, and the grouping loop adds
    window 3 to the anchor's matches and counts it. *)
Lemma textual_copy_is_grouped :
  let seqs := getAllseqs Demo.defaultPass Demo.AArch64 Cases.copiesFunction 2 in
  let gs := groupAnchor Demo.std_hash_float Demo.AArch64 seqs ∅ 0 in
  seqAt seqs 0 = Cases.copyA
  /\ seqAt seqs 3 = Cases.copyB
  /\ forallb2 sameText Cases.copyA Cases.copyB = true
  /\ hasOverlappedInstrs Cases.copyA Cases.copyB = false
  /\ CurrentMatches gs = [0%nat; 3%nat]
  /\ Frequency gs = 2.
Proof. vm_compute. repeat split; reflexivity. Qed.

(** ** The reject predicate on branches *)

(** The claim as stated fails: a conditional branch in last position is
    accepted although [allowBranch] is false. *)
Lemma cond_branch_accepted_without_permission :
  let br := Demo.bcc 0 500 "L" in
  isConditionalBranch Demo.AArch64 br = true
  /\ shouldRejectInstruction Demo.AArch64 br 2 false true [Demo.mov 1 1; br] 0 1 = 0.
Proof. vm_compute. split; reflexivity. Qed.

(** C2 (amended).  For a branch that the host does not also classify as a
    call: an unconditional branch is rejected at every position; a
    conditional branch is accepted only in last position; and in last
    position a conditional branch with a real encoding that is not a return
    is accepted, whatever [allowBranch] is: the argument does not enter
    the decision. *)
Theorem branch_rejection BC (Inst : MCInst) (len : Z)
    (allowBranch isLastInSeq : bool) (BB : list MCInst) (seqStartIdx instIdx : nat) :
  MIA_isBranch BC Inst = true ->
  MIB_isCall BC Inst = false ->
  let R := shouldRejectInstruction BC Inst len allowBranch isLastInSeq BB
             seqStartIdx instIdx in
  (MIB_isUnconditionalBranch BC Inst = true -> R <> 0)
  /\ (R = 0 -> isLastInSeq = true)
  /\ (MIB_isUnconditionalBranch BC Inst = false ->
      getOpcode Inst <> 0 -> MIB_isPseudo BC Inst = false ->
      MIB_isCFI BC Inst = false -> MIB_isReturn BC Inst = false ->
      isLastInSeq = true -> R = 0)
  /\ R = shouldRejectInstruction BC Inst len (negb allowBranch) isLastInSeq BB
           seqStartIdx instIdx.
Proof.
  intros Hbr Hcall R. subst R. unfold shouldRejectInstruction.
  rewrite Hbr, Hcall.
  destruct (getOpcode Inst =? 0) eqn:Hop; simpl.
  { repeat split; try discriminate. intros _ Hne. apply Z.eqb_eq in Hop. contradiction. }
  destruct (MIB_isPseudo BC Inst); simpl; [repeat split; discriminate|].
  destruct (MIB_isCFI BC Inst); simpl; [repeat split; discriminate|].
  destruct (MIB_isReturn BC Inst); simpl; [repeat split; discriminate|].
  destruct isLastInSeq; simpl.
  - destruct (MIB_isUnconditionalBranch BC Inst); repeat split; try discriminate;
      try reflexivity; intros; congruence.
  - repeat split; try discriminate.
Qed.

Lemma branch_rejection_witness :
  let br := Demo.bcc 0 500 "L" in
  let R := shouldRejectInstruction Demo.AArch64 br 2 false true [Demo.mov 1 1; br] 0 1 in
  (MIA_isBranch Demo.AArch64 br = true /\ MIB_isCall Demo.AArch64 br = false)
  /\ (MIB_isUnconditionalBranch Demo.AArch64 br = true -> R <> 0)
  /\ (R = 0 -> true = true)
  /\ (MIB_isUnconditionalBranch Demo.AArch64 br = false ->
      getOpcode br <> 0 -> MIB_isPseudo Demo.AArch64 br = false ->
      MIB_isCFI Demo.AArch64 br = false -> MIB_isReturn Demo.AArch64 br = false ->
      true = true -> R = 0)
  /\ R = shouldRejectInstruction Demo.AArch64 br 2 (negb false) true
           [Demo.mov 1 1; br] 0 1.
Proof.
  intros br R. split; [split; reflexivity|].
  apply (branch_rejection Demo.AArch64 br 2 false true [Demo.mov 1 1; br] 0 1);
    reflexivity.
Defined.

(** ** Fingerprint: renaming invariance and the normalized ids *)

Section Renaming.
Variable std_hash_float : Z -> Z.
Variable rho : Z -> Z.
Hypothesis rho_inj : forall r1 r2, rho r1 = rho r2 -> r1 = r2.
Hypothesis rho_SP : rho 31 = 31.
Hypothesis rho_FP : rho 29 = 29.
Hypothesis rho_LR : rho 30 = 30.

Lemma rho_eqb (r c : Z) : rho c = c -> (rho r =? c) = (r =? c).
Proof.
  intros Hc. destruct (Z.eqb_spec r c) as [->|Hne].
  - rewrite Hc. apply Z.eqb_refl.
  - apply Z.eqb_neq. intros H. apply Hne, rho_inj. congruence.
Qed.

(** The two hash states walk in step: same hash, same next id, and the map
    of the renamed window at [rho r] is the map of the window at [r]. *)
Definition renamed (st st' : HashState) : Prop :=
  hsHash st' = hsHash st /\ hsNextRegId st' = hsNextRegId st
  /\ forall r, hsRegMap st' !! rho r = hsRegMap st !! r.

Lemma hashOperand_renamed st st' Op :
  renamed st st' ->
  renamed (hashOperand std_hash_float st Op)
          (hashOperand std_hash_float st' (renameOperand rho Op)).
Proof.
  intros (Hh & Hn & Hm). destruct Op as [r| | |]; simpl;
    try (repeat split; simpl; congruence).
  unfold normalizeRegister.
  rewrite !rho_eqb by assumption.
  destruct ((r =? 31) || (r =? 29) || (r =? 30)) eqn:Hsp.
  { assert (Hr : rho r = r).
    { apply orb_true_iff in Hsp as [Hsp|Hsp];
        [apply orb_true_iff in Hsp as [Hsp|Hsp]|];
        apply Z.eqb_eq in Hsp; subst r; assumption. }
    rewrite Hr. repeat split; simpl; congruence. }
  rewrite Hm. destruct (hsRegMap st !! r) as [id|].
  { repeat split; simpl; congruence. }
  repeat split; simpl; try congruence.
  intros r0. destruct (decide (r = r0)) as [->|Hne].
  - rewrite !lookup_insert_eq. congruence.
  - rewrite !lookup_insert_ne; [apply Hm | exact Hne |].
    intros H. apply Hne, rho_inj, H.
Qed.

Lemma hashOperands_renamed ops st st' :
  renamed st st' ->
  renamed (fold_left (hashOperand std_hash_float) ops st)
          (fold_left (hashOperand std_hash_float) (renameOperand rho <$> ops) st').
Proof.
  revert st st'. induction ops as [|Op ops IH]; intros st st' H; simpl; [exact H|].
  apply IH, hashOperand_renamed, H.
Qed.

Lemma hashInst_renamed st st' Inst :
  renamed st st' ->
  renamed (hashInst std_hash_float st Inst)
          (hashInst std_hash_float st' (renameInst rho Inst)).
Proof.
  intros (Hh & Hn & Hm). unfold hashInst. simpl.
  apply hashOperands_renamed. repeat split; simpl; congruence.
Qed.

Lemma getHash_renamed W : getHash std_hash_float (renameSeq rho W) = getHash std_hash_float W.
Proof.
  unfold getHash.
  assert (H : forall st st', renamed st st' ->
            renamed (fold_left (hashInst std_hash_float) W st)
                    (fold_left (hashInst std_hash_float) (renameSeq rho W) st')).
  { induction W as [|Inst W IH]; intros st st' H; simpl; [exact H|].
    apply IH, hashInst_renamed, H. }
  destruct (H (mkHS FNV_offset_basis ∅ 1000) (mkHS FNV_offset_basis ∅ 1000))
    as [Hh _]; [|exact Hh].
  split; [reflexivity|]. split; [reflexivity|].
  intros r. simpl. rewrite !lookup_empty. reflexivity.
Qed.

End Renaming.

Lemma firstSight_app (r x : Z) (seen : list Z) :
  firstSight r (seen ++ [x]) =
  match firstSight r seen with
  | Some k => Some k
  | None => if x =? r then Some (length seen) else None
  end.
Proof.
  induction seen as [|y seen IH]; simpl.
  - destruct (x =? r); reflexivity.
  - destruct (y =? r); [reflexivity|]. rewrite IH.
    destruct (firstSight r seen); simpl; [reflexivity|].
    destruct (x =? r); reflexivity.
Qed.

Lemma wrap_u64_succ (a : Z) : wrap_u64 (wrap_u64 a + 1) = wrap_u64 (a + 1).
Proof. unfold wrap_u64. apply Z.add_mod_idemp_l. lia. Qed.

(** The register map and the next id of the code follow the list of
    registers seen so far. *)
Definition tracks (m : gmap Z Z) (n : Z) (seen : list Z) : Prop :=
  n = wrap_u64 (1000 + Z.of_nat (length seen))
  /\ forall r, m !! r = (fun k => wrap_u64 (1000 + Z.of_nat k)) <$> firstSight r seen.

Lemma hashOperand_spec h hash m n seen Op :
  tracks m n seen ->
  let st' := hashOperand h (mkHS hash m n) Op in
  let cs := spec_operandCode h seen Op in
  hsHash st' = fnv_step hash (fst cs)
  /\ tracks (hsRegMap st') (hsNextRegId st') (snd cs).
Proof.
  intros [Hn Hm]. destruct Op as [r| | |]; simpl; try (split; [reflexivity|split; assumption]).
  unfold normalizeRegister, spec_registerCode, isSpecialReg.
  destruct ((r =? 31) || (r =? 29) || (r =? 30)); simpl.
  { split; [reflexivity|split; assumption]. }
  rewrite Hm. destruct (firstSight r seen) as [k|] eqn:Hk; simpl.
  { split; [reflexivity|split; assumption]. }
  split; [congruence|]. split.
  - rewrite Hn, wrap_u64_succ, length_app. simpl. f_equal. lia.
  - intros r0. rewrite firstSight_app.
    destruct (decide (r = r0)) as [->|Hne].
    + rewrite lookup_insert_eq, Hk, Z.eqb_refl. simpl. congruence.
    + rewrite lookup_insert_ne by exact Hne. rewrite Hm.
      destruct (firstSight r0 seen); simpl; [reflexivity|].
      destruct (Z.eqb_spec r r0); [contradiction|reflexivity].
Qed.

Lemma hashOperands_spec h ops hash m n seen :
  tracks m n seen ->
  let st' := fold_left (hashOperand h) ops (mkHS hash m n) in
  let cs := spec_operandCodes h seen ops in
  hsHash st' = fold_left fnv_step (fst cs) hash
  /\ tracks (hsRegMap st') (hsNextRegId st') (snd cs).
Proof.
  revert hash m n seen. induction ops as [|Op ops IH]; intros hash m n seen Ht; simpl.
  { split; [reflexivity|exact Ht]. }
  destruct (hashOperand_spec h hash m n seen Op Ht) as [Hh Ht'].
  destruct (spec_operandCode h seen Op) as [c seen1] eqn:Hc. simpl in Hh, Ht'.
  destruct (hashOperand h (mkHS hash m n) Op) as [hash1 m1 n1] eqn:Hst. simpl in Hh, Ht'.
  specialize (IH hash1 m1 n1 seen1 Ht').
  destruct (spec_operandCodes h seen1 ops) as [cs seen2] eqn:Hcs. simpl in IH |- *.
  subst hash1. exact IH.
Qed.

Lemma getHash_spec_from h W hash m n seen :
  tracks m n seen ->
  hsHash (fold_left (hashInst h) W (mkHS hash m n))
  = fold_left fnv_step (spec_stream h seen W) hash.
Proof.
  revert hash m n seen. induction W as [|Inst W IH]; intros hash m n seen Ht; simpl.
  { reflexivity. }
  unfold hashInst at 2. simpl.
  destruct (hashOperands_spec h (Operands Inst)
              (fnv_step hash (wrap_u64 (getOpcode Inst))) m n seen Ht) as [Hh Ht'].
  destruct (spec_operandCodes h seen (Operands Inst)) as [cs seen1] eqn:Hcs.
  simpl in Hh, Ht'.
  destruct (fold_left (hashOperand h) (Operands Inst) _) as [hash1 m1 n1] eqn:Hst.
  simpl in Hh, Ht'. simpl.
  rewrite fold_left_app, <- Hh. apply IH, Ht'.
Qed.

(** C3.  The fingerprint of a window does not change under a renaming of
    registers that is injective (a bijection is) and fixes SP (31), FP (29)
    and LR (30); and the fingerprint is the FNV-1a fold over the stream in
    which a register of {SP, FP, LR} is coded by its raw id and any other
    register by the id 1000 + k, k its rank in order of first sight within
    the window. *)
Theorem fingerprint_renaming_invariant (std_hash_float : Z -> Z) (rho : Z -> Z)
    (W : InstructionSequence) :
  (forall r1 r2, rho r1 = rho r2 -> r1 = r2) ->
  rho 31 = 31 -> rho 29 = 29 -> rho 30 = 30 ->
  getHash std_hash_float (renameSeq rho W) = getHash std_hash_float W
  /\ getHash std_hash_float W = spec_hash std_hash_float W.
Proof.
  intros Hinj HSP HFP HLR. split.
  - apply getHash_renamed; assumption.
  - unfold getHash, spec_hash. apply getHash_spec_from.
    split; [reflexivity|]. intros r. rewrite lookup_empty. reflexivity.
Qed.

Lemma fingerprint_renaming_invariant_witness :
  let swap := fun r : Z => if r =? 1 then 2 else if r =? 2 then 1 else r in
  let W := [Demo.mov 1 5; Demo.ldr 2 31 8; Demo.add 3 1 2; Demo.add 1 29 30] in
  getHash Demo.std_hash_float (renameSeq swap W) = getHash Demo.std_hash_float W
  /\ getHash Demo.std_hash_float W = spec_hash Demo.std_hash_float W.
Proof.
  intros swap W.
  apply (fingerprint_renaming_invariant Demo.std_hash_float swap W);
    try reflexivity.
  intros r1 r2. unfold swap.
  destruct (Z.eqb_spec r1 1), (Z.eqb_spec r1 2), (Z.eqb_spec r2 1), (Z.eqb_spec r2 2); lia.
Defined.

(** ** Cost model *)

Lemma wrap_i32_id (z : Z) : in_i32 z -> wrap_i32 z = z.
Proof.
  unfold in_i32, wrap_i32. intros H.
  rewrite Z.mod_small by lia. lia.
Qed.

Lemma wrap_u64_id (z : Z) : 0 <= z < 2 ^ 64 -> wrap_u64 z = z.
Proof. unfold wrap_u64. intros H. apply Z.mod_small. exact H. Qed.

Lemma count_fold_true {A} (p : A -> bool) (l : list A) (n0 : Z) :
  0 <= n0 ->
  n0 + Z.of_nat (length l) < 2 ^ 31 ->
  fold_left (fun n x => if p x then wrap_i32 (n + 1) else n) l n0
  = n0 + Z.of_nat (length (filter (fun x => p x = true) l)).
Proof.
  revert n0. induction l as [|x l IH]; intros n0 H0 Hb; simpl.
  - lia.
  - rewrite filter_cons. simpl length in Hb.
    destruct (p x) eqn:Hp.
    + rewrite decide_True by reflexivity.
      rewrite wrap_i32_id by (unfold in_i32; lia).
      rewrite IH by lia. simpl length. lia.
    + rewrite decide_False by discriminate. apply IH; lia.
Qed.

Lemma count_fold_false {A} (p : A -> bool) (l : list A) (n0 : Z) :
  0 <= n0 ->
  n0 + Z.of_nat (length l) < 2 ^ 31 ->
  fold_left (fun n x => if p x then n else wrap_i32 (n + 1)) l n0
  = n0 + Z.of_nat (length (filter (fun x => p x = false) l)).
Proof.
  revert n0. induction l as [|x l IH]; intros n0 H0 Hb; simpl.
  - lia.
  - rewrite filter_cons. simpl length in Hb.
    destruct (p x) eqn:Hp.
    + rewrite decide_False by discriminate. apply IH; lia.
    + rewrite decide_True by reflexivity.
      rewrite wrap_i32_id by (unfold in_i32; lia).
      rewrite IH by lia. simpl length. lia.
Qed.

Lemma filter_partition_length {A} (p : A -> bool) (l : list A) :
  (length (filter (fun x => p x = true) l)
   + length (filter (fun x => p x = false) l) = length l)%nat.
Proof.
  induction l as [|x l IH]; simpl; [reflexivity|].
  rewrite !filter_cons. destruct (p x).
  - rewrite decide_True by reflexivity. rewrite decide_False by discriminate.
    simpl. lia.
  - rewrite decide_False by discriminate. rewrite decide_True by reflexivity.
    simpl. lia.
Qed.

Lemma sum_fold (l : list Z) (t0 : Z) :
  Forall (fun x => 0 <= x) l ->
  0 <= t0 -> t0 + sumZ l < 2 ^ 64 ->
  fold_left (fun t x => wrap_u64 (t + x)) l t0 = t0 + sumZ l.
Proof.
  revert t0. induction l as [|x l IH]; intros t0 Hl H0 Hb; simpl.
  - lia.
  - inversion Hl as [|? ? Hx Hl']; subst. simpl in Hb.
    assert (0 <= sumZ l).
    { clear -Hl'. induction Hl'; simpl; lia. }
    rewrite wrap_u64_id by lia. rewrite IH by (try assumption; lia). lia.
Qed.

Lemma freq_fold (P : PostLinkOutlining) (BF : BinaryFunction)
    (locations : list SequenceLocation) :
  Forall (fun Loc => 0 <= bbExecFreq P BF Loc) locations ->
  sumZ (bbExecFreq P BF <$> locations) < 2 ^ 64 ->
  fold_left (fun t Loc => wrap_u64 (t + bbExecFreq P BF Loc)) locations 0
  = sumZ (bbExecFreq P BF <$> locations).
Proof.
  intros Hpos Hb.
  assert (G : forall l t0,
             fold_left (fun t Loc => wrap_u64 (t + bbExecFreq P BF Loc)) l t0
             = fold_left (fun t x => wrap_u64 (t + x)) (bbExecFreq P BF <$> l) t0).
  { induction l as [|x l IH]; intros t0; simpl; [reflexivity|apply IH]. }
  rewrite G, sum_fold; [lia | | lia | lia].
  apply Forall_fmap. exact Hpos.
Qed.

Lemma sumZ_nonneg (l : list Z) : Forall (fun x => 0 <= x) l -> 0 <= sumZ l.
Proof. induction 1; simpl; lia. Qed.

(** C1.  The cost model of an anchor window of length [len] with located
    occurrences [locations], whenever the byte counts fit the [int] the
    source computes them in: body size 4L+4 (pure) or 4L+12 (impure),
    savings 4·L·F, cost = body + 12 per sandwich occurrence + 4 per
    bare-call occurrence, threshold -4 / 0 / 4 for a pure body by average
    frequency or occurrence count and 0 for an impure one, and admission
    exactly when savings - cost > threshold. *)
Theorem cost_model_formulas (P : PostLinkOutlining) (BC : BinaryContext)
    (BF : BinaryFunction) (len : Z) (seq : InstructionSequence)
    (locations : list SequenceLocation) :
  let O := Z.of_nat (length locations) in
  let F := spec_weightedFrequency P BF locations in
  let pure := isOutlinedFuncPure BC seq in
  let body := spec_bodySize pure len in
  let savings := 4 * len * F in
  let cost := body + 12 * sandwichOccurrences BC BF locations
              + 4 * bareOccurrences BC BF locations in
  let T := spec_threshold pure (F / O) O in
  let c := costModel P BC BF len seq locations in
  locations <> [] ->
  0 <= len ->
  Forall (fun Loc => 0 <= bbExecFreq P BF Loc) locations ->
  F < 2 ^ 31 ->
  savings < 2 ^ 31 ->
  4 * len + 12 + 12 * O < 2 ^ 31 ->
  outlinedFuncSize c = body
  /\ weightedFrequency c = F
  /\ savedBytes c = savings
  /\ costBytes c = cost
  /\ sandwichOccurrences BC BF locations + bareOccurrences BC BF locations = O
  /\ MinBenefitThreshold c = T
  /\ (T = -4 \/ T = 0 \/ T = 4)
  /\ (admitted c = true <-> savings - cost > T).
Proof.
  intros O F pure body savings cost T c Hne Hlen Hpos HF Hsav Hcost.
  assert (HO : 0 < O).
  { subst O. destruct locations; [contradiction|simpl; lia]. }
  pose proof (filter_partition_length (IsCallerLeaf BC BF) locations) as Hpart.
  set (S := sandwichOccurrences BC BF locations) in *.
  set (Bc := bareOccurrences BC BF locations) in *.
  assert (HSB : S + Bc = O).
  { subst S Bc O. unfold sandwichOccurrences, bareOccurrences. lia. }
  assert (HS0 : 0 <= S) by (subst S; unfold sandwichOccurrences; lia).
  assert (HB0 : 0 <= Bc) by (subst Bc; unfold bareOccurrences; lia).
  assert (HF0 : 0 <= F).
  { subst F. unfold spec_weightedFrequency. destruct (EnablePGO P); [|lia].
    apply sumZ_nonneg, Forall_fmap. exact Hpos. }
  assert (Hs : sandwichCallCount c = S).
  { subst c S. unfold costModel, sandwichOccurrences. simpl.
    rewrite count_fold_true by (fold O; lia). lia. }
  assert (Hb : normalCallCount c = Bc).
  { subst c Bc. unfold costModel, bareOccurrences. simpl.
    rewrite count_fold_false by (fold O; lia). lia. }
  assert (Hw : weightedFrequency c = F).
  { subst c F. unfold costModel, spec_weightedFrequency. simpl.
    destruct (EnablePGO P) eqn:HP; [|reflexivity].
    apply freq_fold; [exact Hpos|].
    unfold spec_weightedFrequency in HF. rewrite HP in HF. lia. }
  assert (Hbody : outlinedFuncSize c = body).
  { subst c body. unfold costModel, spec_bodySize. simpl. fold pure.
    unfold InstSizeBytes, RetSize, PrologueSize, EpilogueSize.
    destruct pure; (rewrite wrap_i32_id by (unfold in_i32; lia)); lia. }
  assert (Hcall : totalCallCost c = 12 * S + 4 * Bc).
  { unfold c, costModel. simpl. fold c.
    change (fold_left _ locations 0) with (sandwichCallCount c) at 1.
    change (fold_left _ locations 0) with (normalCallCount c) at 1.
    rewrite Hs, Hb. unfold SandwichCallSize, CallInstSize.
    rewrite wrap_i32_id by (unfold in_i32; lia). lia. }
  assert (Hsaved : savedBytes c = savings).
  { unfold c, costModel. simpl. fold c.
    change (if EnablePGO P then _ else _) with (weightedFrequency c).
    rewrite Hw. unfold InstSizeBytes.
    rewrite (wrap_i32_id F) by (unfold in_i32; lia).
    subst savings. rewrite wrap_i32_id; [lia|]. unfold in_i32. nia. }
  assert (Hbody_bounds : 4 * len + 4 <= body <= 4 * len + 12).
  { subst body. unfold spec_bodySize. destruct pure; lia. }
  assert (HcostB : costBytes c = cost).
  { unfold c, costModel. simpl. fold c.
    change (wrap_i32 (_ * SandwichCallSize + _ * CallInstSize))
      with (totalCallCost c).
    change (if isOutlinedFuncPure BC seq then _ else _) with (outlinedFuncSize c).
    rewrite Hbody, Hcall. subst cost.
    rewrite wrap_i32_id; [lia|]. unfold in_i32. lia. }
  assert (Hnet : netBenefit c = savings - cost).
  { unfold c, costModel. simpl. fold c.
    change (wrap_i32 (len * InstSizeBytes * _)) with (savedBytes c).
    change (wrap_i32 (_ + wrap_i32 _)) with (costBytes c).
    rewrite Hsaved, HcostB. apply wrap_i32_id. unfold in_i32.
    subst cost savings. nia. }
  assert (HT : MinBenefitThreshold c = T).
  { unfold c, costModel. simpl. fold c. fold pure. fold O.
    change (if EnablePGO P then fold_left _ locations 0 else O)
      with (weightedFrequency c).
    rewrite Hw.
    assert (Hfreq : (if EnablePGO P then F else O) = F).
    { subst F. unfold spec_weightedFrequency. destruct (EnablePGO P); reflexivity. }
    rewrite Hfreq. rewrite (proj2 (Z.ltb_lt 0 O)) by exact HO.
    subst T. unfold spec_threshold.
    destruct pure.
    - destruct (Z.leb_spec 3 (F / O)), (Z.leb_spec 3 O); simpl;
        try (rewrite bool_decide_eq_true_2 by lia; reflexivity).
      rewrite bool_decide_eq_false_2 by lia.
      destruct (Z.leb_spec 2 (F / O)), (Z.leb_spec 2 O); simpl;
        try (rewrite bool_decide_eq_true_2 by lia; reflexivity).
      rewrite bool_decide_eq_false_2 by lia. reflexivity.
    - destruct ((3 <=? F / O) || (3 <=? O)); [reflexivity|].
      destruct ((2 <=? F / O) || (2 <=? O)); reflexivity. }
  repeat split; try assumption.
  - subst T. unfold spec_threshold. destruct pure; [|lia].
    repeat case_bool_decide; lia.
  - unfold admitted. rewrite HT, Hnet. intros H. apply Z.ltb_lt in H. lia.
  - unfold admitted. rewrite HT, Hnet. intros H. apply Z.ltb_lt. lia.
Qed.

Lemma cost_model_formulas_witness :
  let P := mkPass 32 false 2 in
  let w := [Demo.mov 1 1; Demo.mov 2 2; Demo.add 3 1 2; Demo.eor 4 3 1; Demo.sub 5 4 2] in
  let BF := mkBF "f" [mkBB (w ++ [Demo.mov 9 100] ++ w ++ [Demo.mov 9 200] ++ w
                            ++ [Demo.ret]) [] false 0]
                 false false 0 false true false in
  let locations := [mkLoc 0 0; mkLoc 0 6; mkLoc 0 12] in
  let c := costModel P Demo.AArch64 BF 5 w locations in
  outlinedFuncSize c = 24 /\ weightedFrequency c = 3 /\ savedBytes c = 60
  /\ costBytes c = 60 /\ MinBenefitThreshold c = -4 /\ admitted c = true.
Proof.
  intros P w BF locations c.
  destruct (cost_model_formulas P Demo.AArch64 BF 5 w locations)
    as (H1 & H2 & H3 & H4 & _ & H6 & _ & H8).
  - discriminate.
  - lia.
  - repeat constructor; vm_compute; discriminate.
  - vm_compute. reflexivity.
  - vm_compute. reflexivity.
  - vm_compute. reflexivity.
  - split; [exact H1|]. split; [exact H2|]. split; [exact H3|].
    split; [exact H4|]. split; [exact H6|].
    apply H8. vm_compute. reflexivity.
Defined.

(** ** Stack-displacement fixup *)






Lemma wrap_i64_id (z : Z) : in_i64 z -> wrap_i64 z = z.
Proof.
  unfold in_i64, wrap_i64. intros H.
  rewrite Z.mod_small by lia. lia.
Qed.






(** ** Trampoline choice *)

Lemma firstIndex_Some {A} (p : A -> bool) (l : list A) (r : nat) (x : A) :
  l !! r = Some x -> p x = true ->
  exists r0, firstIndex p l = Some r0 /\ (r0 <= r)%nat.
Proof.
  intros Hl Hp. unfold firstIndex.
  destruct (list_find (fun x => p x = true) l) as [[r0 y]|] eqn:Hf.
  - exists r0. split; [reflexivity|].
    apply list_find_Some in Hf as (_ & _ & Hmin).
    destruct (le_lt_dec r0 r) as [|Hlt]; [assumption|].
    exfalso. eapply Hmin; eauto.
  - exfalso. eapply list_find_None in Hf.
    rewrite Forall_forall in Hf. eapply Hf; [|exact Hp].
    eapply list_elem_of_lookup_2, Hl.
Qed.

Lemma existsb_lookup {A} (p : A -> bool) (l : list A) (r : nat) (x : A) :
  l !! r = Some x -> p x = true -> existsb p l = true.
Proof.
  intros Hl Hp. apply existsb_exists. exists x. split; [|exact Hp].
  eapply lookup_In, Hl.
Qed.

(** A return in a block laid out before the occurrence's block. *)
Lemma retScan_earlier_block BC (blocks : list BinaryBasicBlock)
    (k b StartIndex j : nat) (Bj : BinaryBasicBlock) :
  blocks !! j = Some Bj -> (k + j < b)%nat ->
  existsb (MIA_isReturn BC) (Instructions Bj) = true ->
  retScan BC blocks k b StartIndex false = Some false.
Proof.
  revert k j. induction blocks as [|FuncBB rest IH]; intros k j Hj Hlt Hret.
  - discriminate.
  - simpl. assert (Hkb : (k =? b)%nat = false) by (apply Nat.eqb_neq; lia).
    rewrite Hkb. destruct j as [|j].
    + injection Hj as ->. rewrite Hret. reflexivity.
    + destruct (existsb (MIA_isReturn BC) (Instructions FuncBB)); simpl; [reflexivity|].
      apply (IH (S k) j); [exact Hj | lia | exact Hret].
Qed.

(** A return in the occurrence's own block, before its start index. *)
Lemma retScan_past_return BC (blocks : list BinaryBasicBlock)
    (k b StartIndex j r : nat) (Bj : BinaryBasicBlock) (Inst : MCInst) :
  blocks !! j = Some Bj -> (k + j = b)%nat ->
  Instructions Bj !! r = Some Inst -> MIA_isReturn BC Inst = true ->
  (r < StartIndex)%nat ->
  retScan BC blocks k b StartIndex false = Some false.
Proof.
  revert k j. induction blocks as [|FuncBB rest IH]; intros k j Hj Hkj Hr Hret Hlt.
  - discriminate.
  - simpl. destruct j as [|j].
    + injection Hj as ->.
      rewrite (existsb_lookup _ _ _ _ Hr Hret).
      assert (Hkb : (k =? b)%nat = true) by (apply Nat.eqb_eq; lia).
      rewrite Hkb. simpl.
      destruct (firstIndex_Some (MIA_isReturn BC) _ _ _ Hr Hret) as (r0 & -> & Hle).
      assert (Hr0 : (r0 <? StartIndex)%nat = true) by (apply Nat.ltb_lt; lia).
      rewrite Hr0. reflexivity.
    + assert (Hkb : (k =? b)%nat = false) by (apply Nat.eqb_neq; lia).
      rewrite Hkb.
      destruct (existsb (MIA_isReturn BC) (Instructions FuncBB)); simpl; [reflexivity|].
      apply (IH (S k) j); [exact Hj | lia | exact Hr | exact Hret | exact Hlt].
Qed.

Lemma eraseLoop_cons {A} (count pos : nat) (x : A) (l : list A) :
  eraseLoop count (S pos) (x :: l) = x :: eraseLoop count pos l.
Proof.
  revert l. induction count as [|count IH]; intros l; simpl; [reflexivity|].
  change (S pos <? S (length l))%nat with (pos <? length l)%nat.
  destruct (pos <? length l)%nat; [apply IH|reflexivity].
Qed.

Lemma eraseLoop_front {A} (count : nat) (l : list A) :
  eraseLoop count 0 l = drop count l.
Proof.
  revert l. induction count as [|count IH]; intros l; simpl; [reflexivity|].
  destruct l as [|x l]; simpl; [reflexivity|apply IH].
Qed.

Lemma writeSandwich_cons BC (CallInst x : MCInst) (i : nat) (l : list MCInst) :
  writeSandwich BC CallInst (S i) (x :: l) = x :: writeSandwich BC CallInst i l.
Proof. reflexivity. Qed.

(** The in-block rewrite of a window of [n] instructions at [i]. *)
Lemma sandwich_rewrite BC (CallInst : MCInst) (n i : nat) (l : list MCInst) :
  (0 < n)%nat -> (i + n <= length l)%nat ->
  eraseLoop (n - 1) (i + 3) (writeSandwich BC CallInst i l)
  = take i l
    ++ [createPushRegisters BC (getFramePointer BC) (getLinkRegister BC);
        CallInst;
        createPopRegisters BC (getFramePointer BC) (getLinkRegister BC)]
    ++ drop (i + n) l.
Proof.
  intros Hn. revert l. induction i as [|i IH]; intros l Hlen.
  - destruct l as [|y l]; [simpl in Hlen; lia|].
    change (writeSandwich BC CallInst 0 (y :: l))
      with (createPushRegisters BC (getFramePointer BC) (getLinkRegister BC)
            :: CallInst
            :: createPopRegisters BC (getFramePointer BC) (getLinkRegister BC) :: l).
    simpl Nat.add. rewrite !eraseLoop_cons, eraseLoop_front.
    destruct n as [|n]; [lia|]. simpl. rewrite Nat.sub_0_r. reflexivity.
  - destruct l as [|y l]; [simpl in Hlen; lia|].
    rewrite writeSandwich_cons. simpl Nat.add. rewrite eraseLoop_cons.
    simpl in Hlen. rewrite (IH l) by lia. reflexivity.
Qed.

Lemma bare_call_rewrite (CallInst : MCInst) (n i : nat) (l : list MCInst) :
  (0 < n)%nat -> (i + n <= length l)%nat ->
  eraseLoop (n - 1) (i + 1) (<[i := CallInst]> l)
  = take i l ++ [CallInst] ++ drop (i + n) l.
Proof.
  intros Hn. revert l. induction i as [|i IH]; intros l Hlen.
  - destruct l as [|y l]; [simpl in Hlen; lia|].
    simpl. rewrite eraseLoop_cons, eraseLoop_front.
    destruct n as [|n]; [lia|]. simpl. rewrite Nat.sub_0_r. reflexivity.
  - destruct l as [|y l]; [simpl in Hlen; lia|].
    simpl. rewrite eraseLoop_cons. simpl in Hlen. rewrite (IH l) by lia. reflexivity.
Qed.

Lemma updateBlock_lookup (BF : BinaryFunction) (b : nat)
    (f : list MCInst -> list MCInst) :
  Blocks (updateBlock BF b f) !! b
  = (fun BB => setInstructions BB (f (Instructions BB))) <$> Blocks BF !! b.
Proof.
  unfold updateBlock. destruct (Blocks BF !! b) as [BB|] eqn:Hb; simpl.
  - apply list_lookup_insert_eq. eapply lookup_lt_Some, Hb.
  - exact Hb.
Qed.

Lemma updateBlock_lookup_ne (BF : BinaryFunction) (b b' : nat)
    (f : list MCInst -> list MCInst) :
  b <> b' -> Blocks (updateBlock BF b f) !! b' = Blocks BF !! b'.
Proof.
  intros Hne. unfold updateBlock. destruct (Blocks BF !! b) as [BB|]; simpl.
  - apply list_lookup_insert_ne, Hne.
  - reflexivity.
Qed.

Lemma cleanFollowingBlocks_other (SeqLen b : nat) (ranges : list (nat * nat))
    (BF : BinaryFunction) :
  Forall (fun r => fst r <> b) ranges ->
  Blocks (cleanFollowingBlocks BF SeqLen ranges) !! b = Blocks BF !! b.
Proof.
  intros H. revert BF. unfold cleanFollowingBlocks.
  induction H as [|[c s] ranges Hc Hr IH]; intros BF; simpl; [reflexivity|].
  rewrite IH. apply updateBlock_lookup_ne. exact Hc.
Qed.

Lemma eraseLoop_nil {A} (count pos : nat) : eraseLoop count pos (@nil A) = [].
Proof. destruct count; reflexivity. Qed.

Lemma eraseLoop_take {A} (count pos : nat) (l : list A) :
  take pos (eraseLoop count pos l) = take pos l.
Proof.
  revert l. induction pos as [|pos IH]; intros l; [reflexivity|].
  destruct l as [|x l]; [rewrite eraseLoop_nil; reflexivity|].
  rewrite eraseLoop_cons. simpl. rewrite IH. reflexivity.
Qed.

Lemma writeSandwich_take BC (CallInst : MCInst) (i : nat) (l : list MCInst) :
  (i < length l)%nat ->
  take (i + 3) (writeSandwich BC CallInst i l)
  = take i l
    ++ [createPushRegisters BC (getFramePointer BC) (getLinkRegister BC);
        CallInst;
        createPopRegisters BC (getFramePointer BC) (getLinkRegister BC)].
Proof.
  revert l. induction i as [|i IH]; intros l Hlen.
  - destruct l as [|y l]; [simpl in Hlen; lia|]. reflexivity.
  - destruct l as [|y l]; [simpl in Hlen; lia|].
    rewrite writeSandwich_cons. simpl. rewrite IH by (simpl in Hlen; lia). reflexivity.
Qed.

Lemma insert_take (CallInst : MCInst) (i : nat) (l : list MCInst) :
  (i < length l)%nat ->
  take (i + 1) (<[i := CallInst]> l) = take i l ++ [CallInst].
Proof.
  revert l. induction i as [|i IH]; intros l Hlen.
  - destruct l as [|y l]; [simpl in Hlen; lia|]. reflexivity.
  - destruct l as [|y l]; [simpl in Hlen; lia|].
    simpl. rewrite IH by (simpl in Hlen; lia). reflexivity.
Qed.

Lemma isLeafFunction_no_calls BC (BF : BinaryFunction) :
  Blocks BF <> [] ->
  (isLeafFunction BC BF = true <->
   forall BB Inst, In BB (Blocks BF) -> In Inst (Instructions BB) ->
                   MIB_isCall BC Inst = false).
Proof.
  intros Hne. unfold isLeafFunction, bfEmpty.
  destruct (Blocks BF) as [|B0 rest] eqn:HB; [contradiction|].
  rewrite negb_true_iff. split.
  - intros Hex BB Inst HBB HI.
    destruct (MIB_isCall BC Inst) eqn:Hc; [|reflexivity].
    rewrite <- Hex. symmetry. apply existsb_exists. exists BB. split; [exact HBB|].
    apply existsb_exists. exists Inst. split; assumption.
  - intros Hall. apply not_true_is_false. intros Hex.
    apply existsb_exists in Hex as (BB & HBB & Hex).
    apply existsb_exists in Hex as (Inst & HI & Hc).
    rewrite (Hall BB Inst HBB HI) in Hc. discriminate.
Qed.

(** X28.  One call of [replaceSequenceWithCall] for an occurrence at index
    [i] of block [b] writes the sandwich (push FP/LR, call, pop FP/LR)
    exactly when [IsRealLeaf || !SafeToCall] holds of the function as it is
    handed in, earlier replacements included: that function has no call
    anywhere and is not injected, or LR is not found saved.  An occurrence
    in a block laid out after a block holding a return, or past a return
    of its own block, is never LR-saved, hence sandwiched.  Every other
    occurrence gets the single call.  The emitted instructions are given
    for an occurrence inside its block and for one that runs over the
    block end. *)
Theorem trampoline_choice BC (Ctx : MCContext) (BF : BinaryFunction)
    (Loc : SequenceLocation) (SeqLen : nat) (OutlinedFuncLabel : string)
    (BB : BinaryBasicBlock) :
  isAArch64 BC = true ->
  (0 < SeqLen)%nat ->
  Blocks BF !! LocBB Loc = Some BB ->
  (StartIndex Loc < bbSize BB)%nat ->
  let b := LocBB Loc in
  let i := StartIndex Loc in
  let sandwich := IsCallerLeaf BC BF Loc in
  let PushInst := createPushRegisters BC (getFramePointer BC) (getLinkRegister BC) in
  let PopInst := createPopRegisters BC (getFramePointer BC) (getLinkRegister BC) in
  let CallInst := createCall BC (mkExpr (NextExprAddr Ctx) (Some OutlinedFuncLabel)) in
  let BF' := fst (replaceSequenceWithCall BC Ctx BF Loc SeqLen OutlinedFuncLabel) in
  (sandwich = true <->
   (isLeafFunction BC BF = true /\ isInjected BF = false)
   \/ isLRSavedAtPoint BC BF b i = false)
  /\ (isLeafFunction BC BF = true <->
      forall B Inst, In B (Blocks BF) -> In Inst (Instructions B) ->
                     MIB_isCall BC Inst = false)
  /\ ((exists k Bk, (k < b)%nat /\ Blocks BF !! k = Some Bk
                    /\ existsb (MIA_isReturn BC) (Instructions Bk) = true)
      \/ (exists r Inst, (r < i)%nat /\ Instructions BB !! r = Some Inst
                         /\ MIA_isReturn BC Inst = true) ->
      isLRSavedAtPoint BC BF b i = false /\ sandwich = true)
  /\ ((i + SeqLen <= bbSize BB)%nat ->
      Blocks BF'
      = <[b := setInstructions BB
                 (take i (Instructions BB)
                  ++ (if sandwich then [PushInst; CallInst; PopInst] else [CallInst])
                  ++ drop (i + SeqLen) (Instructions BB))]> (Blocks BF))
  /\ (forall following,
        (bbSize BB < i + SeqLen)%nat ->
        collectBlockRanges BC BF 3 b i SeqLen = Some ((b, i) :: following) ->
        Forall (fun r => fst r <> b) following ->
        exists BB', Blocks BF' !! b = Some BB'
          /\ if sandwich
             then take (i + 3) (Instructions BB')
                  = take i (Instructions BB) ++ [PushInst; CallInst; PopInst]
             else take (i + 1) (Instructions BB')
                  = take i (Instructions BB) ++ [CallInst]).
Proof.
  intros Harch Hlen HBB Hi b i sandwich PushInst PopInst CallInst BF'.
  change (Blocks BF !! b = Some BB) in HBB.
  change (i < bbSize BB)%nat in Hi.
  assert (Hne : Blocks BF <> []).
  { intros Hnil. rewrite Hnil in HBB. discriminate. }
  assert (Hsize : blockSizeAt BF b = bbSize BB).
  { unfold blockSizeAt. rewrite HBB. reflexivity. }
  assert (Hdec : sandwich = true <->
                 (isLeafFunction BC BF = true /\ isInjected BF = false)
                 \/ isLRSavedAtPoint BC BF b i = false).
  { subst sandwich. unfold IsCallerLeaf, IsRealLeaf, SafeToCall. fold b. fold i.
    rewrite orb_true_iff, andb_true_iff, !negb_true_iff. tauto. }
  split; [exact Hdec|].
  split; [apply isLeafFunction_no_calls, Hne|].
  split.
  { intros Hret.
    assert (Hsaved : isLRSavedAtPoint BC BF b i = false).
    { unfold isLRSavedAtPoint.
      destruct (Blocks BF) as [|EntryBB rest] eqn:Hblocks; [reflexivity|].
      rewrite <- Hblocks in *.
      destruct Hret as [(k & Bk & Hk & HBk & Hr)|(r & Inst & Hr & HI & HR)].
      - rewrite (retScan_earlier_block BC (Blocks BF) 0 b i k Bk); auto.
      - rewrite (retScan_past_return BC (Blocks BF) 0 b i b r BB Inst); auto. }
    split; [exact Hsaved|]. apply Hdec. right. exact Hsaved. }
  assert (Hz : (SeqLen =? 0)%nat = false) by (apply Nat.eqb_neq; lia).
  assert (Hle : (blockSizeAt BF b <=? i)%nat = false).
  { rewrite Hsize. apply Nat.leb_gt. exact Hi. }
  split.
  - intros Hin. subst BF'. unfold replaceSequenceWithCall.
    fold b. fold i. rewrite Hz, Hsize.
    assert (Hcross : (bbSize BB <? i + SeqLen)%nat = false) by (apply Nat.ltb_ge; lia).
    rewrite Hcross. rewrite Hsize in Hle. rewrite Hle. simpl.
    rewrite Harch. simpl. fold CallInst. fold sandwich.
    destruct sandwich; simpl; unfold updateBlock; fold b; rewrite HBB; simpl; f_equal; f_equal.
    + apply sandwich_rewrite; [exact Hlen|exact Hin].
    + apply bare_call_rewrite; [exact Hlen|exact Hin].
  - intros following Hover Hranges Hfollow. subst BF'. unfold replaceSequenceWithCall.
    fold b. fold i. rewrite Hz, Hsize.
    assert (Hcross : (bbSize BB <? i + SeqLen)%nat = true) by (apply Nat.ltb_lt; lia).
    rewrite Hcross. rewrite Hsize in Hle. rewrite Hle, Harch.
    cbn -[collectBlockRanges cleanFollowingBlocks updateBlock size_sub size_min
          blockSizeAt eraseLoop writeSandwich].
    fold CallInst. fold sandwich. rewrite Hranges.
    destruct sandwich;
      cbn -[cleanFollowingBlocks updateBlock size_sub size_min blockSizeAt
            eraseLoop writeSandwich].
    + eexists. split.
      * rewrite cleanFollowingBlocks_other by exact Hfollow.
        rewrite !updateBlock_lookup. fold b. rewrite HBB. reflexivity.
      * simpl. rewrite eraseLoop_take. apply writeSandwich_take. exact Hi.
    + eexists. split.
      * rewrite cleanFollowingBlocks_other by exact Hfollow.
        rewrite !updateBlock_lookup. fold b. rewrite HBB. reflexivity.
      * simpl. rewrite eraseLoop_take. apply insert_take. exact Hi.
Qed.

Lemma trampoline_choice_witness :
  let BB := mkBB [Demo.pushRegisters 29 30; Demo.bl 7 "foo"; Demo.mov 1 1;
                  Demo.add 2 1 1; Demo.ret; Demo.mov 1 1; Demo.add 2 1 1]
                 [] false 0 in
  let BF := mkBF "g" [BB] false false 0 false true false in
  let call := mkInst Demo.BL [Expr (mkExpr 1000 (Some "PLO_outlined_1"))] in
  (* before the return: LR is saved, one bare call *)
  Blocks (fst (replaceSequenceWithCall Demo.AArch64 Demo.ctx0 BF (mkLoc 0 2) 2
                 "PLO_outlined_1"))
  = [mkBB [Demo.pushRegisters 29 30; Demo.bl 7 "foo"; call;
           Demo.ret; Demo.mov 1 1; Demo.add 2 1 1] [] false 0]
  (* past the return: sandwich *)
  /\ Blocks (fst (replaceSequenceWithCall Demo.AArch64 Demo.ctx0 BF (mkLoc 0 5) 2
                    "PLO_outlined_1"))
     = [mkBB [Demo.pushRegisters 29 30; Demo.bl 7 "foo"; Demo.mov 1 1;
              Demo.add 2 1 1; Demo.ret;
              Demo.pushRegisters 29 30; call; Demo.popRegisters 29 30] [] false 0].
Proof.
  intros BB BF call. split.
  - destruct (trampoline_choice Demo.AArch64 Demo.ctx0 BF (mkLoc 0 2) 2
                "PLO_outlined_1" BB) as (_ & _ & _ & Hin & _).
    + reflexivity.
    + lia.
    + reflexivity.
    + vm_compute. lia.
    + apply Hin. vm_compute. lia.
  - destruct (trampoline_choice Demo.AArch64 Demo.ctx0 BF (mkLoc 0 5) 2
                "PLO_outlined_1" BB) as (_ & _ & _ & Hin & _).
    + reflexivity.
    + lia.
    + reflexivity.
    + vm_compute. lia.
    + apply Hin. vm_compute. lia.
Defined.

(** C7.  The trampoline of an occurrence is chosen on the function as the
    earlier replacements left it, not on the function the occurrences were
    located in.  [Cases.twoBlockLeaf] holds no call and saves LR nowhere:
    each of its three occurrences of the window needs the sandwich, and the
    cost model counts three sandwiches and no bare call.  The pass writes
    the sandwich for the occurrence in the entry block only; the call and
    the push just written make the function a non-leaf with LR saved, and
    the two occurrences in the second block get a bare call. *)
Theorem rewritten_leaf_gets_bare_calls :
  let BF := Cases.twoBlockLeaf in
  let locations := findSequenceLocations Demo.AArch64 BF Demo.window5 in
  let c := costModel Demo.defaultPass Demo.AArch64 BF 5 Demo.window5 locations in
  let Prog' := snd (runOnFunctions Demo.std_hash_float Demo.defaultPass
                      Demo.AArch64 Cases.twoBlockProgram) in
  let call := fun addr => mkInst Demo.BL [Expr (mkExpr addr (Some "PLO_outlined_1"))] in
  isLeafFunction Demo.AArch64 BF = true
  /\ isInjected BF = false
  /\ locations = [mkLoc 0 0; mkLoc 1 0; mkLoc 1 6]
  /\ forallb (IsCallerLeaf Demo.AArch64 BF) locations = true
  /\ sandwichCallCount c = 3
  /\ normalCallCount c = 0
  /\ (fun F => Instructions <$> Blocks F) <$> BinaryFunctions Prog'
     = [[[Demo.pushRegisters 29 30; call 1000; Demo.popRegisters 29 30;
          Demo.mov 9 300];
         [call 1002; Demo.mov 9 100; call 1001; Demo.ret]]].
Proof. vm_compute. repeat split; reflexivity. Qed.

(** ** Tail call in the synthesizer *)

(** The claim as stated fails for an indirect call: the return stays and
    the epilogue is emitted before it. *)
Lemma indirect_call_keeps_return :
  let body := [Demo.mov 1 1; Demo.blr 8; Demo.ret] in
  let f := createInjectedBinaryFunction "PLO_outlined_1" [newBlock body] in
  MIB_isCall Demo.AArch64 (Demo.blr 8) = true
  /\ MIB_isIndirectCall Demo.AArch64 (Demo.blr 8) = true
  /\ MIB_isReturn Demo.AArch64 Demo.ret = true
  /\ Blocks (fst (stackFrameManage Demo.AArch64 Demo.ctx0 f false))
     = [newBlock [Demo.pushRegisters 29 30; Demo.mov 1 1; Demo.blr 8;
                  Demo.popRegisters 29 30; Demo.ret]].
Proof. vm_compute. repeat split; reflexivity. Qed.

Definition needsFrame (fl : PurityFlags) : Prop :=
  needsLR fl || hasConditionalBranch fl = true.

Lemma purityScanBlock_needsFrame BC (insts : list MCInst) (fl : PurityFlags) :
  needsFrame fl \/ existsb (MIB_isCall BC) insts = true ->
  needsFrame (fst (purityScanBlock BC insts fl)).
Proof.
  revert fl. induction insts as [|Inst rest IH]; intros fl H; simpl.
  - destruct H as [H|H]; [exact H|discriminate].
  - destruct (isConditionalBranch BC Inst).
    { unfold needsFrame. simpl. apply orb_true_r. }
    set (fl1 := mkPF (needsLR fl || MIB_isCall BC Inst)
                     (usesFP fl || readsFP BC Inst) (hasConditionalBranch fl)).
    assert (Hc : needsFrame fl1
                 \/ (needsLR fl1 = false /\ hasConditionalBranch fl1 = false
                     /\ existsb (MIB_isCall BC) rest = true)).
    { unfold needsFrame in *. subst fl1. simpl.
      destruct (needsLR fl || MIB_isCall BC Inst) eqn:E1; [left; reflexivity|].
      destruct (hasConditionalBranch fl) eqn:E2; [left; reflexivity|].
      right. split; [reflexivity|]. split; [reflexivity|].
      apply orb_false_iff in E1 as [E1a E1b].
      destruct H as [H|H].
      - rewrite E1a in H. discriminate.
      - simpl in H. rewrite E1b in H. exact H. }
    destruct Hc as [Hc|(Hn & Hb & Hr)].
    + match goal with |- context [if ?c then _ else _] => destruct c end;
        [exact Hc|apply IH; left; exact Hc].
    + simpl in Hn, Hb. rewrite Hn, Hb. simpl. apply IH. right. exact Hr.
Qed.

Lemma purityScan_needsFrame BC (blocks : list BinaryBasicBlock) (fl : PurityFlags) :
  needsFrame fl -> needsFrame (purityScan BC blocks fl).
Proof.
  revert fl. induction blocks as [|CurrBB rest IH]; intros fl H; simpl; [exact H|].
  pose proof (purityScanBlock_needsFrame BC (Instructions CurrBB) fl (or_introl H)) as H1.
  destruct (purityScanBlock BC (Instructions CurrBB) fl) as [fl1 stop].
  simpl in H1. destruct stop; [exact H1|apply IH, H1].
Qed.

Lemma call_not_pure BC (IsCalledViaSandwich : bool) (blocks : list BinaryBasicBlock)
    (BB : BinaryBasicBlock) (others : list BinaryBasicBlock) :
  fixStackOffsets BC IsCalledViaSandwich blocks = BB :: others ->
  existsb (MIB_isCall BC) (Instructions BB) = true ->
  isPureFunction BC IsCalledViaSandwich blocks = false.
Proof.
  intros Hfix Hcall. unfold isPureFunction. rewrite Hfix. simpl.
  pose proof (purityScanBlock_needsFrame BC (Instructions BB)
                (mkPF false false false) (or_intror Hcall)) as H1.
  destruct (purityScanBlock BC (Instructions BB) (mkPF false false false))
    as [fl1 stop].
  simpl in H1.
  assert (H2 : needsFrame (if stop then fl1 else purityScan BC others fl1)).
  { destruct stop; [exact H1|apply purityScan_needsFrame, H1]. }
  destruct stop; unfold needsFrame in H2;
    apply orb_true_iff in H2 as [H2|H2]; rewrite H2; simpl;
    rewrite ?andb_false_r; reflexivity.
Qed.

Lemma firstIndex_app {A} (p : A -> bool) (l1 l2 : list A) (y : A) :
  Forall (fun x => p x = false) l1 -> p y = true ->
  firstIndex p (l1 ++ y :: l2) = Some (length l1).
Proof.
  intros Hl Hy. unfold firstIndex.
  induction Hl as [|x l1 Hx Hl IH]; simpl.
  - rewrite decide_True by exact Hy. reflexivity.
  - rewrite decide_False by (rewrite Hx; discriminate).
    destruct (list_find (fun x => p x = true) (l1 ++ y :: l2)) as [[k z]|];
      simpl in *; [|discriminate].
    injection IH as ->. reflexivity.
Qed.

Lemma tailCallOptimize_call_ret BC (Ctx : MCContext) (l : list MCInst)
    (CallInst RetInst : MCInst) :
  MIB_isCall BC CallInst = true -> MIB_isReturn BC RetInst = true ->
  tailCallOptimize BC Ctx (l ++ [CallInst; RetInst])
  = if MIB_isIndirectCall BC CallInst then (l ++ [CallInst; RetInst], false, Ctx)
    else match callTargetSymbol (Operands CallInst) with
         | Some TargetSymbol =>
             (l ++ [createUncondBranch BC
                      (mkExpr (NextExprAddr Ctx) (Some TargetSymbol))],
              true, mkCtx (NextExprAddr Ctx + 1) (NextTempSymbol Ctx))
         | None => (l ++ [CallInst], true, Ctx)
         end.
Proof.
  intros Hc Hr. unfold tailCallOptimize.
  rewrite length_app. simpl length.
  assert (Hn : (length l + 2 <? 2)%nat = false) by (apply Nat.ltb_ge; lia).
  rewrite Hn.
  replace (length l + 2 - 2)%nat with (length l) by lia.
  replace (length l + 2 - 1)%nat with (S (length l)) by lia.
  rewrite (list_lookup_middle l [RetInst] CallInst (length l) eq_refl).
  assert (Hlast : (l ++ [CallInst; RetInst]) !! S (length l) = Some RetInst).
  { change (l ++ [CallInst; RetInst]) with (l ++ [CallInst] ++ [RetInst]).
    rewrite app_assoc. apply list_lookup_middle. rewrite length_app. simpl. lia. }
  rewrite Hlast, Hc, Hr. simpl.
  destruct (MIB_isIndirectCall BC CallInst); simpl; [reflexivity|].
  destruct (callTargetSymbol (Operands CallInst)) as [T|].
  - unfold createSymbolRefExpr. rewrite take_app_length. reflexivity.
  - change (l ++ [CallInst; RetInst]) with (l ++ [CallInst] ++ [RetInst]).
    rewrite app_assoc.
    replace (S (length l)) with (length (l ++ [CallInst]))
      by (rewrite length_app; simpl; lia).
    rewrite take_app_length. reflexivity.
Qed.

Lemma fixStackOffsets_cons BC (s : bool) (blocks : list BinaryBasicBlock)
    (BB : BinaryBasicBlock) (others : list BinaryBasicBlock) :
  fixStackOffsets BC s blocks = BB :: others ->
  exists B0 rest0, blocks = B0 :: rest0 /\ bbSize B0 = bbSize BB.
Proof.
  destruct blocks as [|B0 rest0]; [discriminate|].
  unfold fixStackOffsets. simpl. intros H. injection H as <- _.
  exists B0, rest0. split; [reflexivity|].
  unfold bbSize, mapInstructions. simpl. rewrite length_fmap. reflexivity.
Qed.

(** C8 (amended).  On AArch64, for a synthesized function whose entry block
    (after the displacement fixup) ends in a call followed by a return: a
    direct call with a symbol target becomes an unconditional branch to that
    symbol, the return is dropped and no epilogue follows; a direct call
    without a symbol-reference operand only loses the return; an indirect
    call is left alone, the return stays and the epilogue is inserted before
    it.  In every case the prologue has been put in front. *)
Theorem tail_call_rewrite BC (Ctx : MCContext) (outlinedFunc : BinaryFunction)
    (IsCalledViaSandwich : bool) (BB : BinaryBasicBlock)
    (others : list BinaryBasicBlock) (body : list MCInst)
    (CallInst RetInst : MCInst) :
  isAArch64 BC = true ->
  fixStackOffsets BC IsCalledViaSandwich (Blocks outlinedFunc) = BB :: others ->
  Instructions BB = body ++ [CallInst; RetInst] ->
  MIB_isCall BC CallInst = true ->
  MIB_isReturn BC RetInst = true ->
  let Prologue := createPushRegisters BC (getFramePointer BC) (getLinkRegister BC) in
  let Epilogue := createPopRegisters BC (getFramePointer BC) (getLinkRegister BC) in
  let entry :=
    entryInstructions (fst (stackFrameManage BC Ctx outlinedFunc IsCalledViaSandwich)) in
  (MIB_isIndirectCall BC CallInst = false ->
   forall TargetSymbol,
     callTargetSymbol (Operands CallInst) = Some TargetSymbol ->
     entry = Prologue :: body
             ++ [createUncondBranch BC (mkExpr (NextExprAddr Ctx) (Some TargetSymbol))])
  /\ (MIB_isIndirectCall BC CallInst = false ->
      callTargetSymbol (Operands CallInst) = None ->
      entry = Prologue :: body ++ [CallInst])
  /\ (MIB_isIndirectCall BC CallInst = true ->
      Forall (fun I => MIB_isReturn BC I = false) (Prologue :: body ++ [CallInst]) ->
      entry = Prologue :: body ++ [CallInst; Epilogue; RetInst]).
Proof.
  intros Harch Hfix Hinsts Hcall Hret Prologue Epilogue entry.
  destruct (fixStackOffsets_cons _ _ _ _ _ Hfix) as (B0 & rest0 & Hblocks & Hsize).
  assert (Hlen : bbSize BB = (length body + 2)%nat).
  { unfold bbSize. rewrite Hinsts, length_app. reflexivity. }
  assert (Hnz : (bbSize B0 =? 0)%nat = false) by (apply Nat.eqb_neq; lia).
  assert (Hpure : isPureFunction BC IsCalledViaSandwich (Blocks outlinedFunc) = false).
  { apply (call_not_pure BC IsCalledViaSandwich _ BB others Hfix).
    rewrite Hinsts. apply existsb_exists. exists CallInst. split; [|exact Hcall].
    apply in_or_app. right. left. reflexivity. }
  assert (Hrun : stackFrameManage BC Ctx outlinedFunc IsCalledViaSandwich
                 = let '(afterTail, tailCallOptimized, Ctx1) :=
                     tailCallOptimize BC Ctx ((Prologue :: body) ++ [CallInst; RetInst]) in
                   if tailCallOptimized
                   then (setBlocks outlinedFunc (setInstructions BB afterTail :: others), Ctx1)
                   else (setBlocks outlinedFunc
                           (setInstructions BB (insertEpilogue BC afterTail) :: others),
                         Ctx1)).
  { unfold stackFrameManage. rewrite Hpure, Harch, Hfix, Hblocks.
    cbn [existsb negb orb andb]. rewrite Hnz. cbn [negb orb andb].
    rewrite Hinsts. reflexivity. }
  subst entry. rewrite Hrun, (tailCallOptimize_call_ret BC Ctx _ _ _ Hcall Hret).
  split; [|split].
  - intros Hdir T HT. rewrite Hdir, HT. reflexivity.
  - intros Hdir HT. rewrite Hdir, HT. reflexivity.
  - intros Hind Hnoret. rewrite Hind. unfold entryInstructions. simpl.
    unfold insertEpilogue.
    assert (E : Prologue :: body ++ [CallInst; RetInst]
                = (Prologue :: body ++ [CallInst]) ++ [RetInst]).
    { simpl. rewrite <- app_assoc. reflexivity. }
    rewrite E.
    rewrite (firstIndex_app (MIB_isReturn BC) _ [] RetInst Hnoret Hret).
    rewrite take_app_length, drop_app_length.
    simpl. rewrite <- app_assoc. reflexivity.
Qed.

Lemma tail_call_rewrite_witness :
  let f := createInjectedBinaryFunction "PLO_outlined_1"
             [newBlock [Demo.mov 1 1; Demo.bl 7 "foo"; Demo.ret]] in
  entryInstructions (fst (stackFrameManage Demo.AArch64 Demo.ctx0 f false))
  = [Demo.pushRegisters 29 30; Demo.mov 1 1;
     mkInst Demo.B [Expr (mkExpr 1000 (Some "foo"))]].
Proof.
  intros f.
  destruct (tail_call_rewrite Demo.AArch64 Demo.ctx0 f false
              (newBlock [Demo.mov 1 1; Demo.bl 7 "foo"; Demo.ret]) []
              [Demo.mov 1 1] (Demo.bl 7 "foo") Demo.ret) as (Hdirect & _).
  - reflexivity.
  - reflexivity.
  - reflexivity.
  - reflexivity.
  - reflexivity.
  - apply (Hdirect eq_refl "foo"). reflexivity.
Defined.

(** ** Immediate compatibility *)


Lemma abs_i64_id (z : Z) : - 2 ^ 63 < z < 2 ^ 63 -> abs_i64 z = Z.abs z.
Proof. intros H. unfold abs_i64. apply wrap_i64_id. unfold in_i64. lia. Qed.

(** X29.  On immediates whose values and whose difference lie strictly
    between -2^63 and 2^63, the predicate accepts the pair exactly when the
    values are equal, or - unless both instructions may load or store and
    the first one names SP, FP or a sub-register of them - either both
    opcode names are shift names, the two operand indices coincide and the
    values differ by at most 1, or both values lie in [-15, 15] and differ
    by at most 1. *)
Theorem immediates_compatibility BC (Inst1 Inst2 : MCInst) (OpIdx1 OpIdx2 : nat)
    (Imm1 Imm2 : Z) :
  Operands Inst1 !! OpIdx1 = Some (Imm Imm1) ->
  Operands Inst2 !! OpIdx2 = Some (Imm Imm2) ->
  - 2 ^ 63 < Imm1 < 2 ^ 63 ->
  - 2 ^ 63 < Imm2 < 2 ^ 63 ->
  - 2 ^ 63 < Imm1 - Imm2 < 2 ^ 63 ->
  let stackPair :=
    isLoadStore BC Inst1 && isLoadStore BC Inst2
    && existsb (namesSPorFP BC) (Operands Inst1) in
  let shiftPair :=
    isShiftName (lower (getOpcodeName BC (getOpcode Inst1)))
    && isShiftName (lower (getOpcodeName BC (getOpcode Inst2))) in
  areImmediatesCompatible BC Inst1 Inst2 OpIdx1 OpIdx2 = true
  <-> Imm1 = Imm2
      \/ (stackPair = false
          /\ ((shiftPair = true /\ OpIdx1 = OpIdx2 /\ Z.abs (Imm1 - Imm2) <= 1)
              \/ (Z.abs Imm1 <= 15 /\ Z.abs Imm2 <= 15 /\ Z.abs (Imm1 - Imm2) <= 1))).
Proof.
  intros H1 H2 R1 R2 R12 stackPair shiftPair.
  unfold areImmediatesCompatible. rewrite H1, H2.
  destruct (Z.eqb_spec Imm1 Imm2) as [->|Hne]; [tauto|].
  change ((mayLoad BC (getOpcode Inst1) || mayStore BC (getOpcode Inst1))
          && (mayLoad BC (getOpcode Inst2) || mayStore BC (getOpcode Inst2))
          && existsb (namesSPorFP BC) (Operands Inst1)) with stackPair.
  destruct stackPair.
  { split; [discriminate|]. intros [Heq|[Hsp _]]; [contradiction|discriminate]. }
  fold shiftPair.
  rewrite (wrap_i64_id (Imm1 - Imm2)) by (unfold in_i64; lia).
  rewrite !abs_i64_id by assumption.
  destruct shiftPair, (Nat.eqb_spec OpIdx1 OpIdx2),
    (Z.leb_spec (Z.abs Imm1) 15), (Z.leb_spec (Z.abs Imm2) 15),
    (Z.leb_spec (Z.abs (Imm1 - Imm2)) 1); simpl; split;
    try reflexivity; try discriminate;
    try (intros _; right; split; [reflexivity|];
         first [ solve [left; repeat split; (assumption || reflexivity || lia)]
               | solve [right; repeat split; (assumption || lia)] ]);
    intros [Heq|[_ [(Hs & Hi & Hd)|(Ha & Hb & Hd)]]];
    try contradiction; try discriminate; lia.
Qed.

Lemma immediates_compatibility_witness :
  areImmediatesCompatible Demo.AArch64 (Demo.lsl 1 2 20) (Demo.lsl 1 2 21) 2 2 = true
  /\ areImmediatesCompatible Demo.AArch64 (Demo.mov 1 7) (Demo.mov 1 8) 1 1 = true.
Proof.
  split.
  - apply (immediates_compatibility Demo.AArch64 (Demo.lsl 1 2 20) (Demo.lsl 1 2 21)
             2 2 20 21); [reflexivity | reflexivity | lia | lia | lia |].
    right. split; [reflexivity|]. left. split; [reflexivity|]. split; [reflexivity|lia].
  - apply (immediates_compatibility Demo.AArch64 (Demo.mov 1 7) (Demo.mov 1 8)
             1 1 7 8); [reflexivity | reflexivity | lia | lia | lia |].
    right. split; [reflexivity|]. right. lia.
Defined.

(** ** The pass on an unsupported architecture *)

(** C5.  [runOnFunctions] returns success on every input.  On a host that is
    not AArch64 it still synthesizes functions: on the leaf program with the
    default options no instruction of the original function is rewritten,
    and three injected functions are created, one per copy of the window. *)
Theorem run_on_other_architecture :
  (forall h P BC Prog, fst (runOnFunctions h P BC Prog) = ErrorSuccess)
  /\ isAArch64 Demo.OtherArch = false
  /\ (let Prog' := snd (runOnFunctions Demo.std_hash_float Demo.defaultPass
                          Demo.OtherArch Demo.leafProgram) in
      BinaryFunctions Prog' = [Demo.leafFunction]
      /\ getPrintName <$> InjectedBinaryFunctions Prog'
         = ["PLO_outlined_1"; "PLO_outlined_2"; "PLO_outlined_3"]
      /\ Forall (fun F => Blocks F = [newBlock (Demo.window5 ++ [Demo.ret])])
                (InjectedBinaryFunctions Prog')).
Proof.
  split.
  { intros h P BC Prog. unfold runOnFunctions.
    destruct (removeRedundantIntermediateFunctions _ _ _). reflexivity. }
  split; [reflexivity|].
  vm_compute. split; [reflexivity|]. split; [reflexivity|].
  repeat constructor.
Qed.

(** ** Profile filtering *)

(** C6.  With profile filtering on, the function of [hotProgram] is in the
    precomputed hot set (profile present, execution count 100), yet windows
    are extracted from its block that never ran, and the function is
    outlined: the three copies in that block become calls to a new injected
    function. *)
Theorem hot_function_is_outlined :
  elements (InHotFuncs Demo.pgoPass Demo.hotProgram) = [0%nat]
  /\ length (getAllseqs Demo.pgoPass Demo.AArch64 Demo.hotFunction 5) = 13%nat
  /\ (let Prog' := snd (runOnFunctions Demo.std_hash_float Demo.pgoPass
                          Demo.AArch64 Demo.hotProgram) in
      (fun F => Instructions <$> Blocks F) <$> BinaryFunctions Prog'
      = [[[Demo.pushRegisters 29 30; Demo.bl 7 "foo"; Demo.bcc 0 8 "exit"];
          [Demo.bl 1002 "PLO_outlined_1"; Demo.mov 9 100;
           Demo.bl 1001 "PLO_outlined_1"; Demo.mov 9 200;
           Demo.bl 1000 "PLO_outlined_1"; Demo.b 9 "exit"];
          [Demo.popRegisters 29 30; Demo.ret]]]
      /\ (fun F => (getPrintName F, Instructions <$> Blocks F))
           <$> InjectedBinaryFunctions Prog'
         = [("PLO_outlined_1", [Demo.window5 ++ [Demo.ret]])]).
Proof. vm_compute. repeat split; reflexivity. Qed.

(** * Further properties of the pass *)

(** ** Link register lookup *)

Lemma findRegName_first (names : list string) (i : Z) :
  match findRegName names i with
  | Some r =>
      exists k Name, r = i + Z.of_nat k /\ names !! k = Some Name
        /\ isLinkRegisterName Name = true
        /\ forall j N, (j < k)%nat -> names !! j = Some N ->
                       isLinkRegisterName N = false
  | None => Forall (fun N => isLinkRegisterName N = false) names
  end.
Proof.
  revert i. induction names as [|n rest IH]; intros i; simpl.
  - constructor.
  - fold (isLinkRegisterName n).
    destruct (isLinkRegisterName n) eqn:Hn.
    + exists 0%nat, n. repeat split; [lia|exact Hn|]. intros j N Hj. lia.
    + specialize (IH (i + 1)). destruct (findRegName rest (i + 1)) as [r|].
      * destruct IH as (k & Name & -> & Hk & HN & Hmin).
        exists (S k), Name. repeat split; [lia|exact Hk|exact HN|].
        intros [|j] N Hj HjN; simpl in HjN.
        -- injection HjN as <-. exact Hn.
        -- apply (Hmin j N); [lia|exact HjN].
      * constructor; assumption.
Qed.

(** X1.  [getLinkRegister] is 0 off AArch64.  On AArch64 it is the number
    of the first register whose name is "x30" or "lr" in any letter case,
    cut to the 16 bits of a register number (so the number itself when it
    is below 65536), and 30 when the register file has no such name. *)
Theorem getLinkRegister_first_match BC :
  (isAArch64 BC = false -> getLinkRegister BC = 0)
  /\ (isAArch64 BC = true ->
      Forall (fun N => isLinkRegisterName N = false) (RegNames BC) ->
      getLinkRegister BC = 30)
  /\ (forall k Name,
        isAArch64 BC = true ->
        RegNames BC !! k = Some Name ->
        isLinkRegisterName Name = true ->
        (forall j N, (j < k)%nat -> RegNames BC !! j = Some N ->
                     isLinkRegisterName N = false) ->
        getLinkRegister BC = Z.of_nat k mod 2 ^ 16
        /\ (Z.of_nat k < 2 ^ 16 -> getLinkRegister BC = Z.of_nat k)).
Proof.
  assert (Hcut : forall k Name,
            isAArch64 BC = true ->
            RegNames BC !! k = Some Name ->
            isLinkRegisterName Name = true ->
            (forall j N, (j < k)%nat -> RegNames BC !! j = Some N ->
                         isLinkRegisterName N = false) ->
            getLinkRegister BC = Z.of_nat k mod 2 ^ 16); [|split; [|split]].
  4:{ intros k Name Harch Hk HN Hmin. split; [eapply Hcut; eassumption|].
      intros Hlt. rewrite (Hcut k Name Harch Hk HN Hmin).
      apply Z.mod_small. lia. }
  all: unfold getLinkRegister.
  1:{ intros k Name -> Hk HN Hmin. simpl.
      pose proof (findRegName_first (RegNames BC) 0) as H.
      destruct (findRegName (RegNames BC) 0) as [r|].
      + destruct H as (k' & Name' & -> & Hk' & HN' & Hmin').
        destruct (lt_eq_lt_dec k k') as [[Hlt|Heq]|Hgt].
        * rewrite (Hmin' k Name Hlt Hk) in HN. discriminate.
        * subst k'. reflexivity.
        * rewrite (Hmin k' Name' Hgt Hk') in HN'. discriminate.
      + rewrite Forall_forall in H.
        rewrite H in HN by (eapply list_elem_of_lookup_2, Hk). discriminate. }
  - intros ->. reflexivity.
  - intros -> Hall. simpl.
    pose proof (findRegName_first (RegNames BC) 0) as H.
    destruct (findRegName (RegNames BC) 0) as [r|]; [|reflexivity].
    destruct H as (k & Name & _ & Hk & HN & _).
    rewrite Forall_forall in Hall.
    rewrite Hall in HN by (eapply list_elem_of_lookup_2, Hk). discriminate.
Qed.

Lemma getLinkRegister_first_match_witness :
  getLinkRegister Demo.AArch64 = Z.of_nat 30.
Proof.
  destruct (getLinkRegister_first_match Demo.AArch64) as (_ & _ & H).
  destruct (H 30%nat "x30") as [_ Hsmall];
    [reflexivity|reflexivity|reflexivity| |apply Hsmall; reflexivity].
  intros j N Hj HN.
  do 30 (destruct j as [|j]; [injection HN as <-; reflexivity|]).
  lia.
Defined.

(** ** LR-saved analysis *)

Lemma retScan_only_false BC (blocks : list BinaryBasicBlock)
    (k b StartIndex : nat) (retEncountered r : bool) :
  retScan BC blocks k b StartIndex retEncountered = Some r -> r = false.
Proof.
  revert k retEncountered.
  induction blocks as [|FuncBB rest IH]; intros k retEncountered; simpl.
  - discriminate.
  - destruct (retEncountered || existsb (MIA_isReturn BC) (Instructions FuncBB));
      destruct (k =? b)%nat; simpl.
    + destruct (firstIndex (MIA_isReturn BC) (Instructions FuncBB)) as [retIndex|];
        [|discriminate].
      destruct (retIndex <? StartIndex)%nat; [|discriminate].
      intros H. injection H as <-. reflexivity.
    + intros H. injection H as <-. reflexivity.
    + discriminate.
    + apply IH.
Qed.

Lemma lrScan_true BC (LR : Z) (IsEntryBlock : bool) (insts : list MCInst)
    (Limit : nat) :
  lrScan BC LR IsEntryBlock insts Limit = true ->
  exists i Inst,
    (i < Limit)%nat /\ insts !! i = Some Inst /\ savesLR BC LR Inst = true
    /\ (IsEntryBlock = true ->
        forall j I, (j < i)%nat -> insts !! j = Some I ->
                    MIA_isTerminator BC I = false /\ MIA_isCall BC I = false).
Proof.
  revert insts. induction Limit as [|Limit IH]; intros insts.
  - destruct insts; discriminate.
  - destruct insts as [|Inst rest]; [discriminate|]. simpl.
    fold (savesLR BC LR Inst).
    destruct (savesLR BC LR Inst) eqn:Hs.
    + intros _. exists 0%nat, Inst. repeat split; [lia|exact Hs| |]; lia.
    + destruct ((MIA_isTerminator BC Inst || MIA_isCall BC Inst) && IsEntryBlock)
        eqn:Hstop; [discriminate|].
      intros H. destruct (IH rest H) as (i & I0 & Hi & HI0 & Hsave & Hbefore).
      exists (S i), I0. split; [lia|]. split; [exact HI0|]. split; [exact Hsave|].
      intros He [|j] I Hj HjI; simpl in HjI.
      * injection HjI as <-. rewrite He, andb_true_r in Hstop.
        apply orb_false_iff in Hstop. exact Hstop.
      * apply (Hbefore He j I); [lia|exact HjI].
Qed.

(** X2.  [isLRSavedAtPoint] answers true only when the entry block holds a
    push or store naming LR; for an occurrence in the entry block that
    instruction lies before the start index and no terminator or call
    precedes it.  An occurrence at the very start of the entry block is
    therefore never LR-saved, and neither is any point of a function
    without blocks. *)
Theorem lr_saved_needs_entry_save BC (BF : BinaryFunction) :
  (forall b StartIndex,
     isLRSavedAtPoint BC BF b StartIndex = true ->
     exists EntryBB i Inst,
       head (Blocks BF) = Some EntryBB
       /\ Instructions EntryBB !! i = Some Inst
       /\ savesLR BC (getLinkRegister BC) Inst = true
       /\ (b = 0%nat ->
           (i < StartIndex)%nat
           /\ forall j I, (j < i)%nat -> Instructions EntryBB !! j = Some I ->
                MIA_isTerminator BC I = false /\ MIA_isCall BC I = false))
  /\ isLRSavedAtPoint BC BF 0 0 = false
  /\ (Blocks BF = [] -> forall b StartIndex,
        isLRSavedAtPoint BC BF b StartIndex = false).
Proof.
  split; [|split].
  - intros b StartIndex. unfold isLRSavedAtPoint.
    destruct (Blocks BF) as [|EntryBB rest] eqn:HB; [discriminate|].
    destruct (retScan BC (EntryBB :: rest) 0 b StartIndex false) as [r|] eqn:Hret.
    + apply retScan_only_false in Hret. subst r. discriminate.
    + intros H. apply lrScan_true in H as (i & Inst & Hi & HI & Hs & Hbefore).
      exists EntryBB, i, Inst. split; [reflexivity|]. split; [exact HI|].
      split; [exact Hs|]. intros ->. simpl in Hi, Hbefore.
      split; [exact Hi|]. apply Hbefore. reflexivity.
  - unfold isLRSavedAtPoint. destruct (Blocks BF) as [|EntryBB rest]; [reflexivity|].
    destruct (retScan BC (EntryBB :: rest) 0 0 0 false) as [r|] eqn:Hret.
    + apply retScan_only_false in Hret. exact Hret.
    + simpl. destruct (Instructions EntryBB); reflexivity.
  - intros HB b StartIndex. unfold isLRSavedAtPoint. rewrite HB. reflexivity.
Qed.

Lemma lr_saved_needs_entry_save_witness :
  exists EntryBB i Inst,
    head (Blocks Demo.hotFunction) = Some EntryBB
    /\ Instructions EntryBB !! i = Some Inst
    /\ savesLR Demo.AArch64 (getLinkRegister Demo.AArch64) Inst = true
    /\ (1%nat = 0%nat ->
        (i < 0)%nat
        /\ forall j I, (j < i)%nat -> Instructions EntryBB !! j = Some I ->
             MIA_isTerminator Demo.AArch64 I = false
             /\ MIA_isCall Demo.AArch64 I = false).
Proof.
  destruct (lr_saved_needs_entry_save Demo.AArch64 Demo.hotFunction) as (H & _).
  apply (H 1%nat 0%nat). reflexivity.
Defined.

(** ** Instruction equality and the overlap test *)

Lemma operandsEqual_sym (Op1 Op2 : MCOperand) :
  operandsEqual Op1 Op2 = operandsEqual Op2 Op1.
Proof. destruct Op1, Op2; simpl; try reflexivity; apply Z.eqb_sym. Qed.

Lemma operandsEqual_trans (Op1 Op2 Op3 : MCOperand) :
  operandsEqual Op1 Op2 = true -> operandsEqual Op2 Op3 = true ->
  operandsEqual Op1 Op3 = true.
Proof.
  destruct Op1, Op2, Op3; simpl; intros H1 H2; try discriminate;
    apply Z.eqb_eq in H1, H2; apply Z.eqb_eq; congruence.
Qed.

Lemma allOperandsEqual_sym (ops1 ops2 : list MCOperand) :
  allOperandsEqual ops1 ops2 = allOperandsEqual ops2 ops1.
Proof.
  revert ops2. induction ops1 as [|Op1 r1 IH]; intros [|Op2 r2]; simpl;
    try reflexivity.
  rewrite operandsEqual_sym, IH. reflexivity.
Qed.

Lemma allOperandsEqual_trans (ops1 ops2 ops3 : list MCOperand) :
  length ops1 = length ops2 ->
  allOperandsEqual ops1 ops2 = true -> allOperandsEqual ops2 ops3 = true ->
  allOperandsEqual ops1 ops3 = true.
Proof.
  revert ops2 ops3. induction ops1 as [|Op1 r1 IH]; intros [|Op2 r2] ops3 Hlen;
    simpl in *; try discriminate; try reflexivity.
  destruct ops3 as [|Op3 r3]; [reflexivity|].
  rewrite !andb_true_iff. intros [H1 H1'] [H2 H2']. split.
  - eapply operandsEqual_trans; eassumption.
  - eapply IH; [|eassumption|eassumption]. lia.
Qed.

Lemma areInstructionsEqual_sym (Inst1 Inst2 : MCInst) :
  areInstructionsEqual Inst1 Inst2 = areInstructionsEqual Inst2 Inst1.
Proof.
  unfold areInstructionsEqual.
  rewrite (Z.eqb_sym (getOpcode Inst2)), (Nat.eqb_sym (getNumOperands Inst2)),
    (allOperandsEqual_sym (Operands Inst2)).
  reflexivity.
Qed.

Lemma areInstructionsEqual_trans (Inst1 Inst2 Inst3 : MCInst) :
  areInstructionsEqual Inst1 Inst2 = true ->
  areInstructionsEqual Inst2 Inst3 = true ->
  areInstructionsEqual Inst1 Inst3 = true.
Proof.
  unfold areInstructionsEqual, getNumOperands.
  destruct (getOpcode Inst1 =? getOpcode Inst2) eqn:E12; [|discriminate].
  destruct (getOpcode Inst2 =? getOpcode Inst3) eqn:E23; [|intros _; discriminate].
  apply Z.eqb_eq in E12, E23.
  replace (getOpcode Inst1 =? getOpcode Inst3) with true
    by (symmetry; apply Z.eqb_eq; congruence).
  simpl.
  destruct (length (Operands Inst1) =? length (Operands Inst2))%nat eqn:L12;
    [|discriminate].
  destruct (length (Operands Inst2) =? length (Operands Inst3))%nat eqn:L23;
    [|intros _; discriminate].
  apply Nat.eqb_eq in L12, L23.
  replace (length (Operands Inst1) =? length (Operands Inst3))%nat with true
    by (symmetry; apply Nat.eqb_eq; congruence).
  simpl. apply allOperandsEqual_trans. exact L12.
Qed.

(** X3.  [areInstructionsEqual] is an equivalence on instructions:
    reflexive, symmetric and transitive. *)
Theorem areInstructionsEqual_equivalence :
  (forall Inst, areInstructionsEqual Inst Inst = true)
  /\ (forall Inst1 Inst2,
        areInstructionsEqual Inst1 Inst2 = areInstructionsEqual Inst2 Inst1)
  /\ (forall Inst1 Inst2 Inst3,
        areInstructionsEqual Inst1 Inst2 = true ->
        areInstructionsEqual Inst2 Inst3 = true ->
        areInstructionsEqual Inst1 Inst3 = true).
Proof.
  split; [exact areInstructionsEqual_refl|].
  split; [exact areInstructionsEqual_sym|exact areInstructionsEqual_trans].
Qed.

Lemma areInstructionsEqual_equivalence_witness :
  areInstructionsEqual (Demo.mov 1 1) (Demo.mov 1 1) = true.
Proof.
  destruct areInstructionsEqual_equivalence as (_ & _ & Htrans).
  apply (Htrans (Demo.mov 1 1) (Demo.mov 1 1) (Demo.mov 1 1)); reflexivity.
Defined.

Lemma hasOverlappedInstrs_sym (seq1 seq2 : InstructionSequence) :
  hasOverlappedInstrs seq1 seq2 = hasOverlappedInstrs seq2 seq1.
Proof.
  apply Bool.eq_iff_eq_true. unfold hasOverlappedInstrs.
  rewrite !existsb_exists. split.
  - intros (I1 & H1 & H). apply existsb_exists in H as (I2 & H2 & H).
    exists I2. split; [exact H2|]. apply existsb_exists. exists I1.
    split; [exact H1|]. rewrite areInstructionsEqual_sym. exact H.
  - intros (I2 & H2 & H). apply existsb_exists in H as (I1 & H1 & H).
    exists I1. split; [exact H1|]. apply existsb_exists. exists I2.
    split; [exact H2|]. rewrite areInstructionsEqual_sym. exact H.
Qed.

(** X4.  The overlap test does not depend on the order of its two windows,
    an empty window overlaps nothing, and a window that overlaps keeps
    overlapping when instructions are added to it. *)
Theorem hasOverlappedInstrs_symmetric (seq1 seq2 : InstructionSequence) :
  hasOverlappedInstrs seq1 seq2 = hasOverlappedInstrs seq2 seq1
  /\ hasOverlappedInstrs [] seq2 = false
  /\ (forall seq1',
        (forall Inst, In Inst seq1 -> In Inst seq1') ->
        hasOverlappedInstrs seq1 seq2 = true ->
        hasOverlappedInstrs seq1' seq2 = true).
Proof.
  split; [|split].
  - apply hasOverlappedInstrs_sym.
  - reflexivity.
  - intros seq1' Hsub. unfold hasOverlappedInstrs. rewrite !existsb_exists.
    intros (I1 & H1 & H). exists I1. split; [apply Hsub, H1|exact H].
Qed.

Lemma hasOverlappedInstrs_symmetric_witness :
  hasOverlappedInstrs (Demo.mov 9 9 :: Demo.window5) [Demo.mov 1 1] = true.
Proof.
  destruct (hasOverlappedInstrs_symmetric Demo.window5 [Demo.mov 1 1])
    as (_ & _ & Hmono).
  apply Hmono; [|reflexivity].
  intros Inst HI. right. exact HI.
Defined.

(** ** The reject predicate on calls and on stack, frame and link registers *)

Lemma stackWriteBefore_false BC (BB : list MCInst) (seqStartIdx instIdx : nat) :
  stackWriteBefore BC BB seqStartIdx instIdx = false <->
  forall k PrevInst,
    (seqStartIdx <= k < instIdx)%nat -> BB !! k = Some PrevInst ->
    mayStore BC (getOpcode PrevInst) = true ->
    existsb (isRegEq (getStackPointer BC)) (Operands PrevInst) = false.
Proof.
  unfold stackWriteBefore. split.
  - intros H k PrevInst Hk HP Hst.
    destruct (existsb (isRegEq (getStackPointer BC)) (Operands PrevInst)) eqn:E;
      [|reflexivity].
    rewrite <- H. symmetry. apply existsb_exists. exists PrevInst. split.
    + apply (lookup_In _ (k - seqStartIdx)).
      rewrite lookup_take_lt by lia. rewrite lookup_drop.
      replace (seqStartIdx + (k - seqStartIdx))%nat with k by lia. exact HP.
    + rewrite Hst, E. reflexivity.
  - intros H. apply not_true_is_false. intros Hex.
    apply existsb_exists in Hex as (PrevInst & Hin & Hp).
    apply list_elem_of_In, list_elem_of_lookup in Hin as (j & Hj).
    apply andb_true_iff in Hp as [Hst Hsp].
    apply lookup_take_Some in Hj as [Hj Hlt]. rewrite lookup_drop in Hj.
    rewrite (H (seqStartIdx + j)%nat PrevInst) in Hsp; [discriminate|lia|exact Hj|exact Hst].
Qed.

(** X5.  A call is accepted exactly when it is a real instruction (not
    opcode 0, pseudo, CFI or return), stands last in the window, and no
    earlier instruction of the window is a store naming SP; a rejected call
    carries reason 1 or 2. *)
Theorem call_accepted_only_last BC (Inst : MCInst) (len : Z)
    (allowBranch isLastInSeq : bool) (BB : list MCInst) (seqStartIdx instIdx : nat) :
  MIB_isCall BC Inst = true ->
  let R := shouldRejectInstruction BC Inst len allowBranch isLastInSeq BB
             seqStartIdx instIdx in
  (R = 0 <->
   getOpcode Inst <> 0 /\ MIB_isPseudo BC Inst = false /\ MIB_isCFI BC Inst = false
   /\ MIB_isReturn BC Inst = false /\ isLastInSeq = true
   /\ forall k PrevInst,
        (seqStartIdx <= k < instIdx)%nat -> BB !! k = Some PrevInst ->
        mayStore BC (getOpcode PrevInst) = true ->
        existsb (isRegEq (getStackPointer BC)) (Operands PrevInst) = false)
  /\ (R <> 0 -> R = 1 \/ R = 2).
Proof.
  intros Hcall R. subst R. unfold shouldRejectInstruction. rewrite Hcall.
  destruct (getOpcode Inst =? 0) eqn:Hop; simpl.
  { apply Z.eqb_eq in Hop. split; [|auto]. split; [discriminate|]. tauto. }
  apply Z.eqb_neq in Hop.
  destruct (MIB_isPseudo BC Inst); simpl.
  { split; [|auto]. split; [discriminate|]. intros (_ & H & _). discriminate. }
  destruct (MIB_isCFI BC Inst); simpl.
  { split; [|auto]. split; [discriminate|]. intros (_ & _ & H & _). discriminate. }
  destruct (MIB_isReturn BC Inst); simpl.
  { split; [|auto]. split; [discriminate|]. intros (_ & _ & _ & H & _). discriminate. }
  destruct isLastInSeq; simpl.
  2:{ split; [|auto]. split; [discriminate|]. intros (_ & _ & _ & _ & H & _). discriminate. }
  pose proof (stackWriteBefore_false BC BB seqStartIdx instIdx) as Hsw.
  destruct (seqStartIdx <? instIdx)%nat eqn:Hlt; simpl.
  - destruct (stackWriteBefore BC BB seqStartIdx instIdx).
    + split; [|auto]. split; [discriminate|].
      intros (_ & _ & _ & _ & _ & H). apply Hsw in H. discriminate.
    + split; [|intros H; contradiction]. split; [|reflexivity].
      intros _. repeat split; try assumption. apply Hsw. reflexivity.
  - apply Nat.ltb_ge in Hlt. split; [|intros H; contradiction].
    split; [|reflexivity].
    intros _. repeat split; try assumption. intros k P Hk. lia.
Qed.

Lemma call_accepted_only_last_witness :
  let R := shouldRejectInstruction Demo.AArch64 (Demo.bl 7 "foo") 2 false true
             [Demo.mov 1 1; Demo.bl 7 "foo"] 0 1 in
  R = 0.
Proof.
  destruct (call_accepted_only_last Demo.AArch64 (Demo.bl 7 "foo") 2 false true
              [Demo.mov 1 1; Demo.bl 7 "foo"] 0 1) as (H & _); [reflexivity|].
  apply H. repeat split; try reflexivity; try discriminate.
  intros k P Hk HP. assert (k = 0%nat) as -> by lia.
  injection HP as <-. discriminate.
Defined.

Lemma scanStackOperands_inr BC (NumDefs : nat) (ops : list MCOperand)
    (opIdx : nat) (usesSP modifiesSP usesSP' modifiesSP' : bool) :
  scanStackOperands BC NumDefs ops opIdx usesSP modifiesSP
  = inr (usesSP', modifiesSP') ->
  (forall r, In (Reg r) ops ->
     namesRegister BC (getFramePointer BC) r = false
     /\ namesRegister BC (getLinkRegister BC) r = false)
  /\ (modifiesSP' = false ->
      forall j r, ops !! j = Some (Reg r) ->
        namesRegister BC (getStackPointer BC) r = true ->
        (NumDefs <= opIdx + j)%nat)
  /\ (usesSP' = false ->
      forall r, In (Reg r) ops ->
        namesRegister BC (getStackPointer BC) r = false).
Proof.
  revert opIdx usesSP modifiesSP.
  induction ops as [|Op rest IH]; intros opIdx usesSP modifiesSP; simpl.
  - intros _. split; [intros r []|]. split; [intros _ j r H; discriminate|].
    intros _ r [].
  - unfold namesRegister in *. destruct Op as [r0| | |]; simpl;
      try (intros H; destruct (IH _ _ _ H) as (H1 & H2 & H3);
           split; [intros r [Hr|Hr]; [discriminate|apply H1, Hr]|];
           split; [intros Hm [|j] r Hj Hn; [discriminate|];
                   specialize (H2 Hm j r Hj Hn); lia|];
           intros Hu r [Hr|Hr]; [discriminate|apply H3; assumption]).
    destruct ((r0 =? getFramePointer BC) || isSubRegisterEq BC (getFramePointer BC) r0
              || (r0 =? getLinkRegister BC)
              || isSubRegisterEq BC (getLinkRegister BC) r0) eqn:Hfl;
      [discriminate|].
    apply orb_false_iff in Hfl as [Hfl Hl2]. apply orb_false_iff in Hfl as [Hf Hl1].
    destruct ((r0 =? getStackPointer BC) || isSubRegisterEq BC (getStackPointer BC) r0)
      eqn:Hsp.
    + intros H. destruct (IH _ _ _ H) as (H1 & H2 & H3).
      assert (Hflags : usesSP' = true
                       /\ (modifiesSP' = false -> (NumDefs <= opIdx)%nat)).
      { clear -H. revert H. generalize (S opIdx).
        assert (G : forall ops n u m u' m',
                   scanStackOperands BC NumDefs ops n u m = inr (u', m') ->
                   (u = true -> u' = true) /\ (m = true -> m' = true)).
        { clear. induction ops as [|Op rest IH]; intros n u m u' m'; simpl.
          - intros H. injection H as <- <-. auto.
          - destruct Op as [r| | |]; try apply IH.
            destruct ((r =? getFramePointer BC)
                      || isSubRegisterEq BC (getFramePointer BC) r
                      || (r =? getLinkRegister BC)
                      || isSubRegisterEq BC (getLinkRegister BC) r); [discriminate|].
            destruct ((r =? getStackPointer BC)
                      || isSubRegisterEq BC (getStackPointer BC) r).
            + intros H. apply IH in H as [Hu Hm].
              split; [intros _; apply Hu; reflexivity|].
              intros ->. apply Hm. reflexivity.
            + apply IH. }
        intros n H. apply G in H as [Hu Hm]. split; [apply Hu; reflexivity|].
        intros Hm'. destruct (opIdx <? NumDefs)%nat eqn:E.
        - rewrite orb_true_r in Hm. rewrite Hm in Hm' by reflexivity. discriminate.
        - apply Nat.ltb_ge in E. exact E. }
      destruct Hflags as [Hu' Hm'].
      split; [intros r [Hr|Hr]; [injection Hr as <-; rewrite Hf, Hl1; auto
                                |apply H1, Hr]|].
      split.
      * intros Hm [|j] r Hj Hn; simpl in Hj.
        -- specialize (Hm' Hm). lia.
        -- specialize (H2 Hm j r Hj Hn). lia.
      * intros Hu. rewrite Hu' in Hu. discriminate.
    + intros H. destruct (IH _ _ _ H) as (H1 & H2 & H3).
      split; [intros r [Hr|Hr]; [injection Hr as <-; rewrite Hf, Hl1; auto
                                |apply H1, Hr]|].
      split.
      * intros Hm [|j] r Hj Hn; simpl in Hj.
        -- injection Hj as <-. rewrite Hsp in Hn. discriminate.
        -- specialize (H2 Hm j r Hj Hn). lia.
      * intros Hu r [Hr|Hr]; [injection Hr as <-; exact Hsp|apply H3; assumption].
Qed.

(** The only early return of the operand loop carries reason 4. *)
Lemma scanStackOperands_inl BC (NumDefs : nat) (ops : list MCOperand)
    (opIdx : nat) (usesSP modifiesSP : bool) (reason : Z) :
  scanStackOperands BC NumDefs ops opIdx usesSP modifiesSP = inl reason ->
  reason = 4.
Proof.
  revert opIdx usesSP modifiesSP.
  induction ops as [|Op rest IH]; intros n u m; simpl; [discriminate|].
  destruct Op as [r| | |]; try apply IH.
  destruct ((r =? getFramePointer BC) || isSubRegisterEq BC (getFramePointer BC) r
            || (r =? getLinkRegister BC)
            || isSubRegisterEq BC (getLinkRegister BC) r).
  - intros E. injection E as <-. reflexivity.
  - destruct ((r =? getStackPointer BC)
              || isSubRegisterEq BC (getStackPointer BC) r); apply IH.
Qed.

(** X6.  An accepted instruction that is neither a call nor a branch is a
    real instruction (no opcode 0, pseudo, CFI or return), on AArch64 not a
    PC-relative materialisation, names neither FP nor LR nor a sub-register
    of them, and names SP only as a source: never among its definitions,
    never in a store, and in a window shorter than 5 only in a load that
    carries an immediate. *)
Theorem accepted_instruction_discipline BC (Inst : MCInst) (len : Z)
    (allowBranch isLastInSeq : bool) (BB : list MCInst) (seqStartIdx instIdx : nat) :
  shouldRejectInstruction BC Inst len allowBranch isLastInSeq BB seqStartIdx instIdx
  = 0 ->
  MIB_isCall BC Inst = false ->
  MIA_isBranch BC Inst = false ->
  (getOpcode Inst <> 0 /\ MIB_isPseudo BC Inst = false /\ MIB_isCFI BC Inst = false
   /\ MIB_isReturn BC Inst = false)
  /\ (isAArch64 BC = true ->
      isPCRelativeName (getOpcodeName BC (getOpcode Inst)) = false)
  /\ (forall r, In (Reg r) (Operands Inst) ->
        namesRegister BC (getFramePointer BC) r = false
        /\ namesRegister BC (getLinkRegister BC) r = false)
  /\ (forall j r, Operands Inst !! j = Some (Reg r) ->
        namesRegister BC (getStackPointer BC) r = true ->
        (getNumDefs BC (getOpcode Inst) <= j)%nat
        /\ mayStore BC (getOpcode Inst) = false
        /\ (len < 5 -> mayLoad BC (getOpcode Inst) = true
                       /\ existsb isImm (Operands Inst) = true)).
Proof.
  unfold shouldRejectInstruction. intros H Hcall Hbr. rewrite Hcall, Hbr in H.
  destruct (getOpcode Inst =? 0) eqn:Hop; [discriminate|]. apply Z.eqb_neq in Hop.
  destruct (MIB_isPseudo BC Inst); [discriminate|].
  destruct (MIB_isCFI BC Inst); [discriminate|].
  destruct (MIB_isReturn BC Inst); [discriminate|]. simpl in H.
  split; [auto|].
  destruct (isAArch64 BC && isPCRelativeName (getOpcodeName BC (getOpcode Inst)))
    eqn:Hpc; [discriminate|].
  split.
  { intros Ha. rewrite Ha in Hpc. exact Hpc. }
  destruct (scanStackOperands BC (getNumDefs BC (getOpcode Inst)) (Operands Inst)
              0 false false) as [reason|[usesSP modifiesSP]] eqn:Hscan.
  { apply scanStackOperands_inl in Hscan. subst reason. discriminate. }
  destruct (scanStackOperands_inr _ _ _ _ _ _ _ _ Hscan) as (Hfl & Hdefs & Huse).
  split; [exact Hfl|].
  intros j r Hj Hn.
  destruct modifiesSP; [discriminate|].
  destruct usesSP.
  2:{ rewrite (Huse eq_refl r) in Hn; [discriminate|]. eapply lookup_In, Hj. }
  simpl in H. split; [apply (Hdefs eq_refl j r Hj Hn)|].
  destruct (mayStore BC (getOpcode Inst)); [discriminate|]. split; [reflexivity|].
  intros Hlen. assert (E : (5 <=? len) = false) by (apply Z.leb_gt; exact Hlen).
  rewrite E in H. simpl in H.
  destruct (mayLoad BC (getOpcode Inst)); [|discriminate]. simpl in H.
  destruct (existsb isImm (Operands Inst)); [|discriminate]. auto.
Qed.

Lemma accepted_instruction_discipline_witness :
  (getOpcode (Demo.ldr 0 31 1) <> 0
   /\ MIB_isPseudo Demo.AArch64 (Demo.ldr 0 31 1) = false
   /\ MIB_isCFI Demo.AArch64 (Demo.ldr 0 31 1) = false
   /\ MIB_isReturn Demo.AArch64 (Demo.ldr 0 31 1) = false)
  /\ (isAArch64 Demo.AArch64 = true ->
      isPCRelativeName (getOpcodeName Demo.AArch64 (getOpcode (Demo.ldr 0 31 1)))
      = false)
  /\ (forall r, In (Reg r) (Operands (Demo.ldr 0 31 1)) ->
        namesRegister Demo.AArch64 (getFramePointer Demo.AArch64) r = false
        /\ namesRegister Demo.AArch64 (getLinkRegister Demo.AArch64) r = false)
  /\ (forall j r, Operands (Demo.ldr 0 31 1) !! j = Some (Reg r) ->
        namesRegister Demo.AArch64 (getStackPointer Demo.AArch64) r = true ->
        (getNumDefs Demo.AArch64 (getOpcode (Demo.ldr 0 31 1)) <= j)%nat
        /\ mayStore Demo.AArch64 (getOpcode (Demo.ldr 0 31 1)) = false
        /\ (2 < 5 -> mayLoad Demo.AArch64 (getOpcode (Demo.ldr 0 31 1)) = true
                     /\ existsb isImm (Operands (Demo.ldr 0 31 1)) = true)).
Proof.
  apply (accepted_instruction_discipline Demo.AArch64 (Demo.ldr 0 31 1) 2 false
           false [Demo.ldr 0 31 1; Demo.mov 1 1] 0 0); reflexivity.
Defined.

(** ** Successor choice *)

Lemma hottestSuccessor_spec (BF : BinaryFunction) (succs : list nat)
    (c0 : Z) (o0 : option nat) :
  let r := hottestSuccessor BF succs (c0, o0) in
  c0 <= fst r
  /\ (forall s SB, In s succs -> Blocks BF !! s = Some SB ->
        getKnownExecutionCount SB <= fst r)
  /\ ((fst r = c0 /\ snd r = o0)
      \/ exists s SB, In s succs /\ Blocks BF !! s = Some SB
           /\ getKnownExecutionCount SB = fst r /\ snd r = Some s /\ c0 < fst r).
Proof.
  unfold hottestSuccessor. revert c0 o0.
  induction succs as [|Succ rest IH]; intros c0 o0; simpl.
  - split; [lia|]. split; [intros s SB []|]. left. auto.
  - destruct (Blocks BF !! Succ) as [SuccBB|] eqn:HS.
    + simpl. destruct (c0 <? getKnownExecutionCount SuccBB) eqn:Hlt.
      * apply Z.ltb_lt in Hlt.
        destruct (IH (getKnownExecutionCount SuccBB) (Some Succ)) as (H1 & H2 & H3).
        split; [lia|]. split.
        -- intros s SB [<-|Hin] HSB; [|apply (H2 s SB Hin HSB)].
           rewrite HS in HSB. injection HSB as <-. exact H1.
        -- right. destruct H3 as [[Hc Ho]|(s & SB & Hin & HSB & Hc & Ho & Hgt)].
           ++ exists Succ, SuccBB. repeat split; auto; lia.
           ++ exists s, SB. repeat split; auto; lia.
      * apply Z.ltb_ge in Hlt.
        destruct (IH c0 o0) as (H1 & H2 & H3).
        split; [exact H1|]. split.
        -- intros s SB [<-|Hin] HSB; [|apply (H2 s SB Hin HSB)].
           rewrite HS in HSB. injection HSB as <-. lia.
        -- destruct H3 as [H3|(s & SB & Hin & HSB & Hc & Ho & Hgt)]; [left; exact H3|].
           right. exists s, SB. repeat split; auto.
    + destruct (IH c0 o0) as (H1 & H2 & H3).
      split; [exact H1|]. split.
      * intros s SB [<-|Hin] HSB; [congruence|apply (H2 s SB Hin HSB)].
      * destruct H3 as [H3|(s & SB & Hin & HSB & Hc & Ho & Hgt)]; [left; exact H3|].
        right. exists s, SB. repeat split; auto.
Qed.

(** The choice among the successors [succs] of a block that does not end in
    an unconditional branch. *)
Lemma chosen_successor_hottest (BF : BinaryFunction) (succs : list nat)
    (first n : nat) (o0 : option nat) :
  In first succs ->
  (o0 = Some first \/ o0 = None) ->
  match snd (hottestSuccessor BF succs (0, o0)) with
  | Some NextBB => NextBB
  | None => first
  end = n ->
  In n succs
  /\ forall s SB NB, In s succs -> Blocks BF !! s = Some SB ->
       Blocks BF !! n = Some NB -> 0 <= getKnownExecutionCount NB ->
       getKnownExecutionCount SB <= getKnownExecutionCount NB.
Proof.
  intros Hfirst Ho0 Hn.
  destruct (hottestSuccessor_spec BF succs 0 o0) as (H1 & H2 & H3).
  destruct H3 as [[Hc Ho]|(s & SB & Hin & HSB & Hc & Ho & Hgt)].
  - assert (n = first) as ->.
    { rewrite Ho in Hn. destruct Ho0 as [-> | ->]; symmetry; exact Hn. }
    split; [exact Hfirst|]. intros s SB NB Hs HSB HNB Hpos.
    specialize (H2 s SB Hs HSB). lia.
  - rewrite Ho in Hn. subst n. split; [exact Hin|].
    intros s' SB' NB Hs' HSB' HNB _. rewrite HSB in HNB. injection HNB as <-.
    rewrite Hc. apply (H2 s' SB' Hs' HSB').
Qed.

(** X7.  [getNextBasicBlock] yields no block exactly when the block is
    missing or empty, has no successor, or ends in an unconditional branch.
    The block it yields is one of the successors, and among the successors
    none has a larger known execution count. *)
Theorem getNextBasicBlock_hottest_successor BC (BF : BinaryFunction) (b : nat) :
  (getNextBasicBlock BC BF b = None <->
   forall Cur, Blocks BF !! b = Some Cur ->
     Instructions Cur = [] \/ Successors Cur = []
     \/ exists LastInst, last (Instructions Cur) = Some LastInst
          /\ MIA_isBranch BC LastInst = true
          /\ MIB_isUnconditionalBranch BC LastInst = true)
  /\ (forall n, getNextBasicBlock BC BF b = Some n ->
        exists Cur, Blocks BF !! b = Some Cur
          /\ In n (Successors Cur)
          /\ forall s SB NB, In s (Successors Cur) -> Blocks BF !! s = Some SB ->
               Blocks BF !! n = Some NB -> 0 <= getKnownExecutionCount NB ->
               getKnownExecutionCount SB <= getKnownExecutionCount NB).
Proof.
  unfold getNextBasicBlock.
  destruct (Blocks BF !! b) as [Cur|] eqn:HCur.
  2:{ split; [split; [intros _ Cur H; discriminate|reflexivity]|discriminate]. }
  destruct (last (Instructions Cur)) as [LastInst|] eqn:Hlast.
  2:{ apply last_None in Hlast. split; [|discriminate].
      split; [|reflexivity]. intros _ C HC. injection HC as <-. left. exact Hlast. }
  assert (Hne : Instructions Cur <> []).
  { intros E. rewrite E in Hlast. discriminate. }
  destruct (MIA_isBranch BC LastInst) eqn:Hbr;
    destruct (MIB_isUnconditionalBranch BC LastInst) eqn:Hun; simpl.
  - (* unconditional branch *)
    split; [|discriminate]. split; [|reflexivity].
    intros _ C HC. injection HC as <-. right. right. exists LastInst. auto.
  - (* conditional branch *)
    destruct (Successors Cur) as [|first rest] eqn:Hsucc.
    { split; [|discriminate]. split; [|reflexivity].
      intros _ C HC. injection HC as <-. right. left. exact Hsucc. }
    assert (Hsome : exists n,
               match rest with
               | [] => Some first
               | _ => snd (hottestSuccessor BF (first :: rest) (0, Some first))
               end = Some n
               /\ (match snd (hottestSuccessor BF (first :: rest) (0, Some first)) with
                   | Some NextBB => NextBB
                   | None => first
                   end = n \/ (rest = [] /\ n = first))).
    { destruct rest as [|second rest'].
      - exists first. split; [reflexivity|]. right. auto.
      - destruct (hottestSuccessor_spec BF (first :: second :: rest') 0 (Some first))
          as (_ & _ & [[_ Ho]|(s & SB & _ & _ & _ & Ho & _)]); rewrite Ho; eauto. }
    destruct Hsome as (n0 & -> & Hn0). split.
    { split; [discriminate|]. intros H.
      destruct (H Cur eq_refl) as [E|[E|(L & HL & HB & HU)]]; congruence. }
    intros n E. injection E as <-. exists Cur. split; [reflexivity|].
    rewrite Hsucc. destruct Hn0 as [Hn0|[-> ->]].
    + apply (chosen_successor_hottest BF (first :: rest) first n0 (Some first));
        [left; reflexivity|left; reflexivity|exact Hn0].
    + split; [left; reflexivity|].
      intros s SB NB [<-|[]] HSB HNB _. rewrite HSB in HNB. injection HNB as <-. lia.
  - (* a non-branch the host calls unconditional *)
    destruct (Successors Cur) as [|first rest] eqn:Hsucc.
    { split; [|discriminate]. split; [|reflexivity].
      intros _ C HC. injection HC as <-. right. left. exact Hsucc. }
    assert (Hsome : exists n,
               match rest with
               | [] => Some first
               | _ :: _ =>
                   match snd (hottestSuccessor BF (first :: rest) (0, None)) with
                   | Some NextBB => Some NextBB
                   | None => Some first
                   end
               end = Some n
               /\ (match snd (hottestSuccessor BF (first :: rest) (0, None)) with
                   | Some NextBB => NextBB
                   | None => first
                   end = n \/ (rest = [] /\ n = first))).
    { destruct rest as [|second rest'].
      - exists first. split; [reflexivity|]. right. auto.
      - destruct (snd (hottestSuccessor BF (first :: second :: rest') (0, None)));
          eauto. }
    destruct Hsome as (n0 & -> & Hn0). split.
    { split; [discriminate|]. intros H.
      destruct (H Cur eq_refl) as [E|[E|(L & HL & HB & HU)]]; congruence. }
    intros n E. injection E as <-. exists Cur. split; [reflexivity|].
    rewrite Hsucc. destruct Hn0 as [Hn0|[-> ->]].
    + apply (chosen_successor_hottest BF (first :: rest) first n0 None);
        [left; reflexivity|right; reflexivity|exact Hn0].
    + split; [left; reflexivity|].
      intros s SB NB [<-|[]] HSB HNB _. rewrite HSB in HNB. injection HNB as <-. lia.
  - (* not a branch *)
    destruct (Successors Cur) as [|first rest] eqn:Hsucc.
    { split; [|discriminate]. split; [|reflexivity].
      intros _ C HC. injection HC as <-. right. left. exact Hsucc. }
    assert (Hsome : exists n,
               match rest with
               | [] => Some first
               | _ :: _ =>
                   match snd (hottestSuccessor BF (first :: rest) (0, None)) with
                   | Some NextBB => Some NextBB
                   | None => Some first
                   end
               end = Some n
               /\ (match snd (hottestSuccessor BF (first :: rest) (0, None)) with
                   | Some NextBB => NextBB
                   | None => first
                   end = n \/ (rest = [] /\ n = first))).
    { destruct rest as [|second rest'].
      - exists first. split; [reflexivity|]. right. auto.
      - destruct (snd (hottestSuccessor BF (first :: second :: rest') (0, None)));
          eauto. }
    destruct Hsome as (n0 & -> & Hn0). split.
    { split; [discriminate|]. intros H.
      destruct (H Cur eq_refl) as [E|[E|(L & HL & HB & HU)]]; congruence. }
    intros n E. injection E as <-. exists Cur. split; [reflexivity|].
    rewrite Hsucc. destruct Hn0 as [Hn0|[-> ->]].
    + apply (chosen_successor_hottest BF (first :: rest) first n0 None);
        [left; reflexivity|right; reflexivity|exact Hn0].
    + split; [left; reflexivity|].
      intros s SB NB [<-|[]] HSB HNB _. rewrite HSB in HNB. injection HNB as <-. lia.
Qed.

Lemma getNextBasicBlock_hottest_successor_witness :
  exists Cur, Blocks Demo.hotFunction !! 0%nat = Some Cur
    /\ In 2%nat (Successors Cur)
    /\ forall s SB NB, In s (Successors Cur) ->
         Blocks Demo.hotFunction !! s = Some SB ->
         Blocks Demo.hotFunction !! 2%nat = Some NB ->
         0 <= getKnownExecutionCount NB ->
         getKnownExecutionCount SB <= getKnownExecutionCount NB.
Proof.
  destruct (getNextBasicBlock_hottest_successor Demo.AArch64 Demo.hotFunction 0)
    as (_ & H).
  apply (H 2%nat). reflexivity.
Defined.

(** ** Sequence extractor *)

Lemma windowAccepted_spec BC (len : Z) (BB : list MCInst) (i : nat)
    (window : list MCInst) (j len_size : nat) :
  windowAccepted BC len BB i window j len_size = true <->
  forall k Inst, window !! k = Some Inst ->
    shouldRejectInstruction BC Inst len false (S (j + k) =? len_size)%nat BB i
      (i + (j + k)) = 0.
Proof.
  revert j. induction window as [|Inst rest IH]; intros j; cbn [windowAccepted].
  - split; [intros _ k I H; discriminate|reflexivity].
  - destruct (shouldRejectInstruction BC Inst len false (S j =? len_size)%nat BB i
                (i + j) =? 0) eqn:E.
    + apply Z.eqb_eq in E. rewrite IH. split.
      * intros H [|k] I HI; simpl in HI.
        -- injection HI as <-. rewrite Nat.add_0_r. exact E.
        -- replace (j + S k)%nat with (S j + k)%nat by lia. apply H, HI.
      * intros H k I HI. replace (S j + k)%nat with (j + S k)%nat by lia.
        apply (H (S k)), HI.
    + apply Z.eqb_neq in E. split; [discriminate|]. intros H. exfalso. apply E.
      specialize (H 0%nat Inst eq_refl). rewrite Nat.add_0_r in H. exact H.
Qed.

Lemma blockWindows_In BC (len : Z) (BB : list MCInst) (len_size i count : nat)
    (seq : InstructionSequence) :
  In seq (blockWindows BC len BB len_size i count) <->
  exists i', (i <= i' < i + count)%nat
    /\ seq = take len_size (drop i' BB)
    /\ windowAccepted BC len BB i' seq 0 len_size = true.
Proof.
  revert i. induction count as [|count IH]; intros i; simpl.
  - split; [intros []|]. intros (i' & Hi & _). lia.
  - rewrite in_app_iff, IH. split.
    + intros [H|(i' & Hi & Hs & Hw)].
      * destruct (windowAccepted BC len BB i (take len_size (drop i BB)) 0 len_size)
          eqn:E; [|destruct H].
        destruct H as [<-|[]]. exists i. split; [lia|]. split; [reflexivity|exact E].
      * exists i'. split; [lia|]. auto.
    + intros (i' & Hi & Hs & Hw).
      destruct (decide (i' = i)) as [->|Hne].
      * left. subst seq. rewrite Hw. left. reflexivity.
      * right. exists i'. split; [lia|]. auto.
Qed.

Lemma getAllseqs_In (P : PostLinkOutlining) BC (BF : BinaryFunction) (len : Z)
    (seq : InstructionSequence) :
  In seq (getAllseqs P BC BF len) <->
  PostLinkOutliningMinLength P <= len <= LargestLength P
  /\ hasEHRanges BF = false
  /\ 0 <= len
  /\ exists BB i,
       In BB (Blocks BF)
       /\ bbSize BB <> 0%nat
       /\ EnablePGO P && hasProfile BB && (1 <? getKnownExecutionCount BB) = false
       /\ (i + Z.to_nat len <= bbSize BB)%nat
       /\ seq = take (Z.to_nat len) (drop i (Instructions BB))
       /\ forall j Inst, seq !! j = Some Inst ->
            shouldRejectInstruction BC Inst len false (S j =? Z.to_nat len)%nat
              (Instructions BB) i (i + j) = 0.
Proof.
  unfold getAllseqs.
  destruct (len <? PostLinkOutliningMinLength P) eqn:Hmin; cbn [orb].
  { apply Z.ltb_lt in Hmin. split; [intros []|]. intros (H & _). lia. }
  destruct (LargestLength P <? len) eqn:Hmax; cbn [orb].
  { apply Z.ltb_lt in Hmax. split; [intros []|]. intros (H & _). lia. }
  apply Z.ltb_ge in Hmin, Hmax.
  destruct (hasEHRanges BF) eqn:HEH.
  { split; [intros []|]. intros (_ & H & _). discriminate. }
  rewrite in_flat_map. split.
  - intros (BB & HBB & Hin).
    destruct (bbSize BB =? 0)%nat eqn:Hz; [destruct Hin|].
    destruct (EnablePGO P && hasProfile BB && (1 <? getKnownExecutionCount BB))
      eqn:Hhot; [destruct Hin|].
    destruct (len <? 0) eqn:Hneg; cbn [orb] in Hin; [destruct Hin|].
    destruct (bbSize BB <? Z.to_nat len)%nat eqn:Hsmall; [destruct Hin|].
    apply Z.ltb_ge in Hneg. apply Nat.ltb_ge in Hsmall. apply Nat.eqb_neq in Hz.
    apply blockWindows_In in Hin as (i & Hi & Hs & Hw).
    split; [lia|]. split; [reflexivity|]. split; [exact Hneg|].
    exists BB, i. split; [exact HBB|]. split; [exact Hz|]. split; [exact Hhot|].
    split; [lia|]. split; [exact Hs|].
    intros j Inst Hj. apply (proj1 (windowAccepted_spec _ _ _ _ _ _ _) Hw j Inst Hj).
  - intros (_ & _ & Hneg & BB & i & HBB & Hz & Hhot & Hi & Hs & Hacc).
    exists BB. split; [exact HBB|].
    apply Nat.eqb_neq in Hz. rewrite Hz, Hhot.
    assert (E1 : (len <? 0) = false) by (apply Z.ltb_ge; exact Hneg).
    assert (E2 : (bbSize BB <? Z.to_nat len)%nat = false) by (apply Nat.ltb_ge; lia).
    rewrite E1, E2. cbn [orb].
    apply blockWindows_In. exists i. split; [lia|]. split; [exact Hs|].
    apply windowAccepted_spec. intros k Inst Hk. apply Hacc, Hk.
Qed.

(** X8.  The windows [getAllseqs] returns for length [len] are exactly the
    runs of [len] consecutive instructions of one non-empty block in which
    every instruction passes the filter (with [allowBranch] false and the
    last-position flag on the final instruction only), provided [len] lies
    between the minimum and the largest length, the function has no
    exception ranges, and, under profile filtering, the block either has no
    profile or ran at most once. *)
Theorem getAllseqs_characterisation (P : PostLinkOutlining) BC
    (BF : BinaryFunction) (len : Z) (seq : InstructionSequence) :
  In seq (getAllseqs P BC BF len) <->
  PostLinkOutliningMinLength P <= len <= LargestLength P
  /\ hasEHRanges BF = false
  /\ 0 <= len
  /\ exists BB i,
       In BB (Blocks BF)
       /\ bbSize BB <> 0%nat
       /\ EnablePGO P && hasProfile BB && (1 <? getKnownExecutionCount BB) = false
       /\ (i + Z.to_nat len <= bbSize BB)%nat
       /\ seq = take (Z.to_nat len) (drop i (Instructions BB))
       /\ forall j Inst, seq !! j = Some Inst ->
            shouldRejectInstruction BC Inst len false (S j =? Z.to_nat len)%nat
              (Instructions BB) i (i + j) = 0.
Proof. apply getAllseqs_In. Qed.

Lemma getAllseqs_characterisation_witness :
  In Demo.window5 (getAllseqs Demo.defaultPass Demo.AArch64 Demo.leafFunction 5).
Proof.
  apply getAllseqs_characterisation.
  split; [change (2 <= 5 <= 32); lia|]. split; [reflexivity|]. split; [lia|].
  exists (mkBB (Demo.threeCopies ++ [Demo.ret]) [] false 0), 6%nat.
  split; [left; reflexivity|]. split; [discriminate|]. split; [reflexivity|].
  split; [vm_compute; lia|]. split; [reflexivity|].
  intros j Inst Hj.
  do 5 (destruct j as [|j]; [injection Hj as <-; reflexivity|]).
  discriminate.
Defined.

Lemma accepted_basic BC (Inst : MCInst) (len : Z) (allowBranch isLastInSeq : bool)
    (BB : list MCInst) (seqStartIdx instIdx : nat) :
  shouldRejectInstruction BC Inst len allowBranch isLastInSeq BB seqStartIdx instIdx
  = 0 ->
  getOpcode Inst <> 0 /\ MIB_isPseudo BC Inst = false /\ MIB_isCFI BC Inst = false
  /\ MIB_isReturn BC Inst = false
  /\ (MIB_isCall BC Inst = true -> isLastInSeq = true)
  /\ (MIA_isBranch BC Inst = true -> MIB_isCall BC Inst = false ->
      isLastInSeq = true /\ MIB_isUnconditionalBranch BC Inst = false).
Proof.
  unfold shouldRejectInstruction.
  destruct (getOpcode Inst =? 0) eqn:Hop; [discriminate|]. apply Z.eqb_neq in Hop.
  destruct (MIB_isPseudo BC Inst); [discriminate|].
  destruct (MIB_isCFI BC Inst); [discriminate|].
  destruct (MIB_isReturn BC Inst); [discriminate|]. simpl.
  destruct (MIB_isCall BC Inst).
  - destruct isLastInSeq; [|discriminate]. intros _. repeat split; auto; discriminate.
  - destruct (MIA_isBranch BC Inst).
    + destruct isLastInSeq; [|discriminate].
      destruct (MIB_isUnconditionalBranch BC Inst); [discriminate|].
      intros _. repeat split; auto; discriminate.
    + intros _. repeat split; auto; discriminate.
Qed.

(** X9.  Every window [getAllseqs] returns has exactly [len] instructions;
    none of them is a return, a pseudo or CFI instruction or has opcode 0;
    a call can only be the last instruction; a branch that is not also a
    call can only be the last instruction, and then it is conditional. *)
Theorem extracted_window_safety (P : PostLinkOutlining) BC (BF : BinaryFunction)
    (len : Z) (seq : InstructionSequence) (j : nat) (Inst : MCInst) :
  In seq (getAllseqs P BC BF len) ->
  seq !! j = Some Inst ->
  length seq = Z.to_nat len
  /\ getOpcode Inst <> 0 /\ MIB_isPseudo BC Inst = false /\ MIB_isCFI BC Inst = false
  /\ MIB_isReturn BC Inst = false
  /\ (MIB_isCall BC Inst = true -> S j = length seq)
  /\ (MIA_isBranch BC Inst = true -> MIB_isCall BC Inst = false ->
      S j = length seq /\ MIB_isUnconditionalBranch BC Inst = false).
Proof.
  intros Hin Hj.
  apply getAllseqs_In in Hin
    as (_ & _ & Hneg & BB & i & _ & _ & _ & Hi & Hs & Hacc).
  assert (Hlen : length seq = Z.to_nat len).
  { rewrite Hs, length_take, length_drop. unfold bbSize in Hi. lia. }
  split; [exact Hlen|].
  destruct (accepted_basic _ _ _ _ _ _ _ _ (Hacc j Inst Hj))
    as (H1 & H2 & H3 & H4 & H5 & H6).
  repeat split; auto.
  - intros Hc. apply H5 in Hc. apply Nat.eqb_eq in Hc. lia.
  - destruct (H6 H H0) as [Hc _]. apply Nat.eqb_eq in Hc. lia.
  - destruct (H6 H H0) as [_ Hu]. exact Hu.
Qed.

Lemma extracted_window_safety_witness :
  length Demo.window5 = Z.to_nat 5
  /\ getOpcode (Demo.mov 1 1) <> 0
  /\ MIB_isPseudo Demo.AArch64 (Demo.mov 1 1) = false
  /\ MIB_isCFI Demo.AArch64 (Demo.mov 1 1) = false
  /\ MIB_isReturn Demo.AArch64 (Demo.mov 1 1) = false
  /\ (MIB_isCall Demo.AArch64 (Demo.mov 1 1) = true -> 1%nat = length Demo.window5)
  /\ (MIA_isBranch Demo.AArch64 (Demo.mov 1 1) = true ->
      MIB_isCall Demo.AArch64 (Demo.mov 1 1) = false ->
      1%nat = length Demo.window5
      /\ MIB_isUnconditionalBranch Demo.AArch64 (Demo.mov 1 1) = false).
Proof.
  apply (extracted_window_safety Demo.defaultPass Demo.AArch64 Demo.leafFunction 5
           Demo.window5 0 (Demo.mov 1 1)); [|reflexivity].
  vm_compute. left. reflexivity.
Defined.

Lemma concat_imap_flat_map {A B} (f : nat -> A -> list B) (g : A -> list B)
    (l : list A) :
  (forall b x, f b x = g x) -> concat (imap f l) = flat_map g l.
Proof.
  revert f. induction l as [|x l IH]; intros f H; simpl; [reflexivity|].
  rewrite H. f_equal. apply IH. intros b y. apply H.
Qed.

(** X10.  The cross-block extraction written in [getAllseqs] is never
    reached: a block shorter than the window is skipped before the guard
    [numInsts > 0 && numInsts < len_size] is tested, so the function with
    that part included returns the same windows as without it. *)
Theorem getAllseqs_cross_block_unreachable (P : PostLinkOutlining) BC
    (BF : BinaryFunction) (len : Z) :
  getAllseqs_full P BC BF len = getAllseqs P BC BF len.
Proof.
  unfold getAllseqs_full, getAllseqs.
  destruct ((len <? PostLinkOutliningMinLength P) || (LargestLength P <? len));
    [reflexivity|].
  destruct (hasEHRanges BF); [reflexivity|].
  apply concat_imap_flat_map. intros b BB.
  destruct (bbSize BB =? 0)%nat; [reflexivity|].
  destruct (EnablePGO P && hasProfile BB && (1 <? getKnownExecutionCount BB));
    [reflexivity|].
  destruct (len <? 0); cbn [orb]; [reflexivity|].
  destruct (bbSize BB <? Z.to_nat len)%nat; [reflexivity|].
  rewrite andb_false_r, app_nil_r. reflexivity.
Qed.

(** ** Fingerprint and grouping *)

Lemma hashOperand_replaceExpr h (f : MCExpr -> MCExpr) (st : HashState)
    (Op : MCOperand) :
  hashOperand h st (replaceExpr f Op) = hashOperand h st Op.
Proof. destruct Op; reflexivity. Qed.

Lemma hashOperands_replaceExpr h (f : MCExpr -> MCExpr) (ops : list MCOperand)
    (st : HashState) :
  fold_left (hashOperand h) (replaceExpr f <$> ops) st
  = fold_left (hashOperand h) ops st.
Proof.
  revert st. induction ops as [|Op ops IH]; intros st; simpl; [reflexivity|].
  rewrite hashOperand_replaceExpr. apply IH.
Qed.

Lemma hashInsts_replaceExprs h (f : MCExpr -> MCExpr) (W : InstructionSequence)
    (st : HashState) :
  fold_left (hashInst h) (replaceExprs f W) st = fold_left (hashInst h) W st.
Proof.
  revert st. induction W as [|Inst W IH]; intros st; simpl; [reflexivity|].
  unfold replaceExprs in IH. rewrite IH. f_equal.
  unfold hashInst. simpl. apply hashOperands_replaceExpr.
Qed.

Lemma wrap_u64_range (z : Z) : 0 <= wrap_u64 z < 2 ^ 64.
Proof. unfold wrap_u64. apply Z.mod_pos_bound. reflexivity. Qed.

Lemma hashOperand_range h (st : HashState) (Op : MCOperand) :
  0 <= hsHash (hashOperand h st Op) < 2 ^ 64.
Proof.
  destruct Op; simpl; try apply wrap_u64_range.
  destruct (normalizeRegister r (hsRegMap st) (hsNextRegId st)) as [[? ?] ?].
  apply wrap_u64_range.
Qed.

Lemma hashOperands_range h (ops : list MCOperand) (st : HashState) :
  0 <= hsHash st < 2 ^ 64 ->
  0 <= hsHash (fold_left (hashOperand h) ops st) < 2 ^ 64.
Proof.
  revert st. induction ops as [|Op ops IH]; intros st H; simpl; [exact H|].
  apply IH, hashOperand_range.
Qed.

Lemma hashInsts_range h (W : InstructionSequence) (st : HashState) :
  0 <= hsHash st < 2 ^ 64 ->
  0 <= hsHash (fold_left (hashInst h) W st) < 2 ^ 64.
Proof.
  revert st. induction W as [|Inst W IH]; intros st H; simpl; [exact H|].
  apply IH. unfold hashInst. apply hashOperands_range. simpl. apply wrap_u64_range.
Qed.

(** X11.  The fingerprint is a 64-bit value and does not read expression
    operands: replacing the expressions of a window (the target of a call
    or branch) by any others leaves the hash unchanged, so the grouping
    test declares the two windows a match. *)
Theorem getHash_ignores_expressions h BC (f : MCExpr -> MCExpr)
    (W : InstructionSequence) :
  getHash h (replaceExprs f W) = getHash h W
  /\ 0 <= getHash h W < 2 ^ 64
  /\ sequencesMatch h BC W (replaceExprs f W) = true.
Proof.
  assert (H : getHash h (replaceExprs f W) = getHash h W).
  { unfold getHash. rewrite hashInsts_replaceExprs. reflexivity. }
  split; [exact H|]. split.
  - unfold getHash. apply hashInsts_range. simpl. unfold FNV_offset_basis. lia.
  - unfold sequencesMatch. rewrite H, Z.eqb_refl. reflexivity.
Qed.

Lemma wrap_i32_succ (z : Z) : wrap_i32 (wrap_i32 z + 1) = wrap_i32 (z + 1).
Proof.
  unfold wrap_i32.
  replace ((z + 2 ^ 31) mod 2 ^ 32 - 2 ^ 31 + 1 + 2 ^ 31)
    with ((z + 2 ^ 31) mod 2 ^ 32 + 1) by lia.
  rewrite Zplus_mod_idemp_l. f_equal. f_equal. lia.
Qed.

Lemma groupFold_inv h BC (seqs : list InstructionSequence) (Labeled : gset nat)
    (i : nat) (js : list nat) (st : GroupState) (tail : list nat) :
  Forall (fun j => (i < j < length seqs)%nat) js ->
  NoDup (tail ++ js) ->
  groupInv h BC seqs Labeled i st tail ->
  exists tail',
    groupInv h BC seqs Labeled i (fold_left (groupStep h BC seqs i) js st) tail'
    /\ NoDup tail'.
Proof.
  revert st tail. induction js as [|j js IH]; intros st tail Hjs Hsorted Hinv; simpl.
  - exists tail. rewrite app_nil_r in Hsorted. auto.
  - inversion Hjs as [|? ? Hj Hjs']; subst.
    assert (Hkeep : NoDup (tail ++ js)).
    { apply NoDup_app in Hsorted as (H1 & H2 & H3). apply NoDup_app.
      split; [exact H1|]. split.
      - intros x Hx Hxj. apply (H2 x Hx). right. exact Hxj.
      - apply NoDup_cons in H3 as [_ H3]. exact H3. }
    assert (Hfresh : ~ In j (i :: tail)).
    { intros [->|Hin]; [lia|].
      apply NoDup_app in Hsorted as (_ & H2 & _).
      apply (H2 j); [apply list_elem_of_In, Hin|left]. }
    unfold groupStep at 2.
    destruct (hasOverlappedInstrs (seqAt seqs i) (seqAt seqs j)) eqn:Hov.
    { apply (IH st tail Hjs' Hkeep Hinv). }
    destruct (sequencesMatch h BC (seqAt seqs i) (seqAt seqs j)) eqn:Hm; simpl.
    2:{ apply (IH st tail Hjs' Hkeep Hinv). }
    destruct (bool_decide (j ∈ LabeledSequences st)) eqn:Hlab; simpl.
    { apply (IH st tail Hjs' Hkeep Hinv). }
    destruct (existsb (fun Accepted =>
                         hasOverlappedInstrs (seqAt seqs Accepted) (seqAt seqs j))
                      (CurrentMatches st)) eqn:Hacc.
    { apply (IH st tail Hjs' Hkeep Hinv). }
    destruct Hinv as (HCM & Hall & Hpair & HL & HF).
    apply (IH _ (tail ++ [j])); [exact Hjs'|rewrite <- app_assoc; exact Hsorted|].
    assert (Hin : forall a, In a (i :: tail ++ [j]) <-> In a (i :: tail) \/ a = j).
    { intros a. change (i :: tail ++ [j]) with ((i :: tail) ++ [j]).
      rewrite in_app_iff. simpl. intuition. }
    unfold groupInv. cbn [CurrentMatches LabeledSequences Frequency].
    split; [rewrite HCM; reflexivity|].
    split.
    { rewrite Forall_app. split; [exact Hall|]. constructor; [|constructor].
      split; [exact Hj|]. split; [|exact Hm].
      apply bool_decide_eq_false in Hlab. apply bool_decide_eq_false.
      rewrite HL in Hlab. intros Hc. apply Hlab, elem_of_union_r, Hc. }
    split.
    { assert (Hnew : forall a, In a (i :: tail) ->
                hasOverlappedInstrs (seqAt seqs a) (seqAt seqs j) = false).
      { intros a Ha. rewrite HCM in Hacc.
        destruct (hasOverlappedInstrs (seqAt seqs a) (seqAt seqs j)) eqn:E;
          [|reflexivity].
        rewrite <- Hacc. symmetry. apply existsb_exists. exists a. auto. }
      intros a b Ha Hb Hab. apply Hin in Ha, Hb.
      destruct Ha as [Ha| ->], Hb as [Hb| ->].
      - apply Hpair; assumption.
      - apply Hnew, Ha.
      - rewrite hasOverlappedInstrs_sym. apply Hnew, Hb.
      - contradiction. }
    split.
    { rewrite HL. change (i :: tail ++ [j]) with ((i :: tail) ++ [j]).
      rewrite list_to_set_app_L. apply set_eq. intros x.
      rewrite !elem_of_union, (elem_of_list_to_set x [j]), list_elem_of_singleton,
        elem_of_singleton.
      tauto. }
    rewrite HF. rewrite wrap_i32_succ. f_equal.
    simpl. rewrite length_app. simpl. lia.
Qed.

(** X12.  The grouping loop for anchor [i] keeps these facts: the matches
    start with the anchor and hold no window twice; every other match is a
    later window that was not labelled before, matches the anchor, and no
    two matches overlap; the labelled set afterwards is the old one plus the
    matches; [Frequency] is the number of matches (as an [int]). *)
Theorem groupAnchor_invariants h BC (seqs : list InstructionSequence)
    (Labeled : gset nat) (i : nat) :
  let gs := groupAnchor h BC seqs Labeled i in
  exists tail,
    CurrentMatches gs = i :: tail
    /\ NoDup (i :: tail)
    /\ Forall (fun j => (i < j < length seqs)%nat
                 /\ isLabeled (Some j) Labeled = false
                 /\ sequencesMatch h BC (seqAt seqs i) (seqAt seqs j) = true) tail
    /\ (forall a b, In a (i :: tail) -> In b (i :: tail) -> a <> b ->
          hasOverlappedInstrs (seqAt seqs a) (seqAt seqs b) = false)
    /\ (forall j, isLabeled (Some j) (LabeledSequences gs) = true
                  <-> In j (i :: tail) \/ isLabeled (Some j) Labeled = true)
    /\ Frequency gs = wrap_i32 (Z.of_nat (length (CurrentMatches gs))).
Proof.
  intros gs. subst gs. unfold groupAnchor.
  destruct (groupFold_inv h BC seqs Labeled i (seq (S i) (length seqs - S i))
              (mkGS ({[ i ]} ∪ Labeled) [i] 1) [])
    as (tail & (HCM & Hall & Hpair & HL & HF) & Hnd).
  - apply Forall_forall. intros j Hj. apply list_elem_of_In, in_seq in Hj. lia.
  - simpl. apply NoDup_ListNoDup, List.seq_NoDup.
  - unfold groupInv. simpl. repeat split; try constructor.
    + intros a b [<-|[]] [<-|[]] Hab. contradiction.
    + apply set_eq. intros x.
      rewrite !elem_of_union, elem_of_empty. tauto.
  - exists tail. split; [exact HCM|]. split.
    { constructor; [|exact Hnd]. intros Hin.
      rewrite Forall_forall in Hall. destruct (Hall i Hin) as [Hlt _]. lia. }
    split; [exact Hall|]. split; [exact Hpair|]. split.
    + intros j. unfold isLabeled.
      rewrite HL, !bool_decide_eq_true, elem_of_union, elem_of_list_to_set,
        <- (list_elem_of_In (i :: tail)).
      reflexivity.
    + rewrite HCM. exact HF.
Qed.

Lemma groupAnchor_invariants_witness :
  let seqs := [[Demo.mov 1 1; Demo.add 2 1 1]; [Demo.mov 3 7; Demo.add 4 3 3];
               [Demo.mov 5 9; Demo.add 6 5 5]] in
  let gs := groupAnchor Demo.std_hash_float Demo.AArch64 seqs ∅ 0 in
  Frequency gs = wrap_i32 (Z.of_nat (length (CurrentMatches gs))).
Proof.
  intros seqs gs.
  destruct (groupAnchor_invariants Demo.std_hash_float Demo.AArch64 seqs ∅ 0)
    as (tail & _ & _ & _ & _ & _ & HF).
  exact HF.
Defined.

(** ** Function synthesizer *)

Lemma mkInst_eta (Inst : MCInst) : mkInst (getOpcode Inst) (Operands Inst) = Inst.
Proof. destruct Inst. reflexivity. Qed.

Lemma copyBody_plain BC (Ctx : MCContext) (ReturnLabel : option string)
    (seq : InstructionSequence) :
  existsb (isConditionalBranch BC) seq = false ->
  copyBody BC Ctx ReturnLabel seq = (copied BC seq, ReturnLabel, Ctx).
Proof.
  induction seq as [|Inst rest IH]; simpl; [reflexivity|].
  intros H. apply orb_false_iff in H as [Hc Hrest].
  destruct (MIB_isCFI BC Inst || MIB_isPseudo BC Inst); simpl; [apply IH, Hrest|].
  rewrite Hc, (IH Hrest), mkInst_eta. reflexivity.
Qed.

Lemma redirectOperands_spec (Ctx : MCContext) (ReturnLabel : string)
    (ops : list MCOperand) :
  Forall2 (redirected ReturnLabel) ops (fst (redirectOperands Ctx ReturnLabel ops)).
Proof.
  revert Ctx. induction ops as [|Op rest IH]; intros Ctx; simpl; [constructor|].
  destruct Op as [r|v|e|b]; simpl;
    try (specialize (IH Ctx);
         destruct (redirectOperands Ctx ReturnLabel rest) as [rest' Ctx1];
         constructor; [reflexivity|exact IH]).
  specialize (IH (mkCtx (NextExprAddr Ctx + 1) (NextTempSymbol Ctx))).
  destruct (redirectOperands (mkCtx (NextExprAddr Ctx + 1) (NextTempSymbol Ctx))
              ReturnLabel rest) as [rest' Ctx2].
  constructor; [|exact IH]. simpl. eauto.
Qed.

Lemma copyBody_labelled BC (Ctx : MCContext) (L : string)
    (seq : InstructionSequence) :
  let r := copyBody BC Ctx (Some L) seq in
  snd (fst r) = Some L /\ Forall2 (copyOf BC L) (copied BC seq) (fst (fst r)).
Proof.
  revert Ctx. induction seq as [|Inst rest IH]; intros Ctx; simpl.
  - split; [reflexivity|constructor].
  - destruct (MIB_isCFI BC Inst || MIB_isPseudo BC Inst); simpl; [apply IH|].
    destruct (isConditionalBranch BC Inst) eqn:Hc.
    + pose proof (redirectOperands_spec Ctx L (Operands Inst)) as Hops.
      destruct (redirectOperands Ctx L (Operands Inst)) as [ops Ctx2].
      specialize (IH Ctx2).
      destruct (copyBody BC Ctx2 (Some L) rest) as [[body RL] Ctx3].
      simpl in *. destruct IH as [-> IH]. split; [reflexivity|].
      constructor; [|exact IH]. split; [reflexivity|]. rewrite Hc. exact Hops.
    + specialize (IH Ctx).
      destruct (copyBody BC Ctx (Some L) rest) as [[body RL] Ctx1].
      simpl in *. destruct IH as [-> IH]. split; [reflexivity|].
      constructor; [|exact IH]. split; [reflexivity|]. rewrite Hc.
      apply mkInst_eta.
Qed.

(** X13.  [createFunction] returns nothing for an empty window and leaves
    the counter alone.  For a non-empty window it returns an injected
    function named PLO_outlined_k, k the incremented counter, and names for
    different k differ.  Without a conditional branch the function has one
    block: the window without its CFI and pseudo instructions, then one
    return.  With a conditional branch it has two blocks: the copied
    instructions, in which every expression operand of a conditional branch
    refers to the return label and everything else is as in the window, and
    a second block holding only the return. *)
Theorem createFunction_shape BC (Ctx : MCContext) (OutlinedFunctionCount : nat)
    (seq : InstructionSequence) :
  createFunction BC Ctx OutlinedFunctionCount [] = (None, Ctx, OutlinedFunctionCount)
  /\ (forall k1 k2, k1 <> k2 -> outlinedName k1 <> outlinedName k2)
  /\ (seq <> [] ->
      existsb (isConditionalBranch BC) seq = false ->
      createFunction BC Ctx OutlinedFunctionCount seq
      = (Some (createInjectedBinaryFunction
                 (outlinedName (S OutlinedFunctionCount))
                 [newBlock (copied BC seq ++ [createReturn BC])]),
         mkCtx (NextExprAddr Ctx) (S (NextTempSymbol Ctx)),
         S OutlinedFunctionCount))
  /\ (existsb (isConditionalBranch BC) seq = true ->
      exists ReturnLabel body Ctx',
        createFunction BC Ctx OutlinedFunctionCount seq
        = (Some (createInjectedBinaryFunction
                   (outlinedName (S OutlinedFunctionCount))
                   [newBlock body; newBlock [createReturn BC]]),
           Ctx', S OutlinedFunctionCount)
        /\ Forall2 (copyOf BC ReturnLabel) (copied BC seq) body).
Proof.
  split; [reflexivity|]. split.
  { intros k1 k2 Hne Heq. apply Hne. unfold outlinedName in Heq.
    apply String.app_inj in Heq. apply pretty_nat_inj in Heq. exact Heq. }
  split.
  - intros Hne Hplain. destruct seq as [|Inst rest]; [contradiction|].
    unfold createFunction. rewrite Hplain.
    cbn [createNamedTempSymbol fst snd NextExprAddr NextTempSymbol].
    rewrite (copyBody_plain BC _ None _ Hplain). reflexivity.
  - intros Hcond. destruct seq as [|Inst rest]; [discriminate|].
    unfold createFunction. rewrite Hcond.
    cbn [createNamedTempSymbol fst snd NextExprAddr NextTempSymbol].
    pose proof (copyBody_labelled BC
                  (mkCtx (NextExprAddr Ctx) (S (S (NextTempSymbol Ctx))))
                  ("outlined_return" +:+ pretty (S (NextTempSymbol Ctx)))
                  (Inst :: rest)) as H.
    destruct (copyBody BC (mkCtx (NextExprAddr Ctx) (S (S (NextTempSymbol Ctx))))
                (Some ("outlined_return" +:+ pretty (S (NextTempSymbol Ctx))))
                (Inst :: rest)) as [[body RL] Ctx'].
    simpl in H. destruct H as [-> H].
    exists ("outlined_return" +:+ pretty (S (NextTempSymbol Ctx))), body, Ctx'.
    split; [reflexivity|exact H].
Qed.

Lemma createFunction_shape_witness :
  createFunction Demo.AArch64 Demo.ctx0 0 Demo.window5
  = (Some (createInjectedBinaryFunction (outlinedName 1)
             [newBlock (copied Demo.AArch64 Demo.window5
                        ++ [createReturn Demo.AArch64])]),
     mkCtx (NextExprAddr Demo.ctx0) (S (NextTempSymbol Demo.ctx0)), 1%nat).
Proof.
  destruct (createFunction_shape Demo.AArch64 Demo.ctx0 0 Demo.window5)
    as (_ & _ & H & _).
  apply H; [discriminate|reflexivity].
Defined.

(** ** Frame of the outlined function *)

Lemma fixInstruction_unfixed BC (s : bool) (Inst : MCInst) :
  snd (fixInstruction BC s Inst) = false -> fst (fixInstruction BC s Inst) = Inst.
Proof.
  unfold fixInstruction.
  destruct (negb (isLoadStore BC Inst) && negb (isAddSubAgainstSP BC Inst));
    [reflexivity|].
  destruct (fixOperands _ _ _ _); [discriminate|reflexivity].
Qed.

Lemma FixedCount_zero BC (s : bool) (blocks : list BinaryBasicBlock) :
  FixedCount BC s blocks = 0%nat <->
  Forall (fun Inst => snd (fixInstruction BC s Inst) = false) (allInstructions blocks).
Proof.
  unfold FixedCount. induction (allInstructions blocks) as [|Inst l IH].
  - split; [constructor|reflexivity].
  - rewrite filter_cons. destruct (decide (snd (fixInstruction BC s Inst) = true)) as [E|E].
    + split; [discriminate|]. intros H. inversion H; subst. congruence.
    + rewrite IH. apply not_true_is_false in E. split.
      * intros H. constructor; assumption.
      * intros H. inversion H; assumption.
Qed.

Lemma setInstructions_eta (BB : BinaryBasicBlock) :
  setInstructions BB (Instructions BB) = BB.
Proof. destruct BB. reflexivity. Qed.

Lemma setBlocks_eta (BF : BinaryFunction) : setBlocks BF (Blocks BF) = BF.
Proof. destruct BF. reflexivity. Qed.

Lemma fixStackOffsets_unfixed BC (s : bool) (blocks : list BinaryBasicBlock) :
  Forall (fun Inst => snd (fixInstruction BC s Inst) = false) (allInstructions blocks) ->
  fixStackOffsets BC s blocks = blocks.
Proof.
  unfold fixStackOffsets, allInstructions.
  induction blocks as [|BB rest IH]; [reflexivity|].
  cbn [flat_map]. rewrite Forall_app. intros [H1 H2].
  rewrite fmap_cons. f_equal; [|apply IH, H2].
  unfold mapInstructions.
  replace ((fun Inst => fst (fixInstruction BC s Inst)) <$> Instructions BB)
    with (Instructions BB); [destruct BB; reflexivity|].
  induction H1 as [|Inst l HI Hl IHl]; [reflexivity|].
  rewrite fmap_cons, (fixInstruction_unfixed _ _ _ HI), <- IHl. reflexivity.
Qed.

Lemma purityScanBlock_clean BC (insts : list MCInst) (fl : PurityFlags) :
  cleanFlags (fst (purityScanBlock BC insts fl))
  = cleanFlags fl && forallb (scanOk BC) insts
  /\ (cleanFlags (fst (purityScanBlock BC insts fl)) = true ->
      snd (purityScanBlock BC insts fl) = false).
Proof.
  revert fl. induction insts as [|Inst rest IH]; intros fl; simpl.
  - rewrite andb_true_r. split; [reflexivity|].
    unfold cleanFlags. destruct (needsLR fl), (usesFP fl), (hasConditionalBranch fl);
      simpl; auto; discriminate.
  - unfold scanOk at 1. destruct (isConditionalBranch BC Inst); simpl.
    { unfold cleanFlags. simpl. rewrite !andb_false_r. split; [reflexivity|discriminate]. }
    set (fl1 := mkPF (needsLR fl || MIB_isCall BC Inst)
                     (usesFP fl || readsFP BC Inst) (hasConditionalBranch fl)).
    assert (E : cleanFlags fl1
                = cleanFlags fl && (negb (MIB_isCall BC Inst) && negb (readsFP BC Inst))).
    { unfold cleanFlags, fl1. simpl.
      destruct (needsLR fl), (usesFP fl), (hasConditionalBranch fl),
        (MIB_isCall BC Inst), (readsFP BC Inst); reflexivity. }
    destruct (hasConditionalBranch fl
              || (needsLR fl || MIB_isCall BC Inst) && (usesFP fl || readsFP BC Inst))
      eqn:Hstop; simpl.
    + assert (Hc : cleanFlags fl1 = false).
      { unfold cleanFlags, fl1. simpl.
        destruct (needsLR fl), (usesFP fl), (hasConditionalBranch fl),
          (MIB_isCall BC Inst), (readsFP BC Inst); simpl in *;
          try reflexivity; discriminate. }
      rewrite Hc. split; [|discriminate].
      rewrite Hc in E. rewrite andb_assoc, <- E. reflexivity.
    + destruct (IH fl1) as [H1 H2].
      split; [rewrite H1, E, !andb_assoc; reflexivity|exact H2].
Qed.

Lemma purityScan_clean BC (blocks : list BinaryBasicBlock) (fl : PurityFlags) :
  cleanFlags (purityScan BC blocks fl)
  = cleanFlags fl && forallb (scanOk BC) (allInstructions blocks).
Proof.
  revert fl. induction blocks as [|CurrBB rest IH]; intros fl; simpl.
  - rewrite andb_true_r. reflexivity.
  - destruct (purityScanBlock_clean BC (Instructions CurrBB) fl) as [H1 H2].
    destruct (purityScanBlock BC (Instructions CurrBB) fl) as [fl1 stop].
    simpl in H1, H2. unfold allInstructions. simpl.
    rewrite forallb_app, andb_assoc, <- H1.
    destruct stop.
    + destruct (cleanFlags fl1) eqn:E; [specialize (H2 eq_refl); discriminate|].
      reflexivity.
    + apply IH.
Qed.

Lemma isPureFunction_forallb BC (s : bool) (blocks : list BinaryBasicBlock) :
  isPureFunction BC s blocks = forallb (pureInstruction BC s) (allInstructions blocks).
Proof.
  unfold isPureFunction.
  pose proof (purityScan_clean BC (fixStackOffsets BC s blocks) (mkPF false false false))
    as Hscan.
  unfold cleanFlags at 1 in Hscan. simpl in Hscan.
  rewrite <- !andb_assoc. rewrite <- !andb_assoc in Hscan. rewrite Hscan. clear Hscan.
  destruct (0 <? FixedCount BC s blocks)%nat eqn:Hfix; simpl.
  - apply Nat.ltb_lt in Hfix. symmetry. apply not_true_is_false. intros Hall.
    assert (Hz : FixedCount BC s blocks = 0%nat); [|lia].
    apply FixedCount_zero. apply Forall_forall. intros Inst Hin.
    rewrite forallb_forall in Hall. specialize (Hall Inst (proj1 (list_elem_of_In _ _) Hin)).
    unfold pureInstruction in Hall.
    destruct (snd (fixInstruction BC s Inst)); [discriminate|reflexivity].
  - apply Nat.ltb_ge in Hfix. assert (Hz : FixedCount BC s blocks = 0%nat) by lia.
    apply FixedCount_zero in Hz. rewrite (fixStackOffsets_unfixed _ _ _ Hz).
    induction Hz as [|Inst l HI Hl IHl]; simpl; [reflexivity|].
    f_equal; [|exact IHl].
    unfold pureInstruction, scanOk. rewrite HI. reflexivity.
Qed.

(** X14.  The purity test of [stackFrameManage], written with early exits,
    holds exactly when every instruction of every block is left alone by
    the displacement fixup and is no conditional branch, no call and reads
    no FP.  A pure function is returned as it came: no displacement is
    changed, no prologue or epilogue is put in.  The same holds off
    AArch64 and for a function without instructions. *)
Theorem stackFrameManage_pure_unchanged BC (Ctx : MCContext)
    (outlinedFunc : BinaryFunction) (IsCalledViaSandwich : bool) :
  (isPureFunction BC IsCalledViaSandwich (Blocks outlinedFunc) = true <->
   Forall (fun Inst => pureInstruction BC IsCalledViaSandwich Inst = true)
          (allInstructions (Blocks outlinedFunc)))
  /\ (isAArch64 BC = false
      \/ allInstructions (Blocks outlinedFunc) = []
      \/ isPureFunction BC IsCalledViaSandwich (Blocks outlinedFunc) = true ->
      stackFrameManage BC Ctx outlinedFunc IsCalledViaSandwich = (outlinedFunc, Ctx)).
Proof.
  split.
  { rewrite isPureFunction_forallb, forallb_forall, Forall_forall.
    split; intros H x Hx; apply H; apply list_elem_of_In; exact Hx. }
  intros H. unfold stackFrameManage.
  destruct (existsb (fun BB => negb (bbSize BB =? 0)%nat) (Blocks outlinedFunc))
    eqn:Hhas; [|reflexivity].
  simpl. destruct (isAArch64 BC) eqn:Harch; [|reflexivity]. simpl.
  destruct (Blocks outlinedFunc) as [|First rest] eqn:HB; [reflexivity|].
  destruct (bbSize First =? 0)%nat; [reflexivity|].
  destruct H as [H|[H|H]]; [discriminate| |].
  - exfalso. apply existsb_exists in Hhas as (BB & HBB & Hsz).
    apply negb_true_iff, Nat.eqb_neq in Hsz. apply Hsz.
    unfold bbSize. unfold allInstructions in H.
    assert (G : forall l : list BinaryBasicBlock,
               flat_map Instructions l = [] -> In BB l -> Instructions BB = []).
    { clear. induction l as [|B l IH]; simpl; [intros _ []|].
      intros E [->|Hin].
      - apply app_eq_nil in E. apply E.
      - apply app_eq_nil in E. apply IH; [apply E|exact Hin]. }
    rewrite (G _ H HBB). reflexivity.
  - rewrite H. pose proof H as Hp. rewrite isPureFunction_forallb in Hp.
    rewrite fixStackOffsets_unfixed.
    + rewrite <- HB. rewrite setBlocks_eta. reflexivity.
    + apply Forall_forall. intros Inst Hin. rewrite forallb_forall in Hp.
      specialize (Hp Inst (proj1 (list_elem_of_In _ _) Hin)).
      unfold pureInstruction in Hp.
      destruct (snd (fixInstruction BC IsCalledViaSandwich Inst));
        [discriminate|reflexivity].
Qed.

Lemma stackFrameManage_pure_unchanged_witness :
  let f := createInjectedBinaryFunction "PLO_outlined_1"
             [newBlock (Demo.window5 ++ [Demo.ret])] in
  stackFrameManage Demo.AArch64 Demo.ctx0 f false = (f, Demo.ctx0).
Proof.
  intros f.
  destruct (stackFrameManage_pure_unchanged Demo.AArch64 Demo.ctx0 f false)
    as (_ & H).
  apply H. right. right. reflexivity.
Defined.

Lemma last_two_split {A} (l : list A) (x y : A) :
  (2 <= length l)%nat ->
  l !! (length l - 2)%nat = Some x -> l !! (length l - 1)%nat = Some y ->
  l = take (length l - 2) l ++ [x; y].
Proof.
  intros Hlen Hx Hy.
  rewrite <- (take_drop (length l - 2) l) at 1. f_equal.
  rewrite (drop_S l x (length l - 2) Hx).
  replace (S (length l - 2)) with (length l - 1)%nat by lia.
  rewrite (drop_S l y (length l - 1) Hy).
  replace (S (length l - 1)) with (length l) by lia.
  rewrite drop_all. reflexivity.
Qed.

Lemma tailCallOptimize_not_taken BC (Ctx : MCContext) (BB : list MCInst) :
  (forall pre CallInst RetInst,
     BB = pre ++ [CallInst; RetInst] ->
     MIB_isCall BC CallInst = true -> MIB_isReturn BC RetInst = true ->
     MIB_isIndirectCall BC CallInst = true) ->
  tailCallOptimize BC Ctx BB = (BB, false, Ctx).
Proof.
  intros Hno. unfold tailCallOptimize.
  destruct (length BB <? 2)%nat eqn:Hlen; [reflexivity|]. apply Nat.ltb_ge in Hlen.
  destruct (BB !! (length BB - 2)%nat) as [CallInst|] eqn:HC; [|reflexivity].
  destruct (BB !! (length BB - 1)%nat) as [RetInst|] eqn:HR; [|reflexivity].
  destruct (MIB_isCall BC CallInst) eqn:Hc; [|reflexivity].
  destruct (MIB_isReturn BC RetInst) eqn:Hr; [|reflexivity]. simpl.
  rewrite (Hno _ CallInst RetInst (last_two_split BB _ _ Hlen HC HR) Hc Hr).
  reflexivity.
Qed.

Lemma firstIndex_split {A} (p : A -> bool) (l : list A) :
  match firstIndex p l with
  | Some k =>
      exists x, l !! k = Some x /\ p x = true
        /\ Forall (fun y => p y = false) (take k l)
  | None => Forall (fun y => p y = false) l
  end.
Proof.
  unfold firstIndex.
  destruct (list_find (fun x => p x = true) l) as [[k x]|] eqn:Hf; simpl.
  - apply list_find_Some in Hf as (Hk & Hp & Hmin).
    exists x. split; [exact Hk|]. split; [exact Hp|].
    apply Forall_forall. intros y Hy.
    apply list_elem_of_lookup in Hy as (j & Hj).
    apply lookup_take_Some in Hj as [Hj Hlt].
    apply not_true_is_false. apply (Hmin j y Hj Hlt).
  - apply list_find_None in Hf. eapply Forall_impl; [exact Hf|].
    intros y Hy. apply not_true_is_false, Hy.
Qed.

Lemma stackFrameManage_framed BC (Ctx : MCContext) (outlinedFunc : BinaryFunction)
    (IsCalledViaSandwich : bool) (BB : BinaryBasicBlock)
    (others : list BinaryBasicBlock) :
  isAArch64 BC = true ->
  fixStackOffsets BC IsCalledViaSandwich (Blocks outlinedFunc) = BB :: others ->
  Instructions BB <> [] ->
  isPureFunction BC IsCalledViaSandwich (Blocks outlinedFunc) = false ->
  let Prologue := createPushRegisters BC (getFramePointer BC) (getLinkRegister BC) in
  (forall pre CallInst RetInst,
     Prologue :: Instructions BB = pre ++ [CallInst; RetInst] ->
     MIB_isCall BC CallInst = true -> MIB_isReturn BC RetInst = true ->
     MIB_isIndirectCall BC CallInst = true) ->
  stackFrameManage BC Ctx outlinedFunc IsCalledViaSandwich
  = (setBlocks outlinedFunc
       (setInstructions BB (insertEpilogue BC (Prologue :: Instructions BB)) :: others),
     Ctx).
Proof.
  intros Harch Hfix Hne Hpure Prologue Hno.
  destruct (fixStackOffsets_cons _ _ _ _ _ Hfix) as (B0 & rest0 & Hblocks & Hsize).
  assert (Hnz : (bbSize B0 =? 0)%nat = false).
  { apply Nat.eqb_neq. rewrite Hsize. unfold bbSize.
    destruct (Instructions BB); [contradiction|discriminate]. }
  unfold stackFrameManage. rewrite Hpure, Harch, Hfix, Hblocks.
  cbn [existsb negb orb andb]. rewrite Hnz. cbn [negb orb andb].
  fold Prologue. rewrite (tailCallOptimize_not_taken BC Ctx _ Hno). reflexivity.
Qed.

(** X15.  A function that is not pure gets the push of FP and LR in front
    of its entry block.  Unless that block then ends in a direct call
    followed by a return, the pop of FP and LR is put right before the
    first return of the entry block, or at the end of the entry block when
    it holds no return; the blocks after the entry block get the
    displacement fixup only. *)
Theorem frame_insertion BC (Ctx : MCContext) (outlinedFunc : BinaryFunction)
    (IsCalledViaSandwich : bool) (BB : BinaryBasicBlock)
    (others : list BinaryBasicBlock) :
  isAArch64 BC = true ->
  fixStackOffsets BC IsCalledViaSandwich (Blocks outlinedFunc) = BB :: others ->
  Instructions BB <> [] ->
  isPureFunction BC IsCalledViaSandwich (Blocks outlinedFunc) = false ->
  let Prologue := createPushRegisters BC (getFramePointer BC) (getLinkRegister BC) in
  let Epilogue := createPopRegisters BC (getFramePointer BC) (getLinkRegister BC) in
  (forall pre CallInst RetInst,
     Prologue :: Instructions BB = pre ++ [CallInst; RetInst] ->
     MIB_isCall BC CallInst = true -> MIB_isReturn BC RetInst = true ->
     MIB_isIndirectCall BC CallInst = true) ->
  exists pre post,
    Prologue :: Instructions BB = pre ++ post
    /\ Forall (fun Inst => MIB_isReturn BC Inst = false) pre
    /\ match post with
       | [] => True
       | RetInst :: _ => MIB_isReturn BC RetInst = true
       end
    /\ stackFrameManage BC Ctx outlinedFunc IsCalledViaSandwich
       = (setBlocks outlinedFunc
            (setInstructions BB (pre ++ Epilogue :: post) :: others), Ctx).
Proof.
  intros Harch Hfix Hne Hpure Prologue Epilogue Hno.
  rewrite (stackFrameManage_framed BC Ctx outlinedFunc IsCalledViaSandwich BB others
             Harch Hfix Hne Hpure Hno).
  unfold insertEpilogue. subst Prologue Epilogue.
  set (Prologue := createPushRegisters BC (getFramePointer BC) (getLinkRegister BC)).
  set (Epilogue := createPopRegisters BC (getFramePointer BC) (getLinkRegister BC)).
  pose proof (firstIndex_split (MIB_isReturn BC) (Prologue :: Instructions BB)) as Hfi.
  destruct (firstIndex (MIB_isReturn BC) (Prologue :: Instructions BB)) as [k|].
  - destruct Hfi as (x & Hk & Hx & Hbefore).
    exists (take k (Prologue :: Instructions BB)), (drop k (Prologue :: Instructions BB)).
    split; [symmetry; apply take_drop|]. split; [exact Hbefore|].
    split; [|reflexivity].
    rewrite (drop_S _ x k Hk). exact Hx.
  - exists (Prologue :: Instructions BB), []. rewrite app_nil_r.
    split; [reflexivity|]. split; [exact Hfi|]. split; [exact I|reflexivity].
Qed.

Lemma frame_insertion_witness :
  let f := createInjectedBinaryFunction "PLO_outlined_1"
             [newBlock [Demo.mov 1 1; Demo.bcc 0 1001 "outlined_return1"];
              newBlock [Demo.ret]] in
  exists pre post,
    Demo.pushRegisters 29 30
      :: [Demo.mov 1 1; Demo.bcc 0 1001 "outlined_return1"] = pre ++ post
    /\ Forall (fun Inst => MIB_isReturn Demo.AArch64 Inst = false) pre
    /\ match post with
       | [] => True
       | RetInst :: _ => MIB_isReturn Demo.AArch64 RetInst = true
       end
    /\ stackFrameManage Demo.AArch64 Demo.ctx0 f false
       = (setBlocks f
            (setInstructions
               (newBlock [Demo.mov 1 1; Demo.bcc 0 1001 "outlined_return1"])
               (pre ++ Demo.popRegisters 29 30 :: post)
             :: [newBlock [Demo.ret]]), Demo.ctx0).
Proof.
  intros f.
  apply (frame_insertion Demo.AArch64 Demo.ctx0 f false
           (newBlock [Demo.mov 1 1; Demo.bcc 0 1001 "outlined_return1"])
           [newBlock [Demo.ret]]); try reflexivity; try discriminate.
  intros pre CallInst RetInst Hsplit Hcall Hret. exfalso.
  assert (Hlast : last (pre ++ [CallInst; RetInst]) = Some RetInst).
  { replace (pre ++ [CallInst; RetInst]) with ((pre ++ [CallInst]) ++ [RetInst])
      by (rewrite <- app_assoc; reflexivity).
    apply last_snoc. }
  rewrite <- Hsplit in Hlast. simpl in Hlast. injection Hlast as <-. discriminate.
Defined.

(** X16.  For an outlined function of one block that holds no call and
    needed a frame (a stack displacement was fixed up), on a host whose
    push and pop of a register pair have the opcodes 1696 and 1697:
    [stackFrameManage] wraps the body in push and pop, and [funcShrinking]
    then removes both again, so that what is left is the body with its
    stack displacements still shifted by the fixup. *)
Theorem shrinking_removes_frame BC (Ctx : MCContext) (outlinedFunc : BinaryFunction)
    (IsCalledViaSandwich : bool) (BB : BinaryBasicBlock) (body : list MCInst)
    (RetInst : MCInst) :
  isAArch64 BC = true ->
  fixStackOffsets BC IsCalledViaSandwich (Blocks outlinedFunc) = [BB] ->
  Instructions BB = body ++ [RetInst] ->
  isPureFunction BC IsCalledViaSandwich (Blocks outlinedFunc) = false ->
  MIB_isReturn BC RetInst = true ->
  MIB_isCall BC RetInst = false ->
  Forall (fun Inst => MIB_isReturn BC Inst = false /\ MIB_isCall BC Inst = false)
         body ->
  let Prologue := createPushRegisters BC (getFramePointer BC) (getLinkRegister BC) in
  let Epilogue := createPopRegisters BC (getFramePointer BC) (getLinkRegister BC) in
  getOpcode Prologue = 1696 -> getOpcode Epilogue = 1697 ->
  MIB_isReturn BC Prologue = false -> MIB_isCall BC Prologue = false ->
  MIB_isReturn BC Epilogue = false -> MIB_isCall BC Epilogue = false ->
  let framed := fst (stackFrameManage BC Ctx outlinedFunc IsCalledViaSandwich) in
  entryInstructions framed = Prologue :: body ++ [Epilogue; RetInst]
  /\ Blocks (funcShrinking BC framed)
     = fixStackOffsets BC IsCalledViaSandwich (Blocks outlinedFunc).
Proof.
  intros Harch Hfix Hinsts Hpure Hret Hretc Hbody Prologue Epilogue
    HopP HopE HPr HPc HEr HEc framed.
  assert (Hne : Instructions BB <> []).
  { rewrite Hinsts. destruct body; discriminate. }
  assert (Hno : forall pre CallInst R,
             Prologue :: Instructions BB = pre ++ [CallInst; R] ->
             MIB_isCall BC CallInst = true -> MIB_isReturn BC R = true ->
             MIB_isIndirectCall BC CallInst = true).
  { intros pre C R Hsplit Hc _. exfalso. rewrite Hinsts in Hsplit.
    assert (E : Prologue :: body ++ [RetInst] = (pre ++ [C]) ++ [R])
      by (rewrite <- app_assoc; exact Hsplit).
    change (Prologue :: body ++ [RetInst]) with ((Prologue :: body) ++ [RetInst]) in E.
    apply app_inj_tail in E as [E _].
    assert (Hin : In C (Prologue :: body)).
    { rewrite E. apply in_or_app. right. left. reflexivity. }
    destruct Hin as [<-|Hin]; [congruence|].
    rewrite Forall_forall in Hbody.
    destruct (Hbody C (proj2 (list_elem_of_In _ _) Hin)) as [_ Hc']. congruence. }
  assert (Hframed : framed
                    = setBlocks outlinedFunc
                        [setInstructions BB (Prologue :: body ++ [Epilogue; RetInst])]).
  { subst framed.
    rewrite (stackFrameManage_framed BC Ctx outlinedFunc IsCalledViaSandwich BB []
               Harch Hfix Hne Hpure Hno).
    simpl. f_equal. f_equal. f_equal. unfold insertEpilogue. fold Prologue Epilogue.
    rewrite Hinsts.
    change (Prologue :: body ++ [RetInst]) with ((Prologue :: body) ++ RetInst :: []).
    rewrite (firstIndex_app (MIB_isReturn BC) (Prologue :: body) [] RetInst).
    - rewrite take_app_length, drop_app_length. reflexivity.
    - constructor; [exact HPr|]. eapply Forall_impl; [exact Hbody|]. intros I [H _].
      exact H.
    - exact Hret. }
  split; [rewrite Hframed; reflexivity|].
  rewrite Hframed. unfold funcShrinking, bfEmpty. cbn [Blocks setBlocks].
  rewrite Harch. cbn [negb].
  assert (Hcalls : forallb (fun Inst => negb (MIB_isCall BC Inst) || MIB_isTailCall BC Inst)
                     (allInstructions
                        [setInstructions BB (Prologue :: body ++ [Epilogue; RetInst])])
                   = true).
  { unfold allInstructions. cbn [flat_map setInstructions Instructions].
    rewrite app_nil_r. cbn [forallb]. rewrite HPc. cbn [negb orb andb].
    rewrite forallb_app. apply andb_true_iff. split.
    - apply forallb_forall. intros I HI. rewrite Forall_forall in Hbody.
      destruct (Hbody I (proj2 (list_elem_of_In _ _) HI)) as [_ Hc]. rewrite Hc.
      reflexivity.
    - cbn [forallb]. rewrite HEc, Hretc. reflexivity. }
  rewrite Hcalls. cbn [Blocks setBlocks fmap list_fmap setInstructions Instructions].
  rewrite Hfix. f_equal.
  assert (Hshrink : shrinkBlock BC (Prologue :: body ++ [Epilogue; RetInst])
                    = body ++ [RetInst]).
  { unfold shrinkBlock. rewrite HopP. cbn [Z.eqb Pos.eqb].
    assert (Hidx : firstIndex (MIB_isReturn BC) (body ++ [Epilogue; RetInst])
                   = Some (S (length body))).
    { replace (body ++ [Epilogue; RetInst]) with ((body ++ [Epilogue]) ++ RetInst :: [])
        by (rewrite <- app_assoc; reflexivity).
      rewrite (firstIndex_app (MIB_isReturn BC) (body ++ [Epilogue]) [] RetInst).
      - rewrite length_app. simpl. f_equal. lia.
      - apply Forall_app. split; [|constructor; [exact HEr|constructor]].
        eapply Forall_impl; [exact Hbody|]. intros I [H _]. exact H.
      - exact Hret. }
    rewrite Hidx.
    rewrite (list_lookup_middle body [RetInst] Epilogue (length body) eq_refl).
    rewrite HopE. cbn [Z.eqb Pos.eqb].
    apply delete_middle. }
  rewrite Hshrink, <- Hinsts. destruct BB. reflexivity.
Qed.

Lemma shrinking_removes_frame_witness :
  let f := createInjectedBinaryFunction "PLO_outlined_1"
             [newBlock [Demo.ldr 0 31 1; Demo.mov 1 1; Demo.ret]] in
  let framed := fst (stackFrameManage Demo.AArch64 Demo.ctx0 f false) in
  entryInstructions framed
  = Demo.pushRegisters 29 30
    :: [Demo.ldr 0 31 3; Demo.mov 1 1] ++ [Demo.popRegisters 29 30; Demo.ret]
  /\ Blocks (funcShrinking Demo.AArch64 framed)
     = fixStackOffsets Demo.AArch64 false (Blocks f).
Proof.
  intros f framed.
  apply (shrinking_removes_frame Demo.AArch64 Demo.ctx0 f false
           (newBlock [Demo.ldr 0 31 3; Demo.mov 1 1; Demo.ret])
           [Demo.ldr 0 31 3; Demo.mov 1 1] Demo.ret); try reflexivity.
  repeat constructor.
Defined.

(** ** Pure call sequences *)

Lemma pureCallScan_spec BC (insts : list MCInst) (hasCall : bool) :
  pureCallScan BC insts hasCall
  = if forallb (allowedInCallSequence BC) insts
    then (hasCall || existsb (countsAsCall BC) insts, false)
    else (fst (pureCallScan BC insts hasCall), true).
Proof.
  revert hasCall. induction insts as [|Inst rest IH]; intros hasCall; simpl.
  - rewrite orb_false_r. reflexivity.
  - unfold allowedInCallSequence at 1, countsAsCall at 1.
    destruct (MIB_isPush BC Inst || MIB_isPop BC Inst || MIB_isReturn BC Inst); simpl.
    + rewrite IH. destruct (forallb (allowedInCallSequence BC) rest); reflexivity.
    + destruct (MIB_isCall BC Inst); simpl.
      * rewrite IH. destruct (forallb (allowedInCallSequence BC) rest);
          [rewrite orb_true_r|]; reflexivity.
      * destruct (isStackAdjust BC Inst); simpl; [|reflexivity].
        rewrite IH. destruct (forallb (allowedInCallSequence BC) rest); reflexivity.
Qed.

(** X17.  [isPureCallSequence], a scan that stops at the first foreign
    instruction, holds exactly when the function has a block, every
    instruction is a push, pop, return, call or an add/sub defining SP, and
    some instruction is a call not also classified push, pop or return. *)
Theorem isPureCallSequence_characterisation BC (BF : BinaryFunction) :
  isPureCallSequence BC BF = true <->
  Blocks BF <> []
  /\ (forall Inst, In Inst (allInstructions (Blocks BF)) ->
        allowedInCallSequence BC Inst = true)
  /\ (exists Inst, In Inst (allInstructions (Blocks BF))
        /\ countsAsCall BC Inst = true).
Proof.
  unfold isPureCallSequence, bfEmpty.
  destruct (Blocks BF) as [|B0 rest] eqn:HB.
  { split; [discriminate|]. intros [H _]. contradiction. }
  rewrite <- HB. rewrite pureCallScan_spec.
  destruct (forallb (allowedInCallSequence BC) (allInstructions (Blocks BF))) eqn:Hall.
  - simpl. rewrite andb_true_r, existsb_exists. rewrite forallb_forall in Hall.
    split.
    + intros H. split; [rewrite HB; discriminate|]. split; [exact Hall|exact H].
    + intros (_ & _ & H). exact H.
  - destruct (pureCallScan BC (allInstructions (Blocks BF)) false) as [hc non].
    simpl. rewrite andb_false_r. split; [discriminate|].
    intros (_ & H & _). rewrite <- forallb_forall in H. congruence.
Qed.

Lemma isPureCallSequence_characterisation_witness :
  isPureCallSequence Demo.AArch64
    (createInjectedBinaryFunction "PLO_outlined_1"
       [newBlock [Demo.pushRegisters 29 30; Demo.bl 7 "foo";
                  Demo.popRegisters 29 30; Demo.ret]]) = true.
Proof.
  apply isPureCallSequence_characterisation.
  split; [discriminate|]. split.
  - intros Inst [<-|[<-|[<-|[<-|[]]]]]; reflexivity.
  - exists (Demo.bl 7 "foo"). split; [right; left; reflexivity|reflexivity].
Defined.

(** ** Locating occurrences *)

Lemma In_concat_imap {A B} (f : nat -> A -> list B) (l : list A) (x : B) :
  In x (concat (imap f l)) <-> exists b y, l !! b = Some y /\ In x (f b y).
Proof.
  revert f. induction l as [|a l IH]; intros f; simpl.
  - split; [intros []|]. intros (b & y & H & _). discriminate.
  - rewrite in_app_iff, IH. split.
    + intros [H|(b & y & Hb & H)].
      * exists 0%nat, a. auto.
      * exists (S b), y. auto.
    + intros ([|b] & y & Hb & H); simpl in Hb.
      * injection Hb as <-. left. exact H.
      * right. exists b, y. auto.
Qed.

Lemma forallb2_Forall2 {A} (p : A -> A -> bool) (l1 l2 : list A) :
  length l1 = length l2 ->
  (forallb2 p l1 l2 = true <-> Forall2 (fun x y => p x y = true) l1 l2).
Proof.
  revert l2. induction l1 as [|x l1 IH]; intros [|y l2] Hlen; simpl in *;
    try discriminate.
  - split; [constructor|reflexivity].
  - rewrite andb_true_iff, IH by lia. split.
    + intros [H1 H2]. constructor; assumption.
    + intros H. inversion H; subst. auto.
Qed.

Lemma matchesAt_spec (BB : list MCInst) (Seq : InstructionSequence) (i : nat) :
  Seq <> [] ->
  (matchesAt BB Seq i = true <->
   (i + length Seq <= length BB)%nat
   /\ Forall2 (fun Inst SeqInst => areInstructionsEqual Inst SeqInst = true)
              (take (length Seq) (drop i BB)) Seq).
Proof.
  intros Hne.
  assert (Hpos : (0 < length Seq)%nat) by (destruct Seq; [contradiction|simpl; lia]).
  unfold matchesAt. rewrite andb_true_iff, Nat.eqb_eq. split.
  - intros [Hlen Hall]. split.
    + rewrite length_take, length_drop in Hlen. lia.
    + apply forallb2_Forall2; assumption.
  - intros [Hi Hall].
    assert (Hlen : length (take (length Seq) (drop i BB)) = length Seq).
    { rewrite length_take, length_drop. lia. }
    split; [exact Hlen|]. apply forallb2_Forall2; assumption.
Qed.

Lemma blockLocations_valid BC (BF : BinaryFunction) (Seq : InstructionSequence)
    (b : nat) (BB : BinaryBasicBlock) (Loc : SequenceLocation) :
  Seq <> [] ->
  In Loc (blockLocations BC BF Seq b BB) ->
  LocBB Loc = b /\ (StartIndex Loc < bbSize BB)%nat.
Proof.
  intros Hne. unfold blockLocations. rewrite in_app_iff.
  assert (Hpos : (0 < length Seq)%nat) by (destruct Seq; [contradiction|simpl; lia]).
  intros [H|H].
  - destruct (length Seq <=? bbSize BB)%nat eqn:Hle; [|destruct H].
    apply Nat.leb_le in Hle.
    apply list_elem_of_In, list_elem_of_fmap in H as (i & -> & Hi).
    apply list_elem_of_filter in Hi as [_ Hi]. apply list_elem_of_In, in_seq in Hi.
    simpl. split; [reflexivity|lia].
  - destruct ((0 <? bbSize BB)%nat && (bbSize BB <? length Seq)%nat); [|destruct H].
    apply list_elem_of_In, list_elem_of_fmap in H as (i & -> & Hi).
    apply list_elem_of_filter in Hi as [_ Hi]. apply list_elem_of_In, in_seq in Hi.
    simpl. split; [reflexivity|lia].
Qed.

Lemma findSequenceLocations_in_block BC (BF : BinaryFunction)
    (Seq : InstructionSequence) (b : nat) (BB : BinaryBasicBlock) (i : nat) :
  Seq <> [] ->
  Blocks BF !! b = Some BB ->
  (length Seq <= bbSize BB)%nat ->
  (In (mkLoc b i) (findSequenceLocations BC BF Seq) <->
   matchesAt (Instructions BB) Seq i = true).
Proof.
  intros Hne HBB Hle. unfold findSequenceLocations.
  destruct Seq as [|S0 Srest] eqn:HSeq; [contradiction|]. rewrite <- HSeq in *.
  rewrite In_concat_imap. split.
  - intros (b' & BB' & HBB' & Hin).
    destruct (blockLocations_valid BC BF Seq b' BB' _ Hne Hin) as [Hb _].
    simpl in Hb. subst b'. rewrite HBB in HBB'. injection HBB' as <-.
    unfold blockLocations in Hin. rewrite in_app_iff in Hin.
    assert (E1 : (length Seq <=? bbSize BB)%nat = true) by (apply Nat.leb_le; exact Hle).
    assert (E2 : (bbSize BB <? length Seq)%nat = false) by (apply Nat.ltb_ge; exact Hle).
    rewrite E1, E2, andb_false_r in Hin. destruct Hin as [Hin|[]].
    apply list_elem_of_In, list_elem_of_fmap in Hin as (i' & Heq & Hi).
    injection Heq as ->. apply list_elem_of_filter in Hi as [Hi _]. exact Hi.
  - intros Hm. exists b, BB. split; [exact HBB|].
    unfold blockLocations. rewrite in_app_iff. left.
    assert (E1 : (length Seq <=? bbSize BB)%nat = true) by (apply Nat.leb_le; exact Hle).
    rewrite E1. apply list_elem_of_In, list_elem_of_fmap. exists i.
    split; [reflexivity|]. apply list_elem_of_filter. split; [exact Hm|].
    apply list_elem_of_In, in_seq. apply matchesAt_spec in Hm as [Hi _]; [|exact Hne].
    unfold bbSize. lia.
Qed.

(** X18.  [findSequenceLocations] finds nothing for an empty sequence;
    every location it returns names a block of the function and a start
    index inside that block; and in a block at least as long as the
    sequence the locations are exactly the start indices at which the block
    holds, instruction by instruction, a run equal to the sequence
    (overlapping runs included). *)
Theorem findSequenceLocations_characterisation BC (BF : BinaryFunction)
    (Seq : InstructionSequence) :
  findSequenceLocations BC BF [] = []
  /\ (forall Loc, In Loc (findSequenceLocations BC BF Seq) ->
        exists BB, Blocks BF !! LocBB Loc = Some BB
                   /\ (StartIndex Loc < bbSize BB)%nat)
  /\ (forall b BB i,
        Seq <> [] -> Blocks BF !! b = Some BB -> (length Seq <= bbSize BB)%nat ->
        (In (mkLoc b i) (findSequenceLocations BC BF Seq) <->
         (i + length Seq <= bbSize BB)%nat
         /\ Forall2 (fun Inst SeqInst => areInstructionsEqual Inst SeqInst = true)
                    (take (length Seq) (drop i (Instructions BB))) Seq)).
Proof.
  split; [reflexivity|]. split.
  - intros Loc Hin. unfold findSequenceLocations in Hin.
    destruct Seq as [|S0 Srest] eqn:HSeq; [destruct Hin|]. rewrite <- HSeq in *.
    apply In_concat_imap in Hin as (b & BB & HBB & Hin).
    assert (Hne : Seq <> []) by (rewrite HSeq; discriminate).
    destruct (blockLocations_valid BC BF Seq b BB Loc Hne Hin) as [-> Hlt].
    exists BB. auto.
  - intros b BB i Hne HBB Hle.
    rewrite (findSequenceLocations_in_block BC BF Seq b BB i Hne HBB Hle).
    apply matchesAt_spec, Hne.
Qed.

Lemma findSequenceLocations_characterisation_witness :
  In (mkLoc 0 6) (findSequenceLocations Demo.AArch64 Demo.leafFunction Demo.window5).
Proof.
  destruct (findSequenceLocations_characterisation Demo.AArch64 Demo.leafFunction
              Demo.window5) as (_ & _ & H).
  apply (H 0%nat (mkBB (Demo.threeCopies ++ [Demo.ret]) [] false 0) 6%nat);
    [discriminate|reflexivity|vm_compute; lia|].
  split; [vm_compute; lia|]. vm_compute. repeat constructor.
Defined.

Lemma Forall2_areInstructionsEqual_refl (l : list MCInst) :
  Forall2 (fun Inst SeqInst => areInstructionsEqual Inst SeqInst = true) l l.
Proof.
  induction l as [|x l IH]; constructor; [apply areInstructionsEqual_refl|exact IH].
Qed.

(** X19.  Every window [getAllseqs] extracts from a function is located by
    [findSequenceLocations] in that same function, not rewritten in
    between, at the position it was extracted from.  (Once the driver has
    rewritten the function, a window extracted before may have no location
    left; that case is not covered.) *)
Theorem extracted_window_is_located (P : PostLinkOutlining) BC
    (BF : BinaryFunction) (len : Z) (seq : InstructionSequence) :
  In seq (getAllseqs P BC BF len) ->
  0 < len ->
  exists b BB i,
    Blocks BF !! b = Some BB
    /\ seq = take (Z.to_nat len) (drop i (Instructions BB))
    /\ In (mkLoc b i) (findSequenceLocations BC BF seq).
Proof.
  intros Hin Hpos.
  apply getAllseqs_In in Hin as (_ & _ & _ & BB & i & HBB & _ & _ & Hi & Hs & _).
  apply list_elem_of_In, list_elem_of_lookup in HBB as (b & Hb).
  assert (Hlen : length seq = Z.to_nat len).
  { rewrite Hs, length_take, length_drop. unfold bbSize in Hi. lia. }
  exists b, BB, i. split; [exact Hb|]. split; [exact Hs|].
  assert (Hne : seq <> []).
  { intros E. rewrite E in Hlen. simpl in Hlen. lia. }
  apply (findSequenceLocations_in_block BC BF seq b BB i Hne Hb); [lia|].
  apply matchesAt_spec; [exact Hne|]. rewrite Hlen. split; [exact Hi|].
  rewrite <- Hs. apply Forall2_areInstructionsEqual_refl.
Qed.

Lemma extracted_window_is_located_witness :
  exists b BB i,
    Blocks Demo.leafFunction !! b = Some BB
    /\ Demo.window5 = take (Z.to_nat 5) (drop i (Instructions BB))
    /\ In (mkLoc b i)
          (findSequenceLocations Demo.AArch64 Demo.leafFunction Demo.window5).
Proof.
  apply (extracted_window_is_located Demo.defaultPass Demo.AArch64
           Demo.leafFunction 5 Demo.window5); [|lia].
  vm_compute. left. reflexivity.
Defined.

(** ** Call-site rewriter: what it leaves alone *)

Lemma sameBlockShape_refl (B : BinaryBasicBlock) : sameBlockShape B B.
Proof. unfold sameBlockShape. auto. Qed.

Lemma sameBlockShape_trans (B1 B2 B3 : BinaryBasicBlock) :
  sameBlockShape B1 B2 -> sameBlockShape B2 B3 -> sameBlockShape B1 B3.
Proof. unfold sameBlockShape. intuition congruence. Qed.

Lemma Forall2_sameBlockShape_refl (l : list BinaryBasicBlock) :
  Forall2 sameBlockShape l l.
Proof. induction l; constructor; [apply sameBlockShape_refl|assumption]. Qed.

Lemma Forall2_sameBlockShape_trans (l1 l2 l3 : list BinaryBasicBlock) :
  Forall2 sameBlockShape l1 l2 -> Forall2 sameBlockShape l2 l3 ->
  Forall2 sameBlockShape l1 l3.
Proof.
  intros H. revert l3. induction H as [|x y l1 l2 Hxy H IH]; intros l3 H3.
  - inversion H3; constructor.
  - inversion H3; subst. constructor; [eapply sameBlockShape_trans; eassumption|].
    apply IH. assumption.
Qed.

Lemma sameShape_refl (F : BinaryFunction) : sameShape F F.
Proof. unfold sameShape. repeat split. apply Forall2_sameBlockShape_refl. Qed.

Lemma sameShape_trans (F1 F2 F3 : BinaryFunction) :
  sameShape F1 F2 -> sameShape F2 F3 -> sameShape F1 F3.
Proof.
  unfold sameShape.
  intros (A1 & A2 & A3 & A4 & A5 & A6 & A7 & A8) (C1 & C2 & C3 & C4 & C5 & C6 & C7 & C8).
  repeat split; try congruence.
  eapply Forall2_sameBlockShape_trans; eassumption.
Qed.

Lemma Forall2_insert_same {A} (R : A -> A -> Prop) (l : list A) (b : nat) (x y : A) :
  (forall z, R z z) -> l !! b = Some x -> R x y -> Forall2 R l (<[b := y]> l).
Proof.
  intros Hrefl. revert b. induction l as [|a l IH]; intros b Hb Hxy.
  - discriminate.
  - destruct b as [|b]; simpl in *.
    + injection Hb as ->. constructor; [exact Hxy|].
      clear -Hrefl. induction l; constructor; auto.
    + constructor; [apply Hrefl|]. apply IH; assumption.
Qed.

Lemma updateBlock_sameShape (BF : BinaryFunction) (b : nat)
    (f : list MCInst -> list MCInst) :
  sameShape BF (updateBlock BF b f).
Proof.
  unfold updateBlock. destruct (Blocks BF !! b) as [BB|] eqn:HBB;
    [|apply sameShape_refl].
  unfold sameShape. simpl. repeat split.
  apply (Forall2_insert_same sameBlockShape _ b BB);
    [apply sameBlockShape_refl|exact HBB|].
  unfold sameBlockShape. simpl. auto.
Qed.

Lemma cleanFollowingBlocks_sameShape (SeqLen : nat) (ranges : list (nat * nat))
    (BF : BinaryFunction) :
  sameShape BF (cleanFollowingBlocks BF SeqLen ranges).
Proof.
  unfold cleanFollowingBlocks. revert BF.
  induction ranges as [|[c s] ranges IH]; intros BF; simpl; [apply sameShape_refl|].
  eapply sameShape_trans; [|apply IH]. apply updateBlock_sameShape.
Qed.

Lemma replaceSequenceWithCall_sameShape BC (Ctx : MCContext) (BF : BinaryFunction)
    (Loc : SequenceLocation) (SeqLen : nat) (Label : string) :
  sameShape BF (fst (replaceSequenceWithCall BC Ctx BF Loc SeqLen Label)).
Proof.
  unfold replaceSequenceWithCall.
  destruct (SeqLen =? 0)%nat; [apply sameShape_refl|].
  match goal with |- context [if ?c then (BF, Ctx) else _] => destruct c end;
    [apply sameShape_refl|].
  match goal with |- context [if ?c then (BF, Ctx) else _] => destruct c end;
    [apply sameShape_refl|].
  destruct (negb (isAArch64 BC)); [apply sameShape_refl|].
  cbn [createSymbolRefExpr].
  destruct (blockSizeAt BF (LocBB Loc) <? StartIndex Loc + SeqLen)%nat.
  - destruct (collectBlockRanges BC BF 3 (LocBB Loc) (StartIndex Loc) SeqLen)
      as [[|[StartBB startIdx] following]|]; try apply sameShape_refl.
    destruct (IsCallerLeaf BC BF Loc); cbn [fst];
      (eapply sameShape_trans; [|apply cleanFollowingBlocks_sameShape]);
      (eapply sameShape_trans; [|apply updateBlock_sameShape]);
      apply updateBlock_sameShape.
  - destruct (IsCallerLeaf BC BF Loc); cbn [fst]; apply updateBlock_sameShape.
Qed.

(** X20.  [replaceSequenceWithCall] changes nothing, and allocates no
    expression, off AArch64, for an empty sequence, and for a start index
    that is not inside the block.  Whatever it does, the function keeps its
    name, its flags and its blocks with their successors and profile data:
    only instruction vectors are written. *)
Theorem replaceSequenceWithCall_guards BC (Ctx : MCContext) (BF : BinaryFunction)
    (Loc : SequenceLocation) (SeqLen : nat) (OutlinedFuncLabel : string) :
  (isAArch64 BC = false \/ SeqLen = 0%nat
   \/ (blockSizeAt BF (LocBB Loc) <= StartIndex Loc)%nat ->
   replaceSequenceWithCall BC Ctx BF Loc SeqLen OutlinedFuncLabel = (BF, Ctx))
  /\ sameShape BF (fst (replaceSequenceWithCall BC Ctx BF Loc SeqLen OutlinedFuncLabel)).
Proof.
  split; [|apply replaceSequenceWithCall_sameShape].
  intros H. unfold replaceSequenceWithCall.
  destruct (SeqLen =? 0)%nat eqn:Hz; [reflexivity|]. apply Nat.eqb_neq in Hz.
  destruct H as [H|[H|H]]; [|contradiction|].
  - rewrite H. cbn [negb].
    repeat match goal with |- context [if ?c then (BF, Ctx) else _] => destruct c end;
      reflexivity.
  - assert (E : (blockSizeAt BF (LocBB Loc) <=? StartIndex Loc)%nat = true)
      by (apply Nat.leb_le; exact H).
    rewrite E.
    destruct (blockSizeAt BF (LocBB Loc) <? StartIndex Loc + SeqLen)%nat; reflexivity.
Qed.

Lemma replaceSequenceWithCall_guards_witness :
  replaceSequenceWithCall Demo.OtherArch Demo.ctx0 Demo.leafFunction (mkLoc 0 0) 5
    "PLO_outlined_1" = (Demo.leafFunction, Demo.ctx0).
Proof.
  destruct (replaceSequenceWithCall_guards Demo.OtherArch Demo.ctx0 Demo.leafFunction
              (mkLoc 0 0) 5 "PLO_outlined_1") as (H & _).
  apply H. left. reflexivity.
Defined.

Lemma size_sub_nat (a b : nat) :
  (N.of_nat a < 2 ^ 64)%N -> (b <= a)%nat ->
  size_sub (N.of_nat a) (N.of_nat b) = N.of_nat (a - b).
Proof.
  intros Ha Hb. unfold size_sub.
  assert (Hb' : (N.of_nat b <= N.of_nat a)%N) by lia.
  rewrite (N.mod_small (N.of_nat b)) by lia.
  replace (N.of_nat a + 2 ^ 64 - N.of_nat b)%N
    with (N.of_nat (a - b) + 1 * 2 ^ 64)%N by lia.
  rewrite N.Div0.mod_add. apply N.mod_small. lia.
Qed.

Lemma size_min_nat (a b : nat) : size_min (N.of_nat a) (N.of_nat b) = Nat.min a b.
Proof. unfold size_min. lia. Qed.

Lemma blockSizeAt_lookup (BF : BinaryFunction) (b : nat) (BB : BinaryBasicBlock) :
  Blocks BF !! b = Some BB -> blockSizeAt BF b = bbSize BB.
Proof. unfold blockSizeAt. intros ->. reflexivity. Qed.

Lemma collectBlockRanges_step BC (BF : BinaryFunction) (fuel' : nat)
    (CurrentBB currentIdx remaining : nat) :
  collectBlockRanges BC BF (S fuel') CurrentBB currentIdx remaining
  = if (remaining =? 0)%nat then Some []
    else
      let availableInBB :=
        size_sub (N.of_nat (blockSizeAt BF CurrentBB)) (N.of_nat currentIdx) in
      let toRemove := size_min (N.of_nat remaining) availableInBB in
      let remaining := (remaining - toRemove)%nat in
      if (0 <? remaining)%nat
         && (blockSizeAt BF CurrentBB <=? currentIdx + toRemove)%nat then
        match getNextBasicBlock BC BF CurrentBB with
        | None => None
        | Some NextBB =>
            cons (CurrentBB, currentIdx)
              <$> collectBlockRanges BC BF fuel' NextBB 0 remaining
        end
      else if (0 <? remaining)%nat then None
      else Some [(CurrentBB, currentIdx)].
Proof. reflexivity. Qed.

Lemma collectBlockRanges_two_blocks BC (BF : BinaryFunction) (b n i SeqLen : nat)
    (BB NB : BinaryBasicBlock) :
  (0 < SeqLen)%nat ->
  Blocks BF !! b = Some BB -> Blocks BF !! n = Some NB ->
  (i < bbSize BB)%nat -> (bbSize BB < i + SeqLen)%nat ->
  getNextBasicBlock BC BF b = Some n ->
  (i + SeqLen <= bbSize BB + bbSize NB)%nat ->
  (N.of_nat (bbSize BB) < 2 ^ 64)%N -> (N.of_nat (bbSize NB) < 2 ^ 64)%N ->
  collectBlockRanges BC BF 3 b i SeqLen = Some [(b, i); (n, 0%nat)].
Proof.
  intros Hlen HBB HNB Hi Hcross Hnext Hfit HsB HsN.
  rewrite collectBlockRanges_step.
  assert (E0 : (SeqLen =? 0)%nat = false) by (apply Nat.eqb_neq; lia).
  rewrite E0. cbv zeta.
  rewrite (blockSizeAt_lookup _ _ _ HBB), size_sub_nat by (try lia; exact HsB).
  rewrite size_min_nat.
  replace (Nat.min SeqLen (bbSize BB - i)) with (bbSize BB - i)%nat by lia.
  assert (E1 : (0 <? SeqLen - (bbSize BB - i))%nat = true) by (apply Nat.ltb_lt; lia).
  assert (E2 : (bbSize BB <=? i + (bbSize BB - i))%nat = true) by (apply Nat.leb_le; lia).
  rewrite E1, E2. cbn [andb]. rewrite Hnext.
  rewrite collectBlockRanges_step.
  assert (E3 : (SeqLen - (bbSize BB - i) =? 0)%nat = false) by (apply Nat.eqb_neq; lia).
  rewrite E3. cbv zeta.
  rewrite (blockSizeAt_lookup _ _ _ HNB).
  change (N.of_nat 0) with (N.of_nat 0%nat).
  rewrite (size_sub_nat (bbSize NB) 0) by (try lia; exact HsN).
  rewrite size_min_nat.
  replace (Nat.min (SeqLen - (bbSize BB - i)) (bbSize NB - 0))
    with (SeqLen - (bbSize BB - i))%nat by lia.
  replace (SeqLen - (bbSize BB - i) - (SeqLen - (bbSize BB - i)))%nat with 0%nat by lia.
  reflexivity.
Qed.

Lemma drop_min {A} (n : nat) (l : list A) : drop (Nat.min (length l) n) l = drop n l.
Proof.
  destruct (le_lt_dec n (length l)) as [H|H].
  - rewrite Nat.min_r by exact H. reflexivity.
  - rewrite Nat.min_l by lia. rewrite drop_all, drop_ge by lia. reflexivity.
Qed.

(** X21.  A replacement that runs over the end of its block into the next
    block erases from that next block as many leading instructions as the
    whole sequence is long (all of them when the block is shorter), not
    only the part of the sequence that lies in it. *)
Theorem cross_block_erases_sequence_length BC (Ctx : MCContext)
    (BF : BinaryFunction) (b n i SeqLen : nat) (OutlinedFuncLabel : string)
    (BB NB : BinaryBasicBlock) :
  isAArch64 BC = true ->
  (0 < SeqLen)%nat ->
  Blocks BF !! b = Some BB -> Blocks BF !! n = Some NB -> n <> b ->
  (i < bbSize BB)%nat -> (bbSize BB < i + SeqLen)%nat ->
  getNextBasicBlock BC BF b = Some n ->
  (i + SeqLen <= bbSize BB + bbSize NB)%nat ->
  (N.of_nat (bbSize BB) < 2 ^ 64)%N -> (N.of_nat (bbSize NB) < 2 ^ 64)%N ->
  let BF' :=
    fst (replaceSequenceWithCall BC Ctx BF (mkLoc b i) SeqLen OutlinedFuncLabel) in
  Blocks BF' !! n = Some (setInstructions NB (drop SeqLen (Instructions NB))).
Proof.
  intros Harch Hlen HBB HNB Hnb Hi Hcross Hnext Hfit HsB HsN BF'.
  pose proof (collectBlockRanges_two_blocks BC BF b n i SeqLen BB NB Hlen HBB HNB Hi
                Hcross Hnext Hfit HsB HsN) as Hranges.
  subst BF'. unfold replaceSequenceWithCall. cbn [LocBB StartIndex].
  assert (E0 : (SeqLen =? 0)%nat = false) by (apply Nat.eqb_neq; lia).
  assert (E1 : (bbSize BB <? i + SeqLen)%nat = true) by (apply Nat.ltb_lt; lia).
  assert (E2 : (bbSize BB <=? i)%nat = false) by (apply Nat.leb_gt; lia).
  rewrite E0, (blockSizeAt_lookup _ _ _ HBB), E1, E2, Harch.
  cbn [negb andb orb createSymbolRefExpr]. rewrite Hranges.
  assert (Hclean : forall BF2,
             Blocks BF2 !! n = Some NB ->
             Blocks (cleanFollowingBlocks BF2 SeqLen [(n, 0%nat)]) !! n
             = Some (setInstructions NB (drop SeqLen (Instructions NB)))).
  { intros BF2 H2. unfold cleanFollowingBlocks. cbn [fold_left].
    rewrite updateBlock_lookup, H2. cbn [fmap option_fmap option_map]. f_equal. f_equal.
    rewrite (blockSizeAt_lookup _ _ _ H2).
    rewrite (size_sub_nat (bbSize NB) 0) by (try lia; exact HsN).
    rewrite size_min_nat, eraseLoop_front, Nat.sub_0_r. apply drop_min. }
  destruct (IsCallerLeaf BC BF (mkLoc b i)); cbn [fst]; apply Hclean;
    rewrite !updateBlock_lookup_ne by (intros E; apply Hnb; symmetry; exact E);
    exact HNB.
Qed.

Lemma cross_block_erases_sequence_length_witness :
  let NB := mkBB [Demo.add 3 1 2; Demo.eor 4 3 1; Demo.sub 5 4 2; Demo.mov 7 7;
                  Demo.mov 8 8; Demo.ret] [] false 0 in
  let F := mkBF "two_blocks"
             [mkBB [Demo.mov 9 9; Demo.mov 1 1; Demo.mov 2 2] [1%nat] false 0; NB]
             false false 0 false true false in
  Blocks (fst (replaceSequenceWithCall Demo.AArch64 Demo.ctx0 F (mkLoc 0 1) 5
                 "PLO_outlined_1")) !! 1%nat
  = Some (setInstructions NB (drop 5 (Instructions NB))).
Proof.
  intros NB F.
  apply (cross_block_erases_sequence_length Demo.AArch64 Demo.ctx0 F 0 1 1 5
           "PLO_outlined_1"
           (mkBB [Demo.mov 9 9; Demo.mov 1 1; Demo.mov 2 2] [1%nat] false 0) NB);
    try reflexivity; try (vm_compute; lia); try discriminate.
Defined.

(** ** Intermediate simplifier *)

Lemma redirectCalls_spec BC (Ctx : MCContext) (Sym Target : string)
    (insts : list MCInst) :
  Forall2 (redirectedInst BC Sym Target) insts
          (fst (redirectCalls BC Ctx Sym Target insts)).
Proof.
  revert Ctx. induction insts as [|Inst rest IH]; intros Ctx; simpl; [constructor|].
  destruct (callsSymbol BC Sym Inst) eqn:Hc.
  - specialize (IH (mkCtx (NextExprAddr Ctx + 1) (NextTempSymbol Ctx))).
    destruct (redirectCalls BC (mkCtx (NextExprAddr Ctx + 1) (NextTempSymbol Ctx))
                Sym Target rest) as [rest' Ctx2].
    constructor; [|exact IH]. unfold redirectedInst. rewrite Hc. eauto.
  - specialize (IH Ctx).
    destruct (redirectCalls BC Ctx Sym Target rest) as [rest' Ctx1].
    constructor; [|exact IH]. unfold redirectedInst. rewrite Hc. reflexivity.
Qed.

Lemma redirectCallsBlocks_spec BC (Ctx : MCContext) (Sym Target : string)
    (blocks : list BinaryBasicBlock) :
  Forall2 (redirectedBlock BC Sym Target) blocks
          (fst (redirectCallsBlocks BC Ctx Sym Target blocks)).
Proof.
  revert Ctx. induction blocks as [|BB rest IH]; intros Ctx; simpl; [constructor|].
  pose proof (redirectCalls_spec BC Ctx Sym Target (Instructions BB)) as H.
  destruct (redirectCalls BC Ctx Sym Target (Instructions BB)) as [insts Ctx1].
  specialize (IH Ctx1).
  destruct (redirectCallsBlocks BC Ctx1 Sym Target rest) as [rest' Ctx2].
  constructor; [|exact IH]. split; [|exact H].
  unfold sameBlockShape. simpl. auto.
Qed.

Lemma redirectedBlocks_shape BC (Sym Target : string)
    (l l' : list BinaryBasicBlock) :
  Forall2 (redirectedBlock BC Sym Target) l l' -> Forall2 sameBlockShape l l'.
Proof. intros H. eapply Forall2_impl; [exact H|]. intros B B' [Hs _]. exact Hs. Qed.

Lemma redirectCallsFunctions_spec BC (Ctx : MCContext) (Sym Target : string)
    (funcs : list BinaryFunction) :
  Forall2 (redirectedFunction BC Sym Target) funcs
          (fst (redirectCallsFunctions BC Ctx Sym Target funcs)).
Proof.
  revert Ctx. induction funcs as [|BF rest IH]; intros Ctx; simpl; [constructor|].
  pose proof (redirectCallsBlocks_spec BC Ctx Sym Target (Blocks BF)) as H.
  destruct (redirectCallsBlocks BC Ctx Sym Target (Blocks BF)) as [blocks Ctx1].
  specialize (IH Ctx1).
  destruct (redirectCallsFunctions BC Ctx1 Sym Target rest) as [rest' Ctx2].
  constructor; [|exact IH]. split; [|exact H].
  unfold sameShape. simpl. repeat split.
  eapply redirectedBlocks_shape, H.
Qed.

(** X22.  Redirecting the calls to an outlined function rewrites, in every
    function of the table, each direct call that names its symbol into a
    fresh call to the target and leaves every other instruction, and the
    shape of every function, as it was.  When the host's call to the target
    does not itself name the old symbol, no call site of the old symbol is
    left. *)
Theorem redirectCallsFunctions_rewrites_call_sites BC (Ctx : MCContext)
    (OutlinedFuncSymbol TargetFunc : string) (funcs : list BinaryFunction) :
  let funcs' :=
    fst (redirectCallsFunctions BC Ctx OutlinedFuncSymbol TargetFunc funcs) in
  Forall2 (redirectedFunction BC OutlinedFuncSymbol TargetFunc) funcs funcs'
  /\ ((forall addr,
         callsSymbol BC OutlinedFuncSymbol
           (createCall BC (mkExpr addr (Some TargetFunc))) = false) ->
      hasCallSite BC OutlinedFuncSymbol funcs' = false).
Proof.
  intros funcs'. subst funcs'.
  pose proof (redirectCallsFunctions_spec BC Ctx OutlinedFuncSymbol TargetFunc funcs)
    as H.
  split; [exact H|]. intros Hhost.
  induction H as [|F F' l l' [_ HF] Hl IH]; [reflexivity|].
  unfold hasCallSite in *. cbn [existsb]. rewrite IH, orb_false_r.
  unfold allInstructions. clear -HF Hhost.
  induction HF as [|B B' bl bl' [_ HB] Hbl IHbl]; [reflexivity|].
  cbn [flat_map]. rewrite existsb_app, IHbl, orb_false_r.
  clear -HB Hhost. induction HB as [|I I' il il' HI Hil IHil]; [reflexivity|].
  cbn [existsb]. rewrite IHil, orb_false_r. unfold redirectedInst in HI.
  destruct (callsSymbol BC OutlinedFuncSymbol I) eqn:Hc.
  - destruct HI as [addr ->]. apply Hhost.
  - subst I'. exact Hc.
Qed.

Lemma redirectCallsFunctions_rewrites_call_sites_witness :
  let caller := mkBF "caller"
                  [mkBB [Demo.bl 7 "PLO_outlined_1"; Demo.ret] [] false 0]
                  false false 0 false true false in
  hasCallSite Demo.AArch64 "PLO_outlined_1"
    (fst (redirectCallsFunctions Demo.AArch64 Demo.ctx0 "PLO_outlined_1" "foo"
            [caller])) = false.
Proof.
  intros caller.
  destruct (redirectCallsFunctions_rewrites_call_sites Demo.AArch64 Demo.ctx0
              "PLO_outlined_1" "foo" [caller]) as (_ & H).
  apply H. intros addr. reflexivity.
Defined.

Lemma Forall2_sameShape_refl (l : list BinaryFunction) : Forall2 sameShape l l.
Proof. induction l; constructor; [apply sameShape_refl|assumption]. Qed.

Lemma Forall2_sameShape_trans (l1 l2 l3 : list BinaryFunction) :
  Forall2 sameShape l1 l2 -> Forall2 sameShape l2 l3 -> Forall2 sameShape l1 l3.
Proof.
  intros H. revert l3. induction H as [|x y l1 l2 Hxy H IH]; intros l3 H3.
  - inversion H3; constructor.
  - inversion H3; subst. constructor; [eapply sameShape_trans; eassumption|].
    apply IH. assumption.
Qed.

Lemma redirectCallsFunctions_sameShape BC (Ctx : MCContext) (Sym Target : string)
    (funcs : list BinaryFunction) :
  Forall2 sameShape funcs (fst (redirectCallsFunctions BC Ctx Sym Target funcs)).
Proof.
  eapply Forall2_impl; [apply redirectCallsFunctions_spec|].
  intros F F' [H _]. exact H.
Qed.

(** What [simplifyOne] may do to the state. *)
Lemma simplifyOne_cases BC (Prog : Program) (rem : list nat) (o : nat) :
  simplifyOne BC (Prog, rem) o = (Prog, rem)
  \/ exists F T funcs Ctx,
       InjectedBinaryFunctions Prog !! o = Some F
       /\ isPureCallSequence BC F = true
       /\ calledFunctions BC F = [T]
       /\ hasCallSite BC (getPrintName F) (BinaryFunctions Prog) = true
       /\ Forall2 sameShape (BinaryFunctions Prog) funcs
       /\ simplifyOne BC (Prog, rem) o
          = (mkProgram funcs (InjectedBinaryFunctions Prog) Ctx
                       (OutlinedFunctionCount Prog), rem ++ [o]).
Proof.
  unfold simplifyOne.
  destruct (InjectedBinaryFunctions Prog !! o) as [F|] eqn:HF; [|left; reflexivity].
  destruct (bfEmpty F); [left; reflexivity|].
  destruct (negb (find_at_0 (getPrintName F) "PLO_outlined_") && negb (isInjected F));
    [left; reflexivity|].
  destruct (isPureCallSequence BC F) eqn:Hpure; [|left; reflexivity]. cbn [negb].
  destruct (calledFunctions BC F) as [|T [|T2 more]] eqn:Hcalled; [left; reflexivity| |].
  - destruct (hasCallSite BC (getPrintName F) (BinaryFunctions Prog)) eqn:Hsite;
      [|left; reflexivity].
    cbn [negb].
    pose proof (redirectCallsFunctions_sameShape BC (ProgCtx Prog) (getPrintName F) T
                  (BinaryFunctions Prog)) as Hshape.
    destruct (redirectCallsFunctions BC (ProgCtx Prog) (getPrintName F) T
                (BinaryFunctions Prog)) as [funcs Ctx].
    right. exists F, T, funcs, Ctx. repeat split; auto.
  - destruct (hasCallSite BC (getPrintName F) (BinaryFunctions Prog));
      left; reflexivity.
Qed.

Lemma simplifyFold_spec BC (outs : list nat) (Prog : Program) (rem : list nat) :
  let r := fold_left (simplifyOne BC) outs (Prog, rem) in
  InjectedBinaryFunctions (fst r) = InjectedBinaryFunctions Prog
  /\ OutlinedFunctionCount (fst r) = OutlinedFunctionCount Prog
  /\ Forall2 sameShape (BinaryFunctions Prog) (BinaryFunctions (fst r))
  /\ (forall o, In o (snd r) ->
        In o rem
        \/ (In o outs
            /\ exists F T, InjectedBinaryFunctions Prog !! o = Some F
                 /\ isPureCallSequence BC F = true
                 /\ calledFunctions BC F = [T]))
  /\ ((forall o F, In o outs -> InjectedBinaryFunctions Prog !! o = Some F ->
         isPureCallSequence BC F = false) ->
      r = (Prog, rem)).
Proof.
  revert Prog rem. induction outs as [|o outs IH]; intros Prog rem; cbn [fold_left].
  - cbn [fst snd]. repeat split; auto. apply Forall2_sameShape_refl.
  - destruct (simplifyOne_cases BC Prog rem o)
      as [E|(F & T & funcs & Ctx & HF & Hp & Hc & _ & Hshape & E)]; rewrite E.
    + destruct (IH Prog rem) as (H1 & H2 & H3 & H4 & H5).
      split; [exact H1|]. split; [exact H2|]. split; [exact H3|]. split.
      * intros o' Ho'. destruct (H4 o' Ho') as [H|[H H']]; [left; exact H|].
        right. split; [right; exact H|exact H'].
      * intros Hnone. apply H5. intros o' F' Ho'. apply Hnone. right. exact Ho'.
    + destruct (IH (mkProgram funcs (InjectedBinaryFunctions Prog) Ctx
                               (OutlinedFunctionCount Prog)) (rem ++ [o]))
        as (H1 & H2 & H3 & H4 & _).
      cbn [InjectedBinaryFunctions OutlinedFunctionCount BinaryFunctions] in *.
      split; [exact H1|]. split; [exact H2|]. split.
      { eapply Forall2_sameShape_trans; [exact Hshape|exact H3]. }
      split.
      * intros o' Ho'. destruct (H4 o' Ho') as [H|[H H']].
        -- apply in_app_iff in H as [H|[<-|[]]]; [left; exact H|].
           right. split; [left; reflexivity|]. exists F, T. auto.
        -- right. split; [right; exact H|exact H'].
      * intros Hnone. rewrite (Hnone o F (or_introl eq_refl) HF) in Hp. discriminate.
Qed.

Lemma imap_id_if {A} (c : nat -> bool) (g : A -> A) (l : list A) :
  (forall o, (o < length l)%nat -> c o = false) ->
  imap (fun o x => if c o then g x else x) l = l.
Proof.
  revert c. induction l as [|x l IH]; intros c Hc; simpl; [reflexivity|].
  rewrite (Hc 0%nat) by (simpl; lia). f_equal.
  apply (IH (fun o => c (S o))). intros o Ho. apply Hc. simpl. lia.
Qed.

Lemma lookup_imap_if {A} (c : nat -> bool) (g : A -> A) (l : list A) (o : nat) :
  imap (fun o x => if c o then g x else x) l !! o
  = (fun x => if c o then g x else x) <$> l !! o.
Proof. apply list_lookup_imap. Qed.

Lemma Program_eta (Prog : Program) :
  mkProgram (BinaryFunctions Prog) (InjectedBinaryFunctions Prog) (ProgCtx Prog)
            (OutlinedFunctionCount Prog) = Prog.
Proof. destruct Prog. reflexivity. Qed.

Lemma removeRedundant_unchanged BC (Prog : Program) (outlinedFunctions : list nat) :
  (forall o F, In o outlinedFunctions ->
     InjectedBinaryFunctions Prog !! o = Some F ->
     isPureCallSequence BC F = false) ->
  removeRedundantIntermediateFunctions BC Prog outlinedFunctions
  = (Prog, outlinedFunctions).
Proof.
  intros Hnone. unfold removeRedundantIntermediateFunctions.
  destruct (simplifyFold_spec BC outlinedFunctions Prog []) as (_ & _ & _ & _ & H5).
  rewrite (H5 Hnone). rewrite imap_id_if.
  - rewrite Program_eta. f_equal. clear. induction outlinedFunctions as [|o l IH];
      [reflexivity|].
    rewrite filter_cons_True by (intros H; inversion H). f_equal. exact IH.
  - intros o _. apply bool_decide_eq_false. intros H. inversion H.
Qed.

(** X23.  [removeRedundantIntermediateFunctions] deletes nothing: the
    function table keeps its functions and their shape, the injected
    functions keep their number, and an injected function is either left as
    it was or marked ignored.  It is marked ignored only if it is one of the
    outlined functions, is a pure call sequence, and has exactly one direct
    call target; it is then taken off the list of outlined functions.  When
    none of the outlined functions is a pure call sequence, the program and
    the list come back unchanged. *)
Theorem removeRedundantIntermediateFunctions_spec BC (Prog : Program)
    (outlinedFunctions : list nat) :
  let r := removeRedundantIntermediateFunctions BC Prog outlinedFunctions in
  Forall2 sameShape (BinaryFunctions Prog) (BinaryFunctions (fst r))
  /\ length (InjectedBinaryFunctions (fst r)) = length (InjectedBinaryFunctions Prog)
  /\ OutlinedFunctionCount (fst r) = OutlinedFunctionCount Prog
  /\ (forall o F', InjectedBinaryFunctions (fst r) !! o = Some F' ->
        exists F, InjectedBinaryFunctions Prog !! o = Some F
          /\ (F' = F
              \/ (F' = setIgnored F /\ In o outlinedFunctions /\ ~ In o (snd r)
                  /\ isPureCallSequence BC F = true
                  /\ exists T, calledFunctions BC F = [T])))
  /\ (forall o, In o (snd r) -> In o outlinedFunctions)
  /\ ((forall o F, In o outlinedFunctions ->
         InjectedBinaryFunctions Prog !! o = Some F ->
         isPureCallSequence BC F = false) ->
      r = (Prog, outlinedFunctions)).
Proof.
  intros r. subst r. unfold removeRedundantIntermediateFunctions.
  destruct (simplifyFold_spec BC outlinedFunctions Prog [])
    as (H1 & H2 & H3 & H4 & H5).
  destruct (fold_left (simplifyOne BC) outlinedFunctions (Prog, [])) as [Prog1 rem].
  cbn [fst snd] in *.
  cbn [fst snd BinaryFunctions InjectedBinaryFunctions OutlinedFunctionCount].
  split; [exact H3|]. split; [rewrite length_imap, H1; reflexivity|].
  split; [exact H2|]. split.
  { intros o F' HF'. rewrite lookup_imap_if, H1 in HF'.
    destruct (InjectedBinaryFunctions Prog !! o) as [F|] eqn:HF; [|discriminate].
    simpl in HF'. exists F. split; [reflexivity|].
    destruct (bool_decide (o ∈ rem)) eqn:Hrem.
    - injection HF' as <-. right. apply bool_decide_eq_true in Hrem.
      apply list_elem_of_In in Hrem.
      destruct (H4 o Hrem) as [[]|(Ho & F0 & T & HF0 & Hp & Hc)].
      rewrite HF in HF0. injection HF0 as <-.
      split; [reflexivity|]. split; [exact Ho|]. split.
      + intros Hin. apply list_elem_of_In, list_elem_of_filter in Hin as [Hno _].
        apply Hno. apply list_elem_of_In. exact Hrem.
      + split; [exact Hp|]. exists T. exact Hc.
    - injection HF' as <-. left. reflexivity. }
  split.
  { intros o Hin. apply list_elem_of_In, list_elem_of_filter in Hin as [_ Hin].
    apply list_elem_of_In. exact Hin. }
  intros Hnone. specialize (H5 Hnone). injection H5 as -> ->.
  pose proof (removeRedundant_unchanged BC Prog outlinedFunctions Hnone) as E.
  unfold removeRedundantIntermediateFunctions in E.
  destruct (simplifyFold_spec BC outlinedFunctions Prog []) as (_ & _ & _ & _ & H5).
  rewrite (H5 Hnone) in E. exact E.
Qed.

Lemma removeRedundantIntermediateFunctions_spec_witness :
  let Prog := mkProgram [Demo.leafFunction]
                [createInjectedBinaryFunction "PLO_outlined_1"
                   [newBlock (Demo.window5 ++ [Demo.ret])]] Demo.ctx0 1 in
  removeRedundantIntermediateFunctions Demo.AArch64 Prog [0%nat] = (Prog, [0%nat]).
Proof.
  intros Prog.
  destruct (removeRedundantIntermediateFunctions_spec Demo.AArch64 Prog [0%nat])
    as (_ & _ & _ & _ & _ & H).
  apply H. intros o F [<-|[]] HF. injection HF as <-. reflexivity.
Defined.

(** ** The driver *)

Lemma programGrows_refl (Prog : Program) : programGrows Prog Prog.
Proof.
  split; [apply Forall2_sameShape_refl|]. exists []. rewrite app_nil_r. simpl.
  split; [reflexivity|lia].
Qed.

Lemma fold_left_inv {A B} (Inv : A -> Prop) (f : A -> B -> A) (l : list B) (a : A) :
  (forall a b, Inv a -> Inv (f a b)) -> Inv a -> Inv (fold_left f l a).
Proof.
  intros Hstep. revert a. induction l as [|b l IH]; intros a Ha; simpl; [exact Ha|].
  apply IH, Hstep, Ha.
Qed.

Lemma replaceAll_sameShape BC (Ctx : MCContext) (BF : BinaryFunction)
    (locations : list SequenceLocation) (SeqLen : nat) (Label : string) :
  sameShape BF (fst (replaceAll BC Ctx BF locations SeqLen Label)).
Proof.
  unfold replaceAll. revert BF Ctx.
  induction locations as [|Loc rest IH]; intros BF Ctx; simpl; [apply sameShape_refl|].
  pose proof (replaceSequenceWithCall_sameShape BC Ctx BF Loc SeqLen Label) as H.
  destruct (replaceSequenceWithCall BC Ctx BF Loc SeqLen Label) as [BF1 Ctx1].
  eapply sameShape_trans; [exact H|apply IH].
Qed.

Lemma createFunction_counter BC (Ctx : MCContext) (n : nat) (seq : InstructionSequence) :
  match createFunction BC Ctx n seq with
  | (None, _, n') => n' = n
  | (Some _, _, n') => n' = S n
  end.
Proof.
  unfold createFunction. destruct seq as [|Inst rest]; [reflexivity|].
  cbn [createNamedTempSymbol].
  destruct (existsb (isConditionalBranch BC) (Inst :: rest));
    cbn [createNamedTempSymbol];
    match goal with |- context [copyBody ?a ?b ?c ?d] =>
      destruct (copyBody a b c d) as [[body RL] Ctx'] end;
    reflexivity.
Qed.

Lemma processAnchor_inv h (P : PostLinkOutlining) BC (Prog0 : Program) (f : nat)
    (len : Z) (seqs : list InstructionSequence) (st : SweepState) (i : nat) :
  sweepInv Prog0 st -> sweepInv Prog0 (processAnchor h P BC f len seqs st i).
Proof.
  intros [[Hshape (new & Hinj & Hcount)] Houts]. unfold processAnchor.
  destruct (BinaryFunctions (swProgram st) !! f) as [BF|] eqn:HBF;
    [|split; [split; eauto|exact Houts]].
  set (gs := groupAnchor h BC seqs (swLabeled st) i).
  set (locations := findSequenceLocations BC BF (seqAt seqs i)).
  assert (Hsame : sweepInv Prog0 (mkSweep (swProgram st) (LabeledSequences gs)
                                           (swOutlined st))).
  { split; [split; eauto|exact Houts]. }
  destruct (length locations =? 0)%nat; [exact Hsame|].
  destruct (Z.of_nat (length locations) <? Frequency gs ÷ 2); [exact Hsame|].
  destruct (admitted (costModel P BC BF len (seqAt seqs i) locations)); [|exact Hsame].
  pose proof (createFunction_counter BC (ProgCtx (swProgram st))
                (OutlinedFunctionCount (swProgram st)) (seqAt seqs i)) as Hcf.
  destruct (createFunction BC (ProgCtx (swProgram st))
              (OutlinedFunctionCount (swProgram st)) (seqAt seqs i))
    as [[[outlinedFunc|] Ctx] Count].
  - destruct (stackFrameManage BC Ctx outlinedFunc
                (existsb (IsCallerLeaf BC BF) locations)) as [outlinedFunc' Ctx1].
    pose proof (replaceAll_sameShape BC Ctx1 BF (sortLocations locations)
                  (length (seqAt seqs i)) (getPrintName outlinedFunc')) as Hrep.
    destruct (replaceAll BC Ctx1 BF (sortLocations locations)
                (length (seqAt seqs i)) (getPrintName outlinedFunc')) as [BF' Ctx2].
    cbn [fst] in Hrep. unfold sweepInv, programGrows.
    cbn [swProgram swOutlined BinaryFunctions InjectedBinaryFunctions
         OutlinedFunctionCount].
    split; [split|].
    + eapply Forall2_sameShape_trans; [exact Hshape|].
      apply (Forall2_insert_same sameShape _ f BF);
        [apply sameShape_refl|exact HBF|exact Hrep].
    + exists (new ++ [outlinedFunc']). rewrite Hinj, <- app_assoc.
      split; [reflexivity|]. rewrite Hcf, Hcount, length_app. simpl. lia.
    + rewrite Forall_app. split.
      * eapply Forall_impl; [exact Houts|]. intros o Ho. simpl in Ho.
        rewrite length_app. simpl. lia.
      * constructor; [|constructor]. rewrite Hinj, !length_app. simpl. lia.
  - unfold sweepInv, programGrows.
    cbn [swProgram swOutlined BinaryFunctions InjectedBinaryFunctions
         OutlinedFunctionCount].
    split; [split; [exact Hshape|]|exact Houts].
    exists new. split; [exact Hinj|]. rewrite Hcf. exact Hcount.
Qed.

Lemma processFunction_inv h (P : PostLinkOutlining) BC (Prog0 : Program) (len : Z)
    (st : SweepState) (f : nat) :
  sweepInv Prog0 st -> sweepInv Prog0 (processFunction h P BC len st f).
Proof.
  intros Hinv. unfold processFunction.
  destruct (BinaryFunctions (swProgram st) !! f) as [BF|]; [|exact Hinv].
  destruct (bfEmpty BF || negb (shouldOptimize BF)); [exact Hinv|].
  apply fold_left_inv.
  - intros a b. apply processAnchor_inv.
  - exact Hinv.
Qed.

Lemma sweepLength_inv h (P : PostLinkOutlining) BC (Prog0 : Program)
    (st : SweepState) (len : Z) :
  sweepInv Prog0 st -> sweepInv Prog0 (sweepLength h P BC st len).
Proof.
  intros Hinv. unfold sweepLength. apply fold_left_inv.
  - intros a b. apply processFunction_inv.
  - exact Hinv.
Qed.

Lemma sweeps_inv h (P : PostLinkOutlining) BC (Prog : Program) :
  sweepInv Prog (fold_left (sweepLength h P BC) (sweepLengths P) (mkSweep Prog ∅ [])).
Proof.
  apply fold_left_inv.
  - intros a b. apply sweepLength_inv.
  - split; [apply programGrows_refl|constructor].
Qed.

Lemma imap_app_id_prefix {A} (c : nat -> bool) (g : A -> A) (l1 l2 : list A) :
  (forall o, (o < length l1)%nat -> c o = false) ->
  exists l2', imap (fun o x => if c o then g x else x) (l1 ++ l2) = l1 ++ l2'
              /\ length l2' = length l2.
Proof.
  intros Hc. rewrite imap_app. rewrite (imap_id_if c g l1 Hc).
  eexists. split; [reflexivity|]. apply length_imap.
Qed.

(** X24.  Whatever the pass does, the function table keeps its functions in
    order, each with its name, its flags and its blocks with their
    successors and profile data: only instruction vectors are rewritten.
    The injected functions the host already had stay untouched and in
    front; behind them come the functions created by the pass, as many as
    the counter of [createFunction] advanced. *)
Theorem runOnFunctions_preserves_shape h (P : PostLinkOutlining) BC (Prog : Program) :
  let Prog' := snd (runOnFunctions h P BC Prog) in
  Forall2 sameShape (BinaryFunctions Prog) (BinaryFunctions Prog')
  /\ exists new,
       InjectedBinaryFunctions Prog' = InjectedBinaryFunctions Prog ++ new
       /\ OutlinedFunctionCount Prog'
          = (OutlinedFunctionCount Prog + length new)%nat.
Proof.
  intros Prog'. subst Prog'. unfold runOnFunctions.
  destruct (sweeps_inv h P BC Prog) as [[Hshape (new & Hinj & Hcount)] Houts].
  set (st := fold_left (sweepLength h P BC) (sweepLengths P) (mkSweep Prog ∅ [])) in *.
  set (Prog1 := shrinkOutlined BC (swProgram st) (swOutlined st)).
  assert (Hout_ge : forall o, (o < length (InjectedBinaryFunctions Prog))%nat ->
                              ~ o ∈ swOutlined st).
  { intros o Ho Hin. rewrite Forall_forall in Houts. specialize (Houts o Hin). lia. }
  destruct (imap_app_id_prefix (fun o => bool_decide (o ∈ swOutlined st))
              (funcShrinking BC) (InjectedBinaryFunctions Prog) new) as (new1 & E1 & L1).
  { intros o Ho. apply bool_decide_eq_false, Hout_ge, Ho. }
  assert (H1 : InjectedBinaryFunctions Prog1 = InjectedBinaryFunctions Prog ++ new1).
  { unfold Prog1, shrinkOutlined. cbn [InjectedBinaryFunctions]. rewrite Hinj.
    exact E1. }
  pose proof (simplifyFold_spec BC (swOutlined st) Prog1 []) as Hfold.
  unfold removeRedundantIntermediateFunctions.
  destruct (fold_left (simplifyOne BC) (swOutlined st) (Prog1, [])) as [Prog2 rem].
  cbn [fst snd] in Hfold. destruct Hfold as (F1 & F2 & F3 & F4 & _).
  cbn [snd BinaryFunctions InjectedBinaryFunctions OutlinedFunctionCount].
  split.
  - eapply Forall2_sameShape_trans; [exact Hshape|]. exact F3.
  - destruct (imap_app_id_prefix (fun o => bool_decide (o ∈ rem)) setIgnored
                (InjectedBinaryFunctions Prog) new1) as (new2 & E2 & L2).
    { intros o Ho. apply bool_decide_eq_false. intros Hin.
      apply list_elem_of_In in Hin. destruct (F4 o Hin) as [[]|[Hin' _]].
      apply (Hout_ge o Ho). apply list_elem_of_In. exact Hin'. }
    exists new2. rewrite F1, H1. split; [exact E2|].
    rewrite F2. unfold Prog1, shrinkOutlined. cbn [OutlinedFunctionCount].
    rewrite Hcount. lia.
Qed.

Lemma processFunction_never_scanned h (P : PostLinkOutlining) BC (len : Z)
    (st : SweepState) (f : nat) :
  (forall BF, BinaryFunctions (swProgram st) !! f = Some BF -> neverScanned BF = true) ->
  swProgram (processFunction h P BC len st f) = swProgram st
  /\ swOutlined (processFunction h P BC len st f) = swOutlined st.
Proof.
  intros Hns. unfold processFunction.
  destruct (BinaryFunctions (swProgram st) !! f) as [BF|]; [|auto].
  specialize (Hns BF eq_refl). unfold neverScanned in Hns.
  destruct (bfEmpty BF || negb (shouldOptimize BF)); [auto|].
  simpl in Hns. unfold getAllseqs. rewrite Hns.
  destruct ((len <? PostLinkOutliningMinLength P) || (LargestLength P <? len));
    simpl; auto.
Qed.

Lemma sweepLength_never_scanned h (P : PostLinkOutlining) BC (Prog : Program)
    (st : SweepState) (len : Z) :
  Forall (fun BF => neverScanned BF = true) (BinaryFunctions Prog) ->
  swProgram st = Prog /\ swOutlined st = [] ->
  swProgram (sweepLength h P BC st len) = Prog
  /\ swOutlined (sweepLength h P BC st len) = [].
Proof.
  intros Hall Hst. unfold sweepLength.
  apply (fold_left_inv (fun st => swProgram st = Prog /\ swOutlined st = []));
    [|exact Hst].
  intros a f [Ha1 Ha2].
  destruct (processFunction_never_scanned h P BC len a f) as [H1 H2].
  - intros BF HBF. rewrite Ha1 in HBF. rewrite Forall_forall in Hall.
    apply Hall. eapply list_elem_of_lookup_2, HBF.
  - rewrite H1, H2. auto.
Qed.

Lemma shrinkOutlined_nil BC (Prog : Program) : shrinkOutlined BC Prog [] = Prog.
Proof.
  unfold shrinkOutlined. rewrite imap_id_if.
  - apply Program_eta.
  - intros o _. apply bool_decide_eq_false. intros H. inversion H.
Qed.

(** X25.  The pass returns the program exactly as it got it when the range
    of lengths is empty (the largest length below the minimum), and when
    every function of the table is empty, not to be optimized, or has
    exception ranges. *)
Theorem runOnFunctions_leaves_alone h (P : PostLinkOutlining) BC (Prog : Program) :
  LargestLength P < PostLinkOutliningMinLength P
  \/ Forall (fun BF => neverScanned BF = true) (BinaryFunctions Prog) ->
  runOnFunctions h P BC Prog = (ErrorSuccess, Prog).
Proof.
  intros H. unfold runOnFunctions.
  assert (Hst : swProgram (fold_left (sweepLength h P BC) (sweepLengths P)
                             (mkSweep Prog ∅ [])) = Prog
                /\ swOutlined (fold_left (sweepLength h P BC) (sweepLengths P)
                                 (mkSweep Prog ∅ [])) = []).
  { destruct H as [H|H].
    - unfold sweepLengths. rewrite seqZ_nil by lia. simpl. auto.
    - apply (fold_left_inv (fun st => swProgram st = Prog /\ swOutlined st = []));
        [|simpl; auto].
      intros a len Ha. apply sweepLength_never_scanned; assumption. }
  destruct Hst as [-> ->]. rewrite shrinkOutlined_nil.
  rewrite removeRedundant_unchanged by (intros o F []). reflexivity.
Qed.

Lemma runOnFunctions_leaves_alone_witness :
  runOnFunctions Demo.std_hash_float (mkPass 1 false 2) Demo.AArch64 Demo.leafProgram
  = (ErrorSuccess, Demo.leafProgram).
Proof.
  apply runOnFunctions_leaves_alone. left. simpl. lia.
Defined.

(** ** Cost model: what is never admitted *)

Ltac unwrap_i32 :=
  repeat match goal with
         | |- context [wrap_i32 ?z] =>
             lazymatch z with
             | context [wrap_i32 _] => fail
             | _ => rewrite (wrap_i32_id z) by (unfold in_i32; lia)
             end
         end.

(** X26.  Without profile weighting a sequence located at most once is
    never admitted by the cost model, whatever its length (lengths below
    2^28, so that the byte counts fit an [int]) and whichever trampoline
    its occurrence needs. *)
Theorem single_occurrence_never_admitted (P : PostLinkOutlining) BC
    (BF : BinaryFunction) (len : Z) (seq : InstructionSequence)
    (locations : list SequenceLocation) :
  EnablePGO P = false ->
  (length locations <= 1)%nat ->
  0 <= len < 2 ^ 28 ->
  admitted (costModel P BC BF len seq locations) = false.
Proof.
  intros HPGO Hlen Hrange. unfold admitted, costModel. rewrite HPGO.
  cbn [MinBenefitThreshold netBenefit].
  unfold InstSizeBytes, RetSize, PrologueSize, EpilogueSize, SandwichCallSize,
    CallInstSize.
  apply Z.ltb_ge.
  destruct locations as [|Loc [|Loc2 rest]]; [| |simpl in Hlen; lia].
  - change (Z.of_nat (length (@nil SequenceLocation))) with 0. cbn [fold_left].
    destruct (isOutlinedFuncPure BC seq); cbn; unwrap_i32; rewrite !Z.div_1_r; cbn;
      lia.
  - change (Z.of_nat (length [Loc])) with 1. cbn [fold_left].
    destruct (IsCallerLeaf BC BF Loc), (isOutlinedFuncPure BC seq); cbn;
      unwrap_i32; rewrite !Z.div_1_r; cbn; lia.
Qed.

Lemma single_occurrence_never_admitted_witness :
  admitted (costModel Demo.defaultPass Demo.AArch64 Demo.leafFunction 5
              Demo.window5 [mkLoc 0 0]) = false.
Proof.
  apply single_occurrence_never_admitted; [reflexivity|simpl; lia|lia].
Defined.

(** ** Rewriting every occurrence of a block *)

Lemma replace_in_block BC (Ctx : MCContext) (BF : BinaryFunction) (b i n : nat)
    (Label : string) (BB : BinaryBasicBlock) :
  isAArch64 BC = true -> (0 < n)%nat ->
  Blocks BF !! b = Some BB -> (i + n <= bbSize BB)%nat ->
  exists T,
    isTrampoline BC Label T
    /\ replaceSequenceWithCall BC Ctx BF (mkLoc b i) n Label
       = (setBlocks BF
            (<[b := setInstructions BB
                      (take i (Instructions BB) ++ T
                       ++ drop (i + n) (Instructions BB))]> (Blocks BF)),
          mkCtx (NextExprAddr Ctx + 1) (NextTempSymbol Ctx)).
Proof.
  intros Harch Hn HBB Hin. unfold replaceSequenceWithCall. cbn [LocBB StartIndex].
  assert (E0 : (n =? 0)%nat = false) by (apply Nat.eqb_neq; lia).
  assert (E1 : (bbSize BB <? i + n)%nat = false) by (apply Nat.ltb_ge; lia).
  assert (E2 : (bbSize BB <=? i)%nat = false) by (apply Nat.leb_gt; lia).
  rewrite E0, (blockSizeAt_lookup _ _ _ HBB), E1, E2, Harch.
  cbn [negb andb orb createSymbolRefExpr].
  destruct (IsCallerLeaf BC BF (mkLoc b i)).
  - eexists. split.
    + exists (NextExprAddr Ctx). right. reflexivity.
    + unfold updateBlock. rewrite HBB. f_equal. f_equal. f_equal. f_equal.
      apply sandwich_rewrite; [exact Hn|exact Hin].
  - eexists. split.
    + exists (NextExprAddr Ctx). left. reflexivity.
    + unfold updateBlock. rewrite HBB. f_equal. f_equal. f_equal. f_equal.
      apply bare_call_rewrite; [exact Hn|exact Hin].
Qed.

Lemma interleave_snoc (s0 : list MCInst) (rest : list (list MCInst * list MCInst))
    (W s : list MCInst) :
  interleave s0 (rest ++ [(W, s)]) = interleave s0 rest ++ W ++ s.
Proof.
  revert s0. induction rest as [|[W1 s1] rest IH]; intros s0; simpl.
  - reflexivity.
  - rewrite IH, <- !app_assoc. reflexivity.
Qed.

Lemma starts_snoc (s0 : list MCInst) (rest : list (list MCInst * list MCInst))
    (W s : list MCInst) (offset : nat) :
  starts s0 (rest ++ [(W, s)]) offset
  = starts s0 rest offset ++ [(offset + length (interleave s0 rest))%nat].
Proof.
  revert s0 offset. induction rest as [|[W1 s1] rest IH]; intros s0 offset; simpl.
  - reflexivity.
  - rewrite IH. f_equal. f_equal. f_equal. rewrite !length_app. lia.
Qed.

Lemma replaceAll_cons BC (Ctx : MCContext) (BF : BinaryFunction)
    (Loc : SequenceLocation) (locations : list SequenceLocation) (SeqLen : nat)
    (Label : string) :
  replaceAll BC Ctx BF (Loc :: locations) SeqLen Label
  = replaceAll BC (snd (replaceSequenceWithCall BC Ctx BF Loc SeqLen Label))
      (fst (replaceSequenceWithCall BC Ctx BF Loc SeqLen Label))
      locations SeqLen Label.
Proof.
  unfold replaceAll. simpl.
  destruct (replaceSequenceWithCall BC Ctx BF Loc SeqLen Label). reflexivity.
Qed.

Lemma replaceAll_occurrences BC (b n : nat) (Label : string) (s0 : list MCInst)
    (rest : list (list MCInst * list MCInst)) :
  isAArch64 BC = true -> (0 < n)%nat ->
  Forall (fun Ws => length (fst Ws) = n) rest ->
  forall (Ctx : MCContext) (BF : BinaryFunction) (BB : BinaryBasicBlock)
         (tail : list MCInst),
    Blocks BF !! b = Some BB ->
    Instructions BB = interleave s0 rest ++ tail ->
    exists Ts,
      Forall2 (fun Ws Ts' => isTrampoline BC Label (fst Ts') /\ snd Ts' = snd Ws)
              rest Ts
      /\ Blocks (fst (replaceAll BC Ctx BF
                        (mkLoc b <$> reverse (starts s0 rest 0)) n Label))
         = <[b := setInstructions BB (interleave s0 Ts ++ tail)]> (Blocks BF).
Proof.
  intros Harch Hn. induction rest as [|[W s] rest IH] using rev_ind;
    intros Hall Ctx BF BB tail HBB Hinsts.
  - exists []. split; [constructor|]. simpl. simpl in Hinsts. rewrite <- Hinsts.
    rewrite setInstructions_eta. symmetry. apply list_insert_id. exact HBB.
  - apply Forall_app in Hall as [Hall HW]. apply Forall_inv in HW. simpl in HW. subst n.
    rewrite interleave_snoc, <- !app_assoc in Hinsts.
    rewrite starts_snoc, reverse_snoc, fmap_cons, replaceAll_cons. simpl Nat.add.
    set (pre := interleave s0 rest) in *.
    destruct (replace_in_block BC Ctx BF b (length pre) (length W) Label BB Harch Hn HBB)
      as (T & HT & Hrep).
    { unfold bbSize. rewrite Hinsts, !length_app. lia. }
    rewrite Hrep. cbn [fst snd].
    rewrite Hinsts in Hrep |- *.
    rewrite take_app_length.
    replace (drop (length pre + length W) (pre ++ W ++ s ++ tail)) with (s ++ tail).
    2:{ rewrite app_assoc. rewrite drop_app_length'
          by (rewrite length_app; reflexivity). reflexivity. }
    set (BB1 := setInstructions BB (pre ++ T ++ s ++ tail)).
    set (BF1 := setBlocks BF (<[b := BB1]> (Blocks BF))).
    assert (HBB1 : Blocks BF1 !! b = Some BB1).
    { unfold BF1. cbn [Blocks setBlocks]. apply list_lookup_insert_eq.
      eapply lookup_lt_Some, HBB. }
    destruct (IH Hall (mkCtx (NextExprAddr Ctx + 1) (NextTempSymbol Ctx)) BF1 BB1
                (T ++ s ++ tail) HBB1 eq_refl) as (Ts & HTs & Hres).
    exists (Ts ++ [(T, s)]). split.
    + apply Forall2_app; [exact HTs|]. constructor; [|constructor]. simpl. auto.
    + rewrite Hres. unfold BF1. cbn [Blocks setBlocks].
      rewrite list_insert_insert_eq. f_equal.
      rewrite interleave_snoc, <- !app_assoc. unfold BB1. reflexivity.
Qed.

(** X27.  On AArch64, when a block is made of runs of instructions
    separated by occurrences of length [n > 0] and the occurrences are
    handed to the rewriter from the last one to the first (the order the
    driver sorts them in), every occurrence is replaced by a trampoline (the
    call to the outlined function, bare or between the push and the pop of
    FP and LR), the runs in between are kept as they are and in order, and
    no other block changes. *)
Theorem replaceAll_replaces_every_occurrence BC (Ctx : MCContext)
    (BF : BinaryFunction) (b n : nat) (Label : string) (BB : BinaryBasicBlock)
    (s0 : list MCInst) (rest : list (list MCInst * list MCInst)) :
  isAArch64 BC = true -> (0 < n)%nat ->
  Forall (fun Ws => length (fst Ws) = n) rest ->
  Blocks BF !! b = Some BB ->
  Instructions BB = interleave s0 rest ->
  exists Ts,
    Forall2 (fun Ws Ts' => isTrampoline BC Label (fst Ts') /\ snd Ts' = snd Ws)
            rest Ts
    /\ Blocks (fst (replaceAll BC Ctx BF
                      (mkLoc b <$> reverse (starts s0 rest 0)) n Label))
       = <[b := setInstructions BB (interleave s0 Ts)]> (Blocks BF).
Proof.
  intros Harch Hn Hall HBB Hinsts.
  destruct (replaceAll_occurrences BC b n Label s0 rest Harch Hn Hall Ctx BF BB []
              HBB) as (Ts & HTs & Hres).
  { rewrite app_nil_r. exact Hinsts. }
  exists Ts. split; [exact HTs|]. rewrite app_nil_r in Hres. exact Hres.
Qed.

Lemma replaceAll_replaces_every_occurrence_witness :
  let rest := [(Demo.window5, [Demo.mov 9 100]); (Demo.window5, [Demo.mov 9 200]);
               (Demo.window5, [Demo.ret])] in
  exists Ts,
    Forall2 (fun Ws Ts' => isTrampoline Demo.AArch64 "PLO_outlined_1" (fst Ts')
                           /\ snd Ts' = snd Ws) rest Ts
    /\ Blocks (fst (replaceAll Demo.AArch64 Demo.ctx0 Demo.leafFunction
                      (mkLoc 0 <$> reverse (starts [] rest 0)) 5 "PLO_outlined_1"))
       = <[0%nat := setInstructions (mkBB (Demo.threeCopies ++ [Demo.ret]) [] false 0)
                      (interleave [] Ts)]> (Blocks Demo.leafFunction).
Proof.
  intros rest.
  apply (replaceAll_replaces_every_occurrence Demo.AArch64 Demo.ctx0
           Demo.leafFunction 0 5 "PLO_outlined_1"
           (mkBB (Demo.threeCopies ++ [Demo.ret]) [] false 0) [] rest).
  - reflexivity.
  - lia.
  - repeat constructor.
  - reflexivity.
  - reflexivity.
Defined.
